(** * A sliding-window rate limiter: the [RateLimiter] class of
    [code_submission_safe.py]

    The class keeps, for every identifier, a deque of the timestamps of the
    requests it admitted, and admits a request when fewer than
    [max_requests] of them are left once the expired ones at the front of
    the deque are dropped.

    Conventions of the embedding.
    - A number of Python is given by its value, a rational number: a
      timestamp ([time.time()]) is a finite [float], a double, and the
      window is an [int] or a finite [float].  The operations on them are
      those of Python: the difference of two floats is rounded to the
      nearest double ([round], binary64, ties to even, overflow to an
      infinity); a float and an [int] are compared exactly; an [int] that
      meets a float in a subtraction is first converted to a double, which
      raises [OverflowError] when it is too large; [int] truncates a float
      and raises [OverflowError] on an infinity.  Only rationals that are
      doubles ([is_double]) are values of [time.time()].
    - The clock is not part of the limiter: what [time.time()] returns is
      an argument of [check_rate_limit].
    - [self.requests], a [defaultdict(deque)], is a [gmap string (list Q)];
      a deque is the list of its items, item 0 first.
    - An identifier is an [option string], [None] being Python's [None].
    - A method is a function that returns the limiter it leaves behind and
      its outcome: the exception raised, or the value returned.
    - [with self.lock] does nothing in a method that runs alone.  The
      second model, of several threads inside [check_rate_limit], makes
      the lock and the statements between which a thread can be
      interrupted explicit. *)

From Stdlib Require Import QArith Qround Qpower Lia Lqa Sorted.
From stdpp Require Import gmap strings list fin_maps.

Local Open Scope Z_scope.

(** * Part I: the embedding *)

(** ** Python values *)

(** The exceptions the class raises: [ValueError] by [raise], [IndexError]
    by [deque.__getitem__] on an empty deque, [OverflowError] by the
    arithmetic of line 66. *)
Inductive exn : Type :=
  | ValueError (msg : string)
  | IndexError (msg : string)
  | OverflowError (msg : string).

(** The outcome of a call: what was raised, or what was returned. *)
Definition outcome (A : Type) : Type := (exn + A)%type.

(** ** Floats *)

(** [2 ^ k], for any integer [k]. *)
Definition pow2 (k : Z) : Q := (2 ^ k)%Q.

(** The binade of a positive number [a]: the integer [e] with
    [2 ^ e <= a < 2 ^ (e + 1)]. *)
Definition binade (a : Q) : Z :=
  let k := Z.log2 (Qnum a) - Z.log2 (Z.pos (Qden a)) in
  if Qle_bool (pow2 k) a then k else k - 1.

(** The nearest integer, the even one of two that are equally near. *)
Definition rne (x : Q) : Z :=
  let f := Qfloor x in
  match Qcompare (x - inject_Z f) (1 # 2) with
  | Lt => f
  | Eq => if Z.even f then f else f + 1
  | Gt => f + 1
  end.

(** The exponent of the last bit of a double near the positive number
    [a]: 53 bits from the binade on, and never below [-1074]. *)
Definition ulp_exponent (a : Q) : Z := Z.max (binade a - 52) (-1074).

(** The nearest multiple of [2 ^ ulp_exponent a]. *)
Definition round_pos (a : Q) : Q :=
  let p := ulp_exponent a in
  (inject_Z (rne (a * pow2 (- p))) * pow2 p)%Q.

(** A float that is not a NaN: no operation of the class makes a NaN from
    finite timestamps. *)
Inductive float : Type :=
  | Finite (x : Q)
  | PInf
  | NInf.

(** The double nearest to a number: what a floating-point operation
    returns for its exact result. *)
Definition round (x : Q) : float :=
  match Qcompare x 0 with
  | Eq => Finite 0
  | Gt => let v := round_pos x in
          if Qle_bool (pow2 1024) v then PInf else Finite v
  | Lt => let v := round_pos (- x) in
          if Qle_bool (pow2 1024) v then NInf else Finite (- v)
  end.

Definition float_le (a b : float) : Prop :=
  match a, b with
  | NInf, _ | _, PInf => True
  | Finite x, Finite y => (x <= y)%Q
  | _, _ => False
  end.

(** The numbers that are doubles. *)
Definition is_double (x : Q) : Prop :=
  exists v, round x = Finite v /\ (v == x)%Q.

(** Numbers far from the largest double, [2 ^ 1024 - 2 ^ 971]: a sum or a
    difference of three of them does not overflow.  The readings of
    [time.time()] are about [2 ^ 31]. *)
Definition in_range (x : Q) : Prop := (- pow2 1021 <= x <= pow2 1021)%Q.

(** [x - y] for two finite floats. *)
Definition float_sub (x y : Q) : float := round (x - y).

(** [x >= y] for a float [x] and a finite float or an [int] [y]: Python
    compares a float and an [int] by their exact values. *)
Definition float_ge (x : float) (y : Q) : bool :=
  match x with
  | Finite x => Qle_bool y x
  | PInf => true
  | NInf => false
  end.

(** The conversion of the left operand of [x - y], a finite float or an
    [int], when [y] is a float. *)
Definition to_float (x : Q) : outcome Q :=
  match round x with
  | Finite x => inr x
  | _ => inl (OverflowError "int too large to convert to float")
  end.

(** [x - y] for a finite float [x] and a float [y]. *)
Definition float_rsub (x : Q) (y : float) : float :=
  match y with
  | Finite y => round (x - y)
  | PInf => NInf
  | NInf => PInf
  end.

(** [int(x)] on a finite float: truncation towards zero. *)
Definition py_int (x : Q) : Z := Z.quot (Qnum x) (Z.pos (Qden x)).

(** [int(x)] on a float. *)
Definition int_of_float (x : float) : outcome Z :=
  match x with
  | Finite x => inr (py_int x)
  | _ => inl (OverflowError "cannot convert float infinity to integer")
  end.

(** ** The limiter *)

Record RateLimiter : Type := mkRateLimiter {
  max_requests : Z;
  time_window : Q;
  requests : gmap string (list Q)
}.

Definition set_requests (self : RateLimiter) (r : gmap string (list Q)) : RateLimiter :=
  {| max_requests := max_requests self;
     time_window := time_window self;
     requests := r |}.

(** [RateLimiter.__init__]. *)
Definition init (max_requests0 : Z) (time_window0 : Q) : outcome RateLimiter :=
  if max_requests0 <=? 0 then
    inl (ValueError "max_requests must be greater than 0")
  else if Qle_bool time_window0 0 then
    inl (ValueError "time_window must be greater than 0")
  else
    inr {| max_requests := max_requests0;
           time_window := time_window0;
           requests := ∅ |}.

(** [defaultdict.__getitem__]: a missing key is first bound to an empty
    deque. *)
Definition getitem (identifier : string) (r : gmap string (list Q))
  : gmap string (list Q) * list Q :=
  match r !! identifier with
  | Some log => (r, log)
  | None => (<[identifier := []]> r, [])
  end.

(** The [while] loop of [check_rate_limit] on one deque: [popleft] as long
    as the deque is not empty and [current_time - deque[0] >= window]. *)
Fixpoint purge (current_time window : Q) (log : list Q) : list Q :=
  match log with
  | [] => []
  | oldest :: rest =>
      if float_ge (float_sub current_time oldest) window
      then purge current_time window rest
      else log
  end.

(** Line 66: [int(time_window - (current_time - oldest)) + 1]. *)
Definition retry_after (time_window current_time oldest : Q) : outcome Z :=
  match to_float time_window with
  | inl e => inl e
  | inr w =>
      match int_of_float (float_rsub w (float_sub current_time oldest)) with
      | inl e => inl e
      | inr n => inr (n + 1)
      end
  end.

(** Lines 66 and 67: the refusal, unless line 66 raises. *)
Definition refusal (time_window current_time oldest : Q) : outcome (bool * Z) :=
  match retry_after time_window current_time oldest with
  | inl e => inl e
  | inr n => inr (false, n)
  end.

(** [RateLimiter.check_rate_limit], with the value [time.time()] returned
    as the argument [current_time]. *)
Definition check_rate_limit (self : RateLimiter) (identifier : option string)
    (current_time : Q) : RateLimiter * outcome (bool * Z) :=
  match identifier with
  | None | Some EmptyString =>
      (self, inl (ValueError "identifier cannot be None or empty"))
  | Some identifier =>
      let '(r, log) := getitem identifier (requests self) in
      let kept := purge current_time (time_window self) log in
      let r := <[identifier := kept]> r in
      if max_requests self <=? Z.of_nat (length kept) then
        match kept with
        | [] => (set_requests self r, inl (IndexError "deque index out of range"))
        | oldest :: _ =>
            (set_requests self r,
             refusal (time_window self) current_time oldest)
        end
      else
        (set_requests self (<[identifier := kept ++ [current_time]]> r),
         inr (true, 0))
  end.

(** [RateLimiter.reset]. *)
Definition reset (self : RateLimiter) (identifier : option string) : RateLimiter :=
  match identifier with
  | None => self
  | Some identifier =>
      if decide (is_Some (requests self !! identifier))
      then set_requests self (delete identifier (requests self))
      else self
  end.

(** ** Sequences of calls *)

(** A call of one of the two methods of a constructed limiter. *)
Inductive op : Type :=
  | Check (identifier : option string) (current_time : Q)
  | Reset (identifier : option string).

Definition op_identifier (o : op) : option string :=
  match o with
  | Check identifier _ => identifier
  | Reset identifier => identifier
  end.

(** The limiter a call leaves behind (also when the call raises). *)
Definition step (self : RateLimiter) (o : op) : RateLimiter :=
  match o with
  | Check identifier current_time =>
      fst (check_rate_limit self identifier current_time)
  | Reset identifier => reset self identifier
  end.

Definition run (self : RateLimiter) (ops : list op) : RateLimiter :=
  fold_left step ops self.

(** The limiters a program can hold: built by [__init__], then changed by
    calls of the methods only. *)
Inductive reachable : RateLimiter -> Prop :=
  | reachable_init m w self :
      init m w = inr self -> reachable self
  | reachable_step self o :
      reachable self -> reachable (step self o).

(** The clock is read by [check_rate_limit] only, and only after the
    identifier was accepted. *)
Definition clock_read (o : op) : option Q :=
  match o with
  | Check None _ | Check (Some EmptyString) _ | Reset _ => None
  | Check (Some _) current_time => Some current_time
  end.

Definition clock_reads (ops : list op) : list Q := omap clock_read ops.

(** A deque in chronological order: no item is older than one before it. *)
Definition chronological (log : list Q) : Prop := StronglySorted Qle log.

(** Consecutive calls of [check_rate_limit] for one identifier, one per
    clock reading, with their outcomes in order. *)
Fixpoint check_all (self : RateLimiter) (identifier : option string)
    (times : list Q) : RateLimiter * list (outcome (bool * Z)) :=
  match times with
  | [] => (self, [])
  | current_time :: times =>
      let '(self, o) := check_rate_limit self identifier current_time in
      let '(self, os) := check_all self identifier times in
      (self, o :: os)
  end.

(** The deque of an identifier as [check_rate_limit] finds it: empty when
    the identifier is new. *)
Definition log_of (self : RateLimiter) (identifier : string) : list Q :=
  default [] (requests self !! identifier).

(** The deque on whose length [check_rate_limit] decides. *)
Definition kept_log (self : RateLimiter) (identifier : string)
    (current_time : Q) : list Q :=
  purge current_time (time_window self) (log_of self identifier).

(** An item that the purge loop removes when it is at the front, and one
    that stops the loop: the test of line 59 is true, or false. *)
Definition stale (now window t : Q) : Prop :=
  float_ge (float_sub now t) window = true.
Definition fresh (now window t : Q) : Prop :=
  float_ge (float_sub now t) window = false.

(** Clock readings at which the item [t1] stops the loop. *)
Definition all_fresh (window t1 : Q) (times : list Q) : Prop :=
  Forall (fun t => fresh t window t1) times.

(** An item at least a window old, and one less than a window old, by the
    exact difference of the two numbers. *)
Definition expired (now window t : Q) : Prop := (window <= now - t)%Q.
Definition in_window (now window t : Q) : Prop := (now - t < window)%Q.

(** Clock readings less than a window after the reading [t1]. *)
Definition within_window (window t1 : Q) (times : list Q) : Prop :=
  Forall (fun t => in_window t window t1) times.

Definition admitted : outcome (bool * Z) := inr (true, 0).

(** ** Several threads in [check_rate_limit] *)

(** Where a thread is in [check_rate_limit]: about to validate the
    identifier and read the clock (lines 50 to 53); about to enter
    [with self.lock] (line 56); inside the block, at the test of the
    [while] loop (line 58), at the test of the quota (line 63), at the
    [append] (line 70), or with its [return] evaluated and the lock still to
    release; and back in the caller. *)
Inductive pc : Type :=
  | Called
  | Waiting (current_time : Q)
  | Purging (current_time : Q)
  | Deciding (current_time : Q)
  | Appending (current_time : Q)
  | Leaving (out : outcome (bool * Z))
  | Returned (out : outcome (bool * Z)).

(** The limiter shared by the threads, whether [self.lock] is held, and
    the threads. *)
Record world : Type := mkWorld {
  limiter : RateLimiter;
  locked : bool;
  pcs : list pc
}.

(** One step of a thread that called [check_rate_limit(identifier)], when
    the clock shows [clock]; [None] when the thread cannot run: it waits for
    the lock, or it has returned. *)
Definition thread_step (identifier : string) (self : RateLimiter) (lock : bool)
    (p : pc) (clock : Q) : option (RateLimiter * bool * pc) :=
  match p with
  | Called =>
      match identifier with
      | EmptyString =>
          Some (self, lock,
                Returned (inl (ValueError "identifier cannot be None or empty")))
      | _ => Some (self, lock, Waiting clock)
      end
  | Waiting current_time =>
      if lock then None else Some (self, true, Purging current_time)
  | Purging current_time =>
      let '(r, log) := getitem identifier (requests self) in
      match log with
      | [] => Some (set_requests self r, lock, Deciding current_time)
      | oldest :: rest =>
          if float_ge (float_sub current_time oldest) (time_window self)
          then Some (set_requests self (<[identifier := rest]> r), lock,
                     Purging current_time)
          else Some (set_requests self r, lock, Deciding current_time)
      end
  | Deciding current_time =>
      let '(r, log) := getitem identifier (requests self) in
      if max_requests self <=? Z.of_nat (length log) then
        match log with
        | [] =>
            Some (set_requests self r, lock,
                  Leaving (inl (IndexError "deque index out of range")))
        | oldest :: _ =>
            Some (set_requests self r, lock,
                  Leaving (refusal (time_window self) current_time oldest))
        end
      else Some (set_requests self r, lock, Appending current_time)
  | Appending current_time =>
      let '(r, log) := getitem identifier (requests self) in
      Some (set_requests self (<[identifier := log ++ [current_time]]> r), lock,
            Leaving (inr (true, 0)))
  | Leaving out => Some (self, false, Returned out)
  | Returned _ => None
  end.

(** The scheduler lets thread [i] make a step when the clock shows
    [clock]. *)
Definition world_step (identifier : string) (w : world) (e : Q * nat)
  : option world :=
  match pcs w !! e.2 with
  | None => None
  | Some p =>
      match thread_step identifier (limiter w) (locked w) p e.1 with
      | None => None
      | Some (self, lock, p') =>
          Some {| limiter := self; locked := lock; pcs := <[e.2 := p']> (pcs w) |}
      end
  end.

Fixpoint run_schedule (identifier : string) (w : world) (sched : list (Q * nat))
  : option world :=
  match sched with
  | [] => Some w
  | e :: sched =>
      match world_step identifier w e with
      | None => None
      | Some w' => run_schedule identifier w' sched
      end
  end.

(** [callers] threads have just called the method of [self]. *)
Definition start (self : RateLimiter) (callers : nat) : world :=
  {| limiter := self; locked := false; pcs := repeat Called callers |}.

Fixpoint count (f : pc -> bool) (l : list pc) : nat :=
  match l with
  | [] => 0
  | p :: l => (if f p then 1 else 0) + count f l
  end.

Definition returned (p : pc) : bool :=
  match p with Returned _ => true | _ => false end.

(** The thread got [(allowed, _)] back. *)
Definition returned_with (allowed : bool) (p : pc) : bool :=
  match p with
  | Returned (inr (b, _)) => Bool.eqb b allowed
  | _ => false
  end.

(** The step of thread [i] is the one in which it reads the clock. *)
Definition reads_clock (identifier : string) (w : world) (i : nat) : bool :=
  match identifier, pcs w !! i with
  | String _ _, Some Called => true
  | _, _ => false
  end.

(** What the callers read from the clock in the course of a run. *)
Fixpoint clock_readings (identifier : string) (w : world)
    (sched : list (Q * nat)) : list Q :=
  match sched with
  | [] => []
  | e :: sched =>
      match world_step identifier w e with
      | None => []
      | Some w' =>
          (if reads_clock identifier w e.2 then [e.1] else [])
            ++ clock_readings identifier w' sched
      end
  end.

(** The calls are made inside one window: for no two readings of the
    clock is the test of line 59 true. *)
Definition one_window (window : Q) (readings : list Q) : Prop :=
  forall t t', t ∈ readings -> t' ∈ readings -> fresh t window t'.

Definition one_windowb (window : Q) (readings : list Q) : bool :=
  forallb
    (fun t => forallb (fun t' => negb (float_ge (float_sub t t') window)) readings)
    readings.

(** No two readings of the clock are a window apart, by their exact
    difference. *)
Definition one_exact_window (window : Q) (readings : list Q) : Prop :=
  forall t t', t ∈ readings -> t' ∈ readings -> in_window t window t'.

(** The thread is inside [with self.lock]. *)
Definition critical (p : pc) : bool :=
  match p with
  | Purging _ | Deciding _ | Appending _ | Leaving _ => true
  | _ => false
  end.

Definition appending (p : pc) : bool :=
  match p with Appending _ => true | _ => false end.

(** The call of the thread has an outcome, which it may still have to
    return: admission, refusal, or an exception. *)
Definition holds_admission (p : pc) : bool :=
  match p with
  | Leaving (inr (true, _)) | Returned (inr (true, _)) => true
  | _ => false
  end.

Definition holds_refusal (p : pc) : bool :=
  match p with
  | Leaving (inr (false, _)) | Returned (inr (false, _)) => true
  | _ => false
  end.

Definition raised (p : pc) : bool :=
  match p with
  | Leaving (inl _) | Returned (inl _) => true
  | _ => false
  end.

(** The reading of the clock a thread carries. *)
Definition reading (p : pc) : option Q :=
  match p with
  | Waiting t | Purging t | Deciding t | Appending t => Some t
  | _ => None
  end.

(** An upper bound on the steps a thread has left, not counting the
    iterations of its [while] loop. *)
Definition weight (p : pc) : nat :=
  match p with
  | Called => 7
  | Waiting _ => 6
  | Purging _ => 5
  | Deciding _ => 4
  | Appending _ => 3
  | Leaving _ => 1
  | Returned _ => 0
  end.

Definition total_weight (l : list pc) : nat := foldr (fun p n => weight p + n)%nat 0%nat l.

(** What holds of the worlds of a run inside one window, for the callers of
    one identifier with quota [N]; [clock] holds of the readings of the
    run. *)
Record inv (identifier : string) (window : Q) (N : Z) (clock : Q -> Prop)
    (w : world) : Prop := mkInv {
  inv_max : max_requests (limiter w) = N;
  inv_window : time_window (limiter w) = window;
  inv_mutex : count critical (pcs w) = if locked w then 1%nat else 0%nat;
  inv_log_clock : Forall clock (log_of (limiter w) identifier);
  inv_pc_clock : Forall (fun p => forall t, reading p = Some t -> clock t) (pcs w);
  inv_admitted :
    length (log_of (limiter w) identifier) = count holds_admission (pcs w);
  inv_appending :
    (0 < count appending (pcs w))%nat ->
    Z.of_nat (length (log_of (limiter w) identifier)) < N;
  inv_refused :
    (0 < count holds_refusal (pcs w))%nat ->
    N <= Z.of_nat (length (log_of (limiter w) identifier));
  inv_raised : count raised (pcs w) = 0%nat;
  inv_bound : Z.of_nat (length (log_of (limiter w) identifier)) <= N
}.

(** ** Concrete limiters and runs used in the examples *)

Definition u1 : string := "u1".

(** [RateLimiter(3, 10)]. *)
Definition lim3 : RateLimiter :=
  {| max_requests := 3; time_window := 10; requests := ∅ |}.

(** [lim3] after the calls for [u1] at the readings 0, 1 and 2. *)
Definition lim3_full : RateLimiter :=
  set_requests lim3 (<[u1 := [0%Q; 1%Q; 2%Q]]> ∅).

(** Two calls for ["u1"] between which the clock was set back. *)
Definition clock_set_back : list op :=
  [Check (Some "u1"%string) 100; Check (Some "u1"%string) 5].

(** [RateLimiter(1, 10)] and a run of two callers of ["u1"]: the first one
    reads the clock at 0, the second one reads it at 1 and takes the lock
    first; the first one takes the lock when the clock shows 60. *)
Definition lim1 : RateLimiter :=
  {| max_requests := 1; time_window := 10; requests := ∅ |}.

Definition two_callers : list (Q * nat) :=
  [(0%Q, 0%nat); (1%Q, 1%nat);
   (2%Q, 1%nat); (2%Q, 1%nat); (2%Q, 1%nat); (2%Q, 1%nat); (2%Q, 1%nat);
   (60%Q, 0%nat); (60%Q, 0%nat); (60%Q, 0%nat); (60%Q, 0%nat)].

(** The world at the end of the run [two_callers]. *)
Definition two_callers_end : world :=
  {| limiter := set_requests lim1 (<[u1 := [1%Q]]> ∅);
     locked := false;
     pcs := [Returned (inr (false, 12)); Returned admitted] |}.

(** Two callers of ["u1"] on [RateLimiter(3, 10)], scheduled with a clock
    that never runs backwards: the first one reads the clock at 0, the
    second one reads it at 1 and takes the lock first. *)
Definition racing : list (Q * nat) :=
  [(0%Q, 0%nat); (1%Q, 1%nat);
   (1%Q, 1%nat); (1%Q, 1%nat); (1%Q, 1%nat); (1%Q, 1%nat); (1%Q, 1%nat);
   (1%Q, 0%nat); (1%Q, 0%nat); (1%Q, 0%nat); (1%Q, 0%nat); (1%Q, 0%nat)].

(** The world at the end of the run [racing]. *)
Definition racing_end : world :=
  {| limiter := set_requests lim3 (<[u1 := [1%Q; 0%Q]]> ∅);
     locked := false;
     pcs := [Returned admitted; Returned admitted] |}.

(** [2 ^ -60], a double. *)
Definition tiny : Q := 1 # (2 ^ 60)%positive.

(** [lim1] after the call for ["u1"] at the reading 0.0, and after the call
    at the reading [2 ^ -60]. *)
Definition lim1_zero : RateLimiter :=
  set_requests lim1 (<[u1 := [0%Q]]> ∅).

Definition lim1_tiny : RateLimiter :=
  set_requests lim1 (<[u1 := [tiny]]> ∅).

(** [RateLimiter(2, 10)]. *)
Definition lim2 : RateLimiter :=
  {| max_requests := 2; time_window := 10; requests := ∅ |}.

(** [RateLimiter(1, 10 ** 400)], and the same after the call for ["u1"] at
    the reading 0.0. *)
Definition lim_huge : RateLimiter :=
  {| max_requests := 1; time_window := inject_Z (10 ^ 400); requests := ∅ |}.

Definition lim_huge_zero : RateLimiter :=
  set_requests lim_huge (<[u1 := [0%Q]]> ∅).

(** Two callers of ["u1"] on [RateLimiter(1, 10)]: the first one reads the
    clock at [2 ^ -60] and returns; then the second one reads it at 10.0. *)
Definition rounded_callers : list (Q * nat) :=
  [(tiny, 0%nat); (tiny, 0%nat); (tiny, 0%nat); (tiny, 0%nat); (tiny, 0%nat);
   (tiny, 0%nat);
   (10%Q, 1%nat); (10%Q, 1%nat); (10%Q, 1%nat); (10%Q, 1%nat); (10%Q, 1%nat);
   (10%Q, 1%nat); (10%Q, 1%nat)].

(** The world at the end of the run [rounded_callers]. *)
Definition rounded_callers_end : world :=
  {| limiter := set_requests lim1 (<[u1 := [10%Q]]> ∅);
     locked := false;
     pcs := [Returned admitted; Returned admitted] |}.

(** ** Runs of calls: what was admitted, which identifiers were used *)

(** The item [t] stops the [while] loop at the reading [now]: the test of
    line 59 is false. *)
Definition recent (now window t : Q) : bool :=
  negb (float_ge (float_sub now t) window).

(** One call of a run, together with the readings at which the calls for
    [identifier] were admitted since the last [reset] of [identifier]. *)
Definition record_admission (identifier : string)
    (acc : RateLimiter * list Q) (o : op) : RateLimiter * list Q :=
  (step acc.1 o,
   match o with
   | Check i current_time =>
       if decide (i = Some identifier) then
         match snd (check_rate_limit acc.1 i current_time) with
         | inr (true, _) => acc.2 ++ [current_time]
         | _ => acc.2
         end
       else acc.2
   | Reset i => if decide (i = Some identifier) then [] else acc.2
   end).

Definition admitted_times (self : RateLimiter) (identifier : string)
    (ops : list op) : list Q :=
  snd (fold_left (record_admission identifier) ops (self, [])).

(** The identifiers that [check_rate_limit] accepted in a run. *)
Definition checked_identifier (o : op) : option string :=
  match o with
  | Check (Some (String a s)) _ => Some (String a s)
  | _ => None
  end.

Definition checked (ops : list op) : gset string :=
  list_to_set (omap checked_identifier ops).

Definition is_reset (o : op) : bool :=
  match o with Reset _ => true | Check _ _ => false end.

(** ** Threads under any clock *)

(** What every world of every run satisfies, for callers of [identifier]
    on a limiter with quota [N]: the quota is the one of [__init__]; the
    lock is held exactly when a thread is inside the block, and by one
    thread only; the deque of the identifier is not longer than the quota,
    and shorter when a thread is about to append to it. *)
Definition thread_safe (identifier : string) (N : Z) (w : world) : Prop :=
  max_requests (limiter w) = N /\
  count critical (pcs w) = (if locked w then 1%nat else 0%nat) /\
  Z.of_nat (length (log_of (limiter w) identifier)) <= N /\
  ((0 < count appending (pcs w))%nat ->
   Z.of_nat (length (log_of (limiter w) identifier)) < N).

(** ** Threads and the sequential method *)

(** The thread is between taking the lock and evaluating its [return]. *)
Definition in_block (p : pc) : bool :=
  match p with
  | Purging _ | Deciding _ | Appending _ => true
  | _ => false
  end.

(** How far the thread at [p] has brought the limiter [cur], when [s] is
    the limiter it found on taking the lock. *)
Definition lin_state (identifier : string) (s : RateLimiter) (p : pc)
    (cur : RateLimiter) : Prop :=
  match p with
  | Purging t =>
      cur = s \/
      exists l,
        cur = set_requests s (<[identifier := l]> (requests s)) /\
        purge t (time_window s) l = kept_log s identifier t
  | Deciding t =>
      cur = set_requests s
              (<[identifier := kept_log s identifier t]> (requests s))
  | Appending t =>
      cur = set_requests s
              (<[identifier := kept_log s identifier t]> (requests s)) /\
      Z.of_nat (length (kept_log s identifier t)) < max_requests s
  | _ => True
  end.

(** The limiter left, and the outcomes returned, by sequential calls for
    [identifier] on [self0], one for every thread of [done] with the reading
    the thread took. *)
Definition seq_state (identifier : string) (self0 : RateLimiter)
    (done : list (nat * Q)) : RateLimiter :=
  (check_all self0 (Some identifier) done.*2).1.

Definition seq_outs (identifier : string) (self0 : RateLimiter)
    (done : list (nat * Q)) : list (outcome (bool * Z)) :=
  (check_all self0 (Some identifier) done.*2).2.

(** The world [w] of a run on [self0] agrees with the sequential calls
    [done]: the threads that evaluated their [return], in the order in
    which they did, each with the reading of the clock it took. *)
Record linearized (identifier : string) (self0 : RateLimiter)
    (clock : Q -> Prop) (w : world) (done : list (nat * Q)) : Prop := mkLin {
  lin_nodup : NoDup done.*1;
  lin_outs :
    forall k e out,
      done !! k = Some e ->
      seq_outs identifier self0 done !! k = Some out ->
      pcs w !! e.1 = Some (Leaving out) \/ pcs w !! e.1 = Some (Returned out);
  lin_done :
    forall i out,
      pcs w !! i = Some (Leaving out) \/ pcs w !! i = Some (Returned out) ->
      i ∈ done.*1;
  lin_block :
    forall i p,
      pcs w !! i = Some p ->
      lin_state identifier (seq_state identifier self0 done) p (limiter w);
  lin_idle :
    count in_block (pcs w) = 0%nat ->
    limiter w = seq_state identifier self0 done;
  lin_mutex : count critical (pcs w) = if locked w then 1%nat else 0%nat;
  lin_clock_done : Forall (fun e => clock e.2) done;
  lin_clock_pcs :
    Forall (fun p => forall t, reading p = Some t -> clock t) (pcs w)
}.
(** * Part II: lemmas *)

(** ** Truncation *)

Lemma py_int_floor (x : Q) : (0 <= x)%Q -> py_int x = Qfloor x.
Proof.
  destruct x as [n d]; unfold py_int, Qle; simpl; intros H.
  apply Z.quot_div_nonneg; lia.
Qed.

Lemma Qfloor_nonneg (x : Q) : (0 <= x)%Q -> 0 <= Qfloor x.
Proof.
  intros H. change 0 with (Qfloor 0). now apply Qfloor_resp_le.
Qed.

Lemma Qle_bool_true (x y : Q) : Qle_bool x y = true <-> (x <= y)%Q.
Proof. apply Qle_bool_iff. Qed.

(** ** Powers of 2 *)

Lemma pow2_pos k : (0 < pow2 k)%Q.
Proof. apply Qpower_0_lt. reflexivity. Qed.

Lemma pow2_plus a b : (pow2 (a + b) == pow2 a * pow2 b)%Q.
Proof. apply Qpower_plus. discriminate. Qed.

Lemma pow2_le a b : a <= b -> (pow2 a <= pow2 b)%Q.
Proof. intros H. apply Qpower_le_compat_l; [exact H | discriminate]. Qed.

Lemma pow2_lt a b : a < b -> (pow2 a < pow2 b)%Q.
Proof. intros H. apply Qpower_lt_compat_l; [exact H | reflexivity]. Qed.

Lemma pow2_lt_inv a b : (pow2 a < pow2 b)%Q -> a < b.
Proof. intros H. eapply Qpower_lt_compat_l_inv; [exact H | reflexivity]. Qed.

Lemma pow2_Z k : 0 <= k -> (pow2 k == inject_Z (2 ^ k))%Q.
Proof. intros H. unfold pow2. now rewrite Zpower_Qpower. Qed.

Lemma pow2_cancel p : (pow2 (- p) * pow2 p == 1)%Q.
Proof. rewrite <- pow2_plus. now replace (- p + p) with 0 by lia. Qed.

Lemma pow2_succ k : (pow2 (k + 1) == 2 * pow2 k)%Q.
Proof. rewrite pow2_plus. change (pow2 1) with 2%Q. ring. Qed.

(** ** Binades *)

Lemma binade_spec a : (0 < a)%Q -> (pow2 (binade a) <= a < pow2 (binade a + 1))%Q.
Proof.
  intros Ha. destruct a as [n d]. unfold binade. cbn [Qnum Qden].
  assert (Hn : 0 < n) by (unfold Qlt in Ha; simpl in Ha; lia).
  set (ln := Z.log2 n). set (ld := Z.log2 (Z.pos d)).
  destruct (Z.log2_spec n Hn) as [Hn1 Hn2].
  destruct (Z.log2_spec (Z.pos d) ltac:(lia)) as [Hd1 Hd2].
  fold ln in Hn1, Hn2. fold ld in Hd1, Hd2.
  assert (Hln : 0 <= ln) by apply Z.log2_nonneg.
  assert (Hld : 0 <= ld) by apply Z.log2_nonneg.
  (* a * d = n *)
  assert (Had : ((n # d) * inject_Z (Z.pos d) == inject_Z n)%Q).
  { unfold Qeq, Qmult, inject_Z. simpl. lia. }
  assert (Q1 : (pow2 ln <= inject_Z n)%Q).
  { rewrite pow2_Z by lia. now rewrite <- Zle_Qle. }
  assert (Q2 : (inject_Z n < pow2 (ln + 1))%Q).
  { rewrite pow2_Z by lia. rewrite <- Zlt_Qlt. exact Hn2. }
  assert (Q3 : (pow2 ld <= inject_Z (Z.pos d))%Q).
  { rewrite pow2_Z by lia. now rewrite <- Zle_Qle. }
  assert (Q4 : (inject_Z (Z.pos d) < pow2 (ld + 1))%Q).
  { rewrite pow2_Z by lia. rewrite <- Zlt_Qlt. exact Hd2. }
  assert (Hup : (n # d < pow2 (ln - ld + 1))%Q).
  { apply (Qmult_lt_r _ _ (pow2 ld)); [apply pow2_pos |].
    rewrite <- pow2_plus. replace (ln - ld + 1 + ld) with (ln + 1) by lia.
    eapply Qle_lt_trans; [| exact Q2]. rewrite <- Had.
    apply Qmult_le_l; [exact Ha | exact Q3]. }
  assert (Hlow : (pow2 (ln - ld - 1) <= n # d)%Q).
  { apply (Qmult_le_r _ _ (pow2 (ld + 1))); [apply pow2_pos |].
    rewrite <- pow2_plus. replace (ln - ld - 1 + (ld + 1)) with ln by lia.
    eapply Qle_trans; [exact Q1 |]. rewrite <- Had.
    apply Qmult_le_l; [exact Ha |]. now apply Qlt_le_weak. }
  destruct (Qle_bool (pow2 (ln - ld)) (n # d)) eqn:E.
  - apply Qle_bool_iff in E. split; assumption.
  - assert (E' : (n # d < pow2 (ln - ld))%Q).
    { apply Qnot_le_lt. intros H. apply Qle_bool_iff in H. congruence. }
    replace (ln - ld - 1 + 1) with (ln - ld) by lia. split; assumption.
Qed.

Lemma binade_unique a k :
  (pow2 k <= a < pow2 (k + 1))%Q -> binade a = k.
Proof.
  intros [H1 H2].
  assert (Ha : (0 < a)%Q) by (eapply Qlt_le_trans; [apply pow2_pos | exact H1]).
  destruct (binade_spec a Ha) as [B1 B2].
  assert (binade a < k + 1) by (apply pow2_lt_inv; eapply Qle_lt_trans; eauto).
  assert (k < binade a + 1) by (apply pow2_lt_inv; eapply Qle_lt_trans; eauto).
  lia.
Qed.

Lemma binade_le a b : (0 < a)%Q -> (a <= b)%Q -> binade a <= binade b.
Proof.
  intros Ha Hab.
  assert (Hb : (0 < b)%Q) by (eapply Qlt_le_trans; eauto).
  destruct (binade_spec a Ha) as [A1 _], (binade_spec b Hb) as [_ B2].
  assert (binade a < binade b + 1); [| lia].
  apply pow2_lt_inv. eapply Qle_lt_trans; [exact A1 |].
  eapply Qle_lt_trans; eauto.
Qed.

(** ** Rounding to an integer *)

Lemma rne_Z n : rne (inject_Z n) = n.
Proof.
  unfold rne. rewrite Qfloor_Z.
  destruct (Qcompare_spec (inject_Z n - inject_Z n) (1 # 2)) as [H|H|H];
    [lra | reflexivity | lra].
Qed.

Lemma rne_le x y : (x <= y)%Q -> rne x <= rne y.
Proof.
  intros Hxy. unfold rne.
  pose proof (Qfloor_resp_le x y Hxy) as Hf.
  pose proof (Qfloor_le x) as X1. pose proof (Qlt_floor x) as X2.
  pose proof (Qfloor_le y) as Y1. pose proof (Qlt_floor y) as Y2.
  rewrite inject_Z_plus in X2, Y2. change (inject_Z 1) with 1%Q in X2, Y2.
  destruct (Z.eq_dec (Qfloor x) (Qfloor y)) as [E|E].
  - rewrite <- E in *.
    destruct (Qcompare_spec (x - inject_Z (Qfloor x)) (1 # 2)) as [Hx|Hx|Hx];
    destruct (Qcompare_spec (y - inject_Z (Qfloor x)) (1 # 2)) as [Hy|Hy|Hy];
      try destruct (Z.even (Qfloor x)); try lia; lra.
  - assert (Hlt : Qfloor x + 1 <= Qfloor y) by lia.
    destruct (Qcompare (x - inject_Z (Qfloor x)) (1 # 2));
    destruct (Qcompare (y - inject_Z (Qfloor y)) (1 # 2));
      try destruct (Z.even (Qfloor x)); try destruct (Z.even (Qfloor y)); lia.
Qed.

Lemma rne_comp x y : (x == y)%Q -> rne x = rne y.
Proof.
  intros H. apply Z.le_antisymm; apply rne_le; rewrite H; apply Qle_refl.
Qed.

Lemma rne_lower n x : (inject_Z n <= x)%Q -> n <= rne x.
Proof. intros H. rewrite <- (rne_Z n). now apply rne_le. Qed.

Lemma rne_upper n x : (x <= inject_Z n)%Q -> rne x <= n.
Proof. intros H. rewrite <- (rne_Z n). now apply rne_le. Qed.

(** ** Rounding a positive number *)

Lemma ulp_exponent_le a b : (0 < a)%Q -> (a <= b)%Q -> ulp_exponent a <= ulp_exponent b.
Proof. intros Ha Hab. unfold ulp_exponent. pose proof (binade_le a b Ha Hab). lia. Qed.

(** Rounding at the exponent [p] keeps a value on the side of a power of 2
    it is on. *)
Lemma scaled_pow2 k p : p <= k -> (pow2 k * pow2 (- p) == inject_Z (2 ^ (k - p)))%Q.
Proof.
  intros H. rewrite <- pow2_plus, <- pow2_Z by lia.
  now replace (k + - p) with (k - p) by lia.
Qed.

Lemma round_at_le_pow2 a p k :
  p <= k -> (a <= pow2 k)%Q ->
  (inject_Z (rne (a * pow2 (- p))) * pow2 p <= pow2 k)%Q.
Proof.
  intros Hpk Ha.
  assert (H : rne (a * pow2 (- p)) <= 2 ^ (k - p)).
  { apply rne_upper. rewrite <- scaled_pow2 by assumption.
    apply Qmult_le_compat_r; [exact Ha | apply Qlt_le_weak, pow2_pos]. }
  rewrite Zle_Qle in H. rewrite <- scaled_pow2 in H by assumption.
  apply (Qmult_le_compat_r _ _ (pow2 p)) in H; [| apply Qlt_le_weak, pow2_pos].
  rewrite <- Qmult_assoc, pow2_cancel, Qmult_1_r in H. exact H.
Qed.

Lemma round_at_ge_pow2 a p k :
  p <= k -> (pow2 k <= a)%Q ->
  (pow2 k <= inject_Z (rne (a * pow2 (- p))) * pow2 p)%Q.
Proof.
  intros Hpk Ha.
  assert (H : 2 ^ (k - p) <= rne (a * pow2 (- p))).
  { apply rne_lower. rewrite <- scaled_pow2 by assumption.
    apply Qmult_le_compat_r; [exact Ha | apply Qlt_le_weak, pow2_pos]. }
  rewrite Zle_Qle in H. rewrite <- scaled_pow2 in H by assumption.
  apply (Qmult_le_compat_r _ _ (pow2 p)) in H; [| apply Qlt_le_weak, pow2_pos].
  rewrite <- Qmult_assoc, pow2_cancel, Qmult_1_r in H. exact H.
Qed.

Lemma round_pos_nonneg a : (0 < a)%Q -> (0 <= round_pos a)%Q.
Proof.
  intros Ha. unfold round_pos.
  apply Qmult_le_0_compat; [| apply Qlt_le_weak, pow2_pos].
  change 0%Q with (inject_Z 0). rewrite <- Zle_Qle. apply rne_lower.
  apply Qmult_le_0_compat; [now apply Qlt_le_weak | apply Qlt_le_weak, pow2_pos].
Qed.

Lemma round_pos_le a b : (0 < a)%Q -> (a <= b)%Q -> (round_pos a <= round_pos b)%Q.
Proof.
  intros Ha Hab.
  assert (Hb : (0 < b)%Q) by (eapply Qlt_le_trans; eauto).
  pose proof (ulp_exponent_le a b Ha Hab) as Hp.
  destruct (Z.eq_dec (ulp_exponent a) (ulp_exponent b)) as [E|E].
  - unfold round_pos. rewrite E.
    apply Qmult_le_compat_r; [| apply Qlt_le_weak, pow2_pos].
    rewrite <- Zle_Qle. apply rne_le.
    apply Qmult_le_compat_r; [exact Hab | apply Qlt_le_weak, pow2_pos].
  - (* b is in a higher binade, and normal *)
    assert (Hpb : ulp_exponent b = binade b - 52)
      by (unfold ulp_exponent in *; lia).
    assert (Hab' : binade a < binade b) by (unfold ulp_exponent in *; lia).
    destruct (binade_spec a Ha) as [_ A2], (binade_spec b Hb) as [B1 _].
    apply Qle_trans with (pow2 (binade b)).
    + apply round_at_le_pow2; [unfold ulp_exponent in *; lia |].
      apply Qlt_le_weak. eapply Qlt_le_trans; [exact A2 |]. apply pow2_le. lia.
    + apply round_at_ge_pow2; [lia | exact B1].
Qed.

Lemma round_pos_comp a b : (0 < a)%Q -> (a == b)%Q -> (round_pos a == round_pos b)%Q.
Proof.
  intros Ha Hab. apply Qle_antisym; apply round_pos_le; trivial;
    rewrite ?Hab; try apply Qle_refl. now rewrite <- Hab.
Qed.

Lemma binade_pow2 k : binade (pow2 k) = k.
Proof.
  apply binade_unique. split; [apply Qle_refl | apply pow2_lt; lia].
Qed.

(** A positive multiple of [pow2 q], with [q] not below the exponent at
    which it is rounded, is not changed. *)
Lemma round_pos_exact v m q :
  ulp_exponent v <= q -> (v == inject_Z m * pow2 q)%Q -> (round_pos v == v)%Q.
Proof.
  intros Hq Hv. unfold round_pos. set (p := ulp_exponent v) in *.
  assert (Hs : (v * pow2 (- p) == inject_Z (m * 2 ^ (q - p)))%Q).
  { rewrite Hv, inject_Z_mult, <- Qmult_assoc, scaled_pow2 by assumption.
    reflexivity. }
  rewrite (rne_comp _ _ Hs), rne_Z, inject_Z_mult, <- scaled_pow2 by assumption.
  rewrite Hv, <- !Qmult_assoc, pow2_cancel. ring.
Qed.

Lemma round_pos_idem a :
  (0 < a)%Q -> (0 < round_pos a)%Q -> (round_pos (round_pos a) == round_pos a)%Q.
Proof.
  intros Ha Hv. set (v := round_pos a) in *.
  set (e := binade a). set (p := ulp_exponent a).
  destruct (binade_spec a Ha) as [A1 A2]. fold e in A1, A2.
  assert (Hform : (v == inject_Z (rne (a * pow2 (- p))) * pow2 p)%Q) by reflexivity.
  destruct (Z_le_gt_dec (-1074) (e - 52)) as [Hn|Hs].
  - (* normal *)
    assert (Hp : p = e - 52) by (unfold p, ulp_exponent; fold e; lia).
    assert (Hup : (v <= pow2 (e + 1))%Q).
    { apply round_at_le_pow2; [lia | now apply Qlt_le_weak]. }
    assert (Hlow : (pow2 e <= v)%Q).
    { apply round_at_ge_pow2; [lia | exact A1]. }
    destruct (Qlt_le_dec v (pow2 (e + 1))) as [Hlt|Hge].
    + apply (round_pos_exact v (rne (a * pow2 (- p))) p); [| exact Hform].
      unfold ulp_exponent. rewrite (binade_unique v e) by (split; assumption). lia.
    + assert (Hv2 : (v == pow2 (e + 1))%Q) by (apply Qle_antisym; assumption).
      apply (round_pos_exact v (2 ^ 52) (p + 1)).
      * unfold ulp_exponent.
        rewrite (binade_unique v (e + 1)); [lia |].
        rewrite Hv2. split; [apply Qle_refl | apply pow2_lt; lia].
      * rewrite Hv2, <- pow2_Z, <- pow2_plus by lia.
        now replace (52 + (p + 1)) with (e + 1) by lia.
  - (* subnormal *)
    assert (Hp : p = -1074) by (unfold p, ulp_exponent; fold e; lia).
    assert (Hup : (v <= pow2 (-1022))%Q).
    { apply round_at_le_pow2; [lia |]. apply Qlt_le_weak.
      eapply Qlt_le_trans; [exact A2 |]. apply pow2_le. lia. }
    apply (round_pos_exact v (rne (a * pow2 (- p))) p); [| exact Hform].
    pose proof (binade_le v (pow2 (-1022)) Hv Hup) as Hb.
    rewrite binade_pow2 in Hb. unfold ulp_exponent. lia.
Qed.

(** A positive value that is at most [pow2 k] is rounded to at most
    [pow2 k]. *)
Lemma round_pos_le_pow2 a k :
  -1074 <= k -> (0 < a)%Q -> (a <= pow2 k)%Q -> (round_pos a <= pow2 k)%Q.
Proof.
  intros Hk Ha Hak. apply round_at_le_pow2; [| exact Hak].
  pose proof (binade_le a (pow2 k) Ha Hak) as Hb. rewrite binade_pow2 in Hb.
  unfold ulp_exponent. lia.
Qed.

(** ** Rounding *)

Lemma float_le_refl a : float_le a a.
Proof. destruct a; simpl; trivial. apply Qle_refl. Qed.

Lemma float_le_trans a b c : float_le a b -> float_le b c -> float_le a c.
Proof.
  destruct a, b, c; simpl; trivial; try contradiction. apply Qle_trans.
Qed.

Lemma round_0 : round 0 = Finite 0.
Proof. reflexivity. Qed.

Lemma round_positive x :
  (0 < x)%Q ->
  round x = (if Qle_bool (pow2 1024) (round_pos x) then PInf
             else Finite (round_pos x)).
Proof.
  intros H. unfold round.
  assert (E : (x ?= 0)%Q = Gt) by now apply Qgt_alt.
  now rewrite E.
Qed.

Lemma round_negative x :
  (x < 0)%Q ->
  round x = (if Qle_bool (pow2 1024) (round_pos (- x)) then NInf
             else Finite (- round_pos (- x))).
Proof.
  intros H. unfold round.
  assert (E : (x ?= 0)%Q = Lt) by now apply Qlt_alt.
  now rewrite E.
Qed.

Lemma round_zero x : (x == 0)%Q -> round x = Finite 0.
Proof.
  intros H. unfold round.
  assert (E : (x ?= 0)%Q = Eq) by now apply Qeq_alt.
  now rewrite E.
Qed.

Lemma Qle_bool_false x y : Qle_bool x y = false <-> (y < x)%Q.
Proof.
  destruct (Qle_bool x y) eqn:E; split; intros H; try congruence.
  - apply Qle_bool_iff in E. lra.
  - apply Qnot_le_lt. intros Hle. apply Qle_bool_iff in Hle. congruence.
Qed.

Lemma round_nonneg x : (0 <= x)%Q -> float_le (Finite 0) (round x).
Proof.
  intros H. destruct (Qcompare_spec x 0) as [E|E|E]; [| lra |].
  - rewrite (round_zero x E). apply Qle_refl.
  - rewrite (round_positive x E).
    destruct (Qle_bool _ _); simpl; [trivial | now apply round_pos_nonneg].
Qed.

Lemma round_nonpos x : (x <= 0)%Q -> float_le (round x) (Finite 0).
Proof.
  intros H. destruct (Qcompare_spec x 0) as [E|E|E]; [| | lra].
  - rewrite (round_zero x E). apply Qle_refl.
  - rewrite (round_negative x E).
    destruct (Qle_bool _ _); simpl; [trivial |].
    assert (0 <= round_pos (- x))%Q by (apply round_pos_nonneg; lra). lra.
Qed.

(** Rounding is monotone. *)
Lemma round_le x y : (x <= y)%Q -> float_le (round x) (round y).
Proof.
  intros Hxy.
  destruct (Qlt_le_dec 0 x) as [Hx|Hx].
  - assert (Hy : (0 < y)%Q) by lra.
    rewrite (round_positive x Hx), (round_positive y Hy).
    pose proof (round_pos_le x y Hx Hxy) as Hle.
    destruct (Qle_bool (pow2 1024) (round_pos x)) eqn:Ex,
             (Qle_bool (pow2 1024) (round_pos y)) eqn:Ey; simpl; trivial.
    apply Qle_bool_iff in Ex. apply Qle_bool_false in Ey. lra.
  - destruct (Qlt_le_dec y 0) as [Hy|Hy].
    + assert (Hx' : (x < 0)%Q) by lra.
      rewrite (round_negative x Hx'), (round_negative y Hy).
      assert (Hle : (round_pos (- y) <= round_pos (- x))%Q)
        by (apply round_pos_le; lra).
      destruct (Qle_bool (pow2 1024) (round_pos (- x))) eqn:Ex,
               (Qle_bool (pow2 1024) (round_pos (- y))) eqn:Ey; simpl; trivial.
      * apply Qle_bool_iff in Ey. apply Qle_bool_false in Ex. lra.
      * lra.
    + eapply float_le_trans; [apply round_nonpos | apply round_nonneg]; assumption.
Qed.

(** What [round] returns is a double: rounding it again changes nothing. *)
Lemma round_idem x v :
  round x = Finite v -> exists v', round v = Finite v' /\ (v' == v)%Q.
Proof.
  intros H. destruct (Qcompare_spec x 0) as [E|E|E].
  - rewrite (round_zero x E) in H. injection H as <-. now exists 0%Q.
  - rewrite (round_negative x E) in H.
    destruct (Qle_bool (pow2 1024) (round_pos (- x))) eqn:Eo; [discriminate |].
    injection H as <-.
    assert (Hx : (0 < - x)%Q) by lra.
    pose proof (round_pos_nonneg (- x) Hx) as H0.
    destruct (Qlt_le_dec 0 (round_pos (- x))) as [Hv|Hv].
    + pose proof (round_pos_idem (- x) Hx Hv) as Hi.
      assert (Hneg : (- round_pos (- x) < 0)%Q) by lra.
      rewrite (round_negative _ Hneg).
      assert (Hc : (round_pos (- - round_pos (- x)) == round_pos (- x))%Q).
      { rewrite <- Hi at 2. apply round_pos_comp; [lra | ring]. }
      assert (Eo' : Qle_bool (pow2 1024) (round_pos (- - round_pos (- x))) = false).
      { apply Qle_bool_false. apply Qle_bool_false in Eo. lra. }
      rewrite Eo'. eexists; split; [reflexivity | lra].
    + rewrite round_zero by lra. exists 0%Q. split; [reflexivity | lra].
  - rewrite (round_positive x E) in H.
    destruct (Qle_bool (pow2 1024) (round_pos x)) eqn:Eo; [discriminate |].
    injection H as <-.
    pose proof (round_pos_nonneg x E) as H0.
    destruct (Qlt_le_dec 0 (round_pos x)) as [Hv|Hv].
    + pose proof (round_pos_idem x E Hv) as Hi.
      rewrite (round_positive _ Hv).
      assert (Eo' : Qle_bool (pow2 1024) (round_pos (round_pos x)) = false).
      { apply Qle_bool_false. apply Qle_bool_false in Eo. lra. }
      rewrite Eo'. eexists; split; [reflexivity | exact Hi].
    + rewrite round_zero by lra. exists 0%Q. split; [reflexivity | lra].
Qed.

Lemma round_comp x y v :
  (x == y)%Q -> round x = Finite v -> exists v', round y = Finite v' /\ (v' == v)%Q.
Proof.
  intros Hxy Hx.
  assert (H1 : float_le (round x) (round y)) by (apply round_le; lra).
  assert (H2 : float_le (round y) (round x)) by (apply round_le; lra).
  rewrite Hx in H1, H2. destruct (round y) as [v'| |]; simpl in *; try contradiction.
  exists v'. split; [reflexivity | lra].
Qed.

Lemma is_double_round x v : round x = Finite v -> is_double v.
Proof. apply round_idem. Qed.

Lemma is_double_int n : - 2 ^ 53 <= n <= 2 ^ 53 -> is_double (inject_Z n).
Proof.
  assert (Hpos : forall n, 0 < n <= 2 ^ 53 ->
            (round_pos (inject_Z n) == inject_Z n)%Q).
  { clear n. intros n [H0 H53].
    assert (Hn : (0 < inject_Z n)%Q) by (change 0%Q with (inject_Z 0); now rewrite <- Zlt_Qlt).
    destruct (Z.eq_dec n (2 ^ 53)) as [->|Hne].
    - apply (round_pos_exact _ (2 ^ 52) 1).
      + unfold ulp_exponent. rewrite (binade_unique _ 53); [lia |].
        rewrite <- (pow2_Z 53) by lia. split; [apply Qle_refl | apply pow2_lt; lia].
      + rewrite <- !pow2_Z, <- pow2_plus by lia. reflexivity.
    - apply (round_pos_exact _ n 0).
      + destruct (binade_spec _ Hn) as [B1 _].
        assert (binade (inject_Z n) < 53); [| unfold ulp_exponent; lia].
        apply pow2_lt_inv. eapply Qle_lt_trans; [exact B1 |].
        rewrite (pow2_Z 53) by lia. rewrite <- Zlt_Qlt. lia.
      + change (pow2 0) with 1%Q. ring. }
  assert (Hbig : (inject_Z (2 ^ 53) < pow2 1024)%Q).
  { rewrite <- (pow2_Z 53) by lia. apply pow2_lt. lia. }
  intros [Hlo Hhi]. unfold is_double.
  destruct (Z.lt_trichotomy n 0) as [Hn|[->|Hn]].
  - assert (Hq : (inject_Z n < 0)%Q) by (change 0%Q with (inject_Z 0); now rewrite <- Zlt_Qlt).
    rewrite (round_negative _ Hq).
    assert (Hv : (round_pos (- inject_Z n) == inject_Z (- n))%Q).
    { rewrite <- (Hpos (- n)) by lia. apply round_pos_comp; [lra |].
      now rewrite inject_Z_opp. }
    assert (Hle : (inject_Z (- n) <= inject_Z (2 ^ 53))%Q) by (rewrite <- Zle_Qle; lia).
    assert (E : Qle_bool (pow2 1024) (round_pos (- inject_Z n)) = false)
      by (apply Qle_bool_false; lra).
    rewrite E. eexists; split; [reflexivity |]. rewrite Hv, inject_Z_opp. ring.
  - exists 0%Q. split; reflexivity.
  - assert (Hq : (0 < inject_Z n)%Q) by (change 0%Q with (inject_Z 0); now rewrite <- Zlt_Qlt).
    rewrite (round_positive _ Hq).
    pose proof (Hpos n ltac:(lia)) as Hv.
    assert (Hle : (inject_Z n <= inject_Z (2 ^ 53))%Q) by (rewrite <- Zle_Qle; lia).
    assert (E : Qle_bool (pow2 1024) (round_pos (inject_Z n)) = false)
      by (apply Qle_bool_false; lra).
    rewrite E. eexists; split; [reflexivity | exact Hv].
Qed.

(** Between doubles rounding does not escape. *)
Lemma round_below x w : is_double w -> (x <= w)%Q -> float_le (round x) (Finite w).
Proof.
  intros (v & Hv & Hvw) Hx. pose proof (round_le x w Hx) as H. rewrite Hv in H.
  destruct (round x); simpl in *; trivial. lra.
Qed.

Lemma round_above x w : is_double w -> (w <= x)%Q -> float_le (Finite w) (round x).
Proof.
  intros (v & Hv & Hvw) Hx. pose proof (round_le w x Hx) as H. rewrite Hv in H.
  destruct (round x); simpl in *; trivial. lra.
Qed.

Lemma is_double_pow2 k : -1074 <= k <= 1023 -> is_double (pow2 k).
Proof.
  intros Hk. unfold is_double. rewrite (round_positive _ (pow2_pos k)).
  assert (Hv : (round_pos (pow2 k) == pow2 k)%Q).
  { apply (round_pos_exact _ 1 k).
    - unfold ulp_exponent. rewrite binade_pow2. lia.
    - change (inject_Z 1) with 1%Q. ring. }
  assert (E : Qle_bool (pow2 1024) (round_pos (pow2 k)) = false).
  { apply Qle_bool_false. rewrite Hv. apply pow2_lt. lia. }
  rewrite E. eexists; split; [reflexivity | exact Hv].
Qed.

Lemma is_double_opp x : is_double x -> is_double (- x).
Proof.
  intros (v & Hv & Hvx). unfold is_double.
  destruct (Qcompare_spec x 0) as [E|E|E].
  - rewrite round_zero by lra. exists 0%Q. split; [reflexivity | lra].
  - rewrite (round_negative x E) in Hv.
    destruct (Qle_bool (pow2 1024) (round_pos (- x))) eqn:Eo; [discriminate |].
    injection Hv as <-.
    assert (Hp : (0 < - x)%Q) by lra.
    rewrite (round_positive _ Hp), Eo. eexists; split; [reflexivity | lra].
  - rewrite (round_positive x E) in Hv.
    destruct (Qle_bool (pow2 1024) (round_pos x)) eqn:Eo; [discriminate |].
    injection Hv as <-.
    assert (Hn : (- x < 0)%Q) by lra.
    rewrite (round_negative _ Hn).
    assert (Hc : (round_pos (- - x) == round_pos x)%Q)
      by (apply round_pos_comp; [lra | ring]).
    assert (Eo' : Qle_bool (pow2 1024) (round_pos (- - x)) = false).
    { apply Qle_bool_false. apply Qle_bool_false in Eo. lra. }
    rewrite Eo'. eexists; split; [reflexivity | lra].
Qed.

(** A number between [- pow2 k] and [pow2 k] is rounded to a finite
    double between them. *)
Lemma round_finite x k :
  -1074 <= k <= 1023 -> (- pow2 k <= x <= pow2 k)%Q ->
  exists v, round x = Finite v /\ (- pow2 k <= v <= pow2 k)%Q.
Proof.
  intros Hk [Hlo Hhi].
  pose proof (round_below x (pow2 k) (is_double_pow2 k Hk) Hhi) as H1.
  assert (Hd : is_double (- pow2 k)) by (apply is_double_opp, is_double_pow2, Hk).
  pose proof (round_above x (- pow2 k) Hd Hlo) as H2.
  destruct (round x) as [v| |]; simpl in *; try contradiction.
  exists v. split; [reflexivity | lra].
Qed.

(** ** Some doubles *)

(** The literal [0.1]; a third; the conversion of [2 ** 53 + 1] and of
    [2 ** 53 + 3], ties going to the even double; [10.0 - 2 ** -60]; the
    largest double and the first number that overflows; the smallest
    double and the tie below it. *)
Example round_examples :
  (exists v, round (1 # 10) = Finite v /\
     (v == 3602879701896397 # 36028797018963968)%Q) /\
  (exists v, round (1 # 3) = Finite v /\
     (v == 6004799503160661 # 18014398509481984)%Q) /\
  (exists v, round (inject_Z (2 ^ 53 + 1)) = Finite v /\
     (v == inject_Z (2 ^ 53))%Q) /\
  (exists v, round (inject_Z (2 ^ 53 + 3)) = Finite v /\
     (v == inject_Z (2 ^ 53 + 4))%Q) /\
  (exists v, round (10 - tiny) = Finite v /\ (v == 10)%Q) /\
  (exists v, round (inject_Z (2 ^ 1024 - 2 ^ 970 - 1)) = Finite v /\
     (v == inject_Z (2 ^ 1024 - 2 ^ 971))%Q) /\
  round (inject_Z (2 ^ 1024 - 2 ^ 970)) = PInf /\
  round (- inject_Z (10 ^ 400)) = NInf /\
  (exists v, round (pow2 (-1074)) = Finite v /\ (v == pow2 (-1074))%Q) /\
  (exists v, round (pow2 (-1075)) = Finite v /\ (v == 0)%Q) /\
  (exists v, round (3 * pow2 (-1075)) = Finite v /\ (v == pow2 (-1073))%Q).
Proof.
  repeat split; try (eexists; split); vm_compute; reflexivity.
Qed.

(** ** The test of the loop and the number returned with a refusal *)

Lemma fresh_not_stale now window t : fresh now window t <-> ~ stale now window t.
Proof. unfold fresh, stale. destruct (float_ge _ _); split; congruence. Qed.

Lemma stale_or_fresh now window t : stale now window t \/ fresh now window t.
Proof. unfold fresh, stale. destruct (float_ge _ _); auto. Qed.

Lemma float_ge_le a b w : float_le a b -> float_ge a w = true -> float_ge b w = true.
Proof.
  destruct a as [x| |], b as [y| |]; simpl; trivial; try contradiction;
    try discriminate.
  intros Hxy Hx. apply Qle_bool_iff in Hx. apply Qle_bool_iff. lra.
Qed.

(** An item that the loop removes at one reading is removed at every later
    reading; and with it every item that is not younger. *)
Lemma stale_later t1 t2 window t :
  (t1 <= t2)%Q -> stale t1 window t -> stale t2 window t.
Proof.
  unfold stale, float_sub. intros H. apply float_ge_le, round_le. lra.
Qed.

Lemma stale_older now window t1 t2 :
  (t1 <= t2)%Q -> stale now window t2 -> stale now window t1.
Proof.
  unfold stale, float_sub. intros H. apply float_ge_le, round_le. lra.
Qed.

(** An item that is not older than the reading stops the loop. *)
Lemma fresh_future now window t :
  (0 < window)%Q -> (now <= t)%Q -> fresh now window t.
Proof.
  intros Hw Ht. unfold fresh, float_sub.
  pose proof (round_nonpos (now - t) ltac:(lra)) as H.
  destruct (round (now - t)) as [x| |]; simpl in *; try contradiction; trivial.
  apply Qle_bool_false. lra.
Qed.

(** When the window is a double, as an [int] up to [2 ^ 53] is, the test
    of the loop is true for every item at least a window old. *)
Lemma expired_stale now window t :
  is_double window -> expired now window t -> stale now window t.
Proof.
  unfold expired, stale, float_sub. intros Hd He.
  pose proof (round_above _ _ Hd He) as H.
  destruct (round (now - t)); simpl in *; try contradiction; trivial.
  now apply Qle_bool_iff.
Qed.

Lemma fresh_in_window now window t :
  is_double window -> fresh now window t -> in_window now window t.
Proof.
  intros Hd Hf. apply fresh_not_stale in Hf. unfold in_window.
  apply Qnot_le_lt. intros H. apply Hf. now apply expired_stale.
Qed.

Lemma pow2_1022 : (pow2 1022 == 2 * pow2 1021)%Q.
Proof. exact (pow2_succ 1021). Qed.

Lemma pow2_1023 : (pow2 1023 == 4 * pow2 1021)%Q.
Proof. rewrite (pow2_succ 1022), pow2_1022. ring. Qed.

(** What line 66 computes when nothing overflows. *)
Lemma retry_after_finite window now oldest w d y :
  round window = Finite w ->
  round (now - oldest) = Finite d ->
  round (w - d) = Finite y ->
  retry_after window now oldest = inr (py_int y + 1).
Proof.
  intros Hw Hd Hy. unfold retry_after, to_float, float_sub.
  rewrite Hw, Hd. simpl. now rewrite Hy.
Qed.

(** The difference of a reading and an item that stops the loop is a
    double below the window, and not above the window as a double. *)
Lemma fresh_below now window oldest w :
  round window = Finite w ->
  fresh now window oldest ->
  round (now - oldest) = NInf \/
  exists d, round (now - oldest) = Finite d /\ (d < window)%Q /\ (d <= w)%Q.
Proof.
  unfold fresh, float_sub. intros Hw Hf.
  destruct (round (now - oldest)) as [d| |] eqn:Hd; simpl in Hf;
    [| discriminate | now left].
  right. exists d. apply Qle_bool_false in Hf. repeat split; trivial.
  destruct (round_idem _ _ Hd) as (d' & Hd' & Hdd).
  pose proof (round_le d window ltac:(lra)) as H. rewrite Hd', Hw in H.
  simpl in H. lra.
Qed.

(** Within range, a refusal is returned, with a positive number. *)
Lemma refusal_in_range window now oldest :
  in_range window -> in_range now -> in_range oldest ->
  fresh now window oldest ->
  exists w d y,
    round window = Finite w /\
    round (now - oldest) = Finite d /\
    round (w - d) = Finite y /\
    (0 <= y)%Q /\
    refusal window now oldest = inr (false, Qfloor y + 1) /\
    0 < Qfloor y + 1.
Proof.
  unfold in_range. intros Hw Hn Ho Hf.
  destruct (round_finite window 1021 ltac:(lia) Hw) as (w & Ew & Hwr).
  pose proof pow2_1022 as P2. pose proof pow2_1023 as P3.
  pose proof (pow2_pos 1021) as P1.
  destruct (round_finite (now - oldest) 1022 ltac:(lia) ltac:(lra))
    as (d & Ed & Hdr).
  destruct (fresh_below _ _ _ _ Ew Hf) as [H|(d' & Ed' & Hdw & Hdw')];
    [congruence |].
  rewrite Ed in Ed'. injection Ed' as <-.
  destruct (round_finite (w - d) 1023 ltac:(lia) ltac:(lra)) as (y & Ey & Hyr).
  assert (Hy : (0 <= y)%Q).
  { pose proof (round_nonneg (w - d) ltac:(lra)) as H. now rewrite Ey in H. }
  exists w, d, y. repeat split; trivial.
  - unfold refusal. rewrite (retry_after_finite _ _ _ _ _ _ Ew Ed Ey).
    now rewrite py_int_floor.
  - pose proof (Qfloor_nonneg _ Hy). lia.
Qed.

(** Whenever a refusal is returned for an item that stops the loop, its
    number is positive. *)
Lemma refusal_positive window now oldest r :
  fresh now window oldest ->
  refusal window now oldest = inr (false, r) -> 0 < r.
Proof.
  intros Hf. unfold refusal, retry_after, to_float.
  destruct (round window) as [w| |] eqn:Ew; try discriminate.
  destruct (fresh_below _ _ _ _ Ew Hf) as [H|(d & Ed & Hdw & Hdw')].
  - unfold float_sub. rewrite H. discriminate.
  - unfold float_sub. rewrite Ed. simpl.
    destruct (round (w - d)) as [y| |] eqn:Ey; try discriminate. simpl.
    intros [= <-].
    assert (Hy : (0 <= y)%Q).
    { pose proof (round_nonneg (w - d) ltac:(lra)) as H. now rewrite Ey in H. }
    rewrite py_int_floor by assumption. pose proof (Qfloor_nonneg _ Hy). lia.
Qed.

(** A refusal is never an [IndexError] nor a [ValueError]. *)
Lemma refusal_raises window now oldest e :
  refusal window now oldest = inl e -> exists msg, e = OverflowError msg.
Proof.
  unfold refusal, retry_after, to_float.
  destruct (round window); [| intros [= <-]; eauto | intros [= <-]; eauto].
  destruct (int_of_float _) eqn:E; [| discriminate].
  intros [= <-]. unfold int_of_float in E.
  destruct (float_rsub _ _); [discriminate | |]; injection E as <-; eauto.
Qed.

(** Rounding is symmetric. *)
Lemma Qopp_opp_eq (q : Q) : (- - q)%Q = q.
Proof. destruct q as [n d]. unfold Qopp. simpl. now rewrite Z.opp_involutive. Qed.

Lemma round_opp x :
  round (- x) =
    match round x with
    | Finite v => Finite (- v)
    | PInf => NInf
    | NInf => PInf
    end.
Proof.
  destruct (Qcompare_spec x 0) as [E|E|E].
  - rewrite (round_zero x E), round_zero by lra. reflexivity.
  - rewrite (round_negative x E), (round_positive (- x)) by lra.
    destruct (Qle_bool _ _); [reflexivity |]. now rewrite Qopp_opp_eq.
  - rewrite (round_positive x E), (round_negative (- x)) by lra.
    rewrite Qopp_opp_eq. now destruct (Qle_bool _ _).
Qed.

Lemma round_eq x y : (x == y)%Q -> float_le (round x) (round y).
Proof. intros H. apply round_le. lra. Qed.

(** Two readings neither of which is a window after the other: their
    difference is a finite double between [- window] and [window]. *)
Lemma fresh_both t t' window :
  fresh t window t' -> fresh t' window t ->
  exists d, round (t - t') = Finite d /\ (- window < d < window)%Q.
Proof.
  unfold fresh, float_sub. intros H1 H2.
  assert (Hle : float_le (round (t' - t)) (round (- (t - t'))))
    by (apply round_eq; ring).
  assert (Hge : float_le (round (- (t - t'))) (round (t' - t)))
    by (apply round_eq; ring).
  rewrite round_opp in Hle, Hge.
  destruct (round (t - t')) as [d| |], (round (t' - t)) as [d'| |];
    simpl in *; try contradiction; try discriminate.
  exists d. apply Qle_bool_false in H1, H2. split; [reflexivity | lra].
Qed.

(** Then, for a window within range, a refusal is returned. *)
Lemma refusal_one_window window now oldest :
  in_range window ->
  fresh now window oldest -> fresh oldest window now ->
  exists r, refusal window now oldest = inr (false, r).
Proof.
  unfold in_range. intros Hw H1 H2.
  destruct (round_finite window 1021 ltac:(lia) Hw) as (w & Ew & Hwr).
  destruct (fresh_both _ _ _ H1 H2) as (d & Ed & Hd).
  pose proof pow2_1022 as P2. pose proof (pow2_pos 1021) as P1.
  destruct (round_finite (w - d) 1022 ltac:(lia) ltac:(lra)) as (y & Ey & _).
  eexists. unfold refusal. now rewrite (retry_after_finite _ _ _ _ _ _ Ew Ed Ey).
Qed.
(** ** The purge loop *)

Section Purge.
Variables now window : Q.

Local Abbreviation stale := (stale now window).
Local Abbreviation fresh := (fresh now window).

Lemma purge_cons_stale t log :
  stale t -> purge now window (t :: log) = purge now window log.
Proof. unfold stale; intros H; simpl. now rewrite H. Qed.

Lemma purge_cons_fresh t log :
  fresh t -> purge now window (t :: log) = t :: log.
Proof. unfold fresh; intros H; simpl. now rewrite H. Qed.

(** The loop removes a prefix of stale items and nothing else. *)
Lemma purge_prefix log :
  exists dropped, log = dropped ++ purge now window log /\ Forall stale dropped.
Proof.
  induction log as [|t log [dropped [Heq Hall]]].
  - exists []; split; [reflexivity | constructor].
  - simpl. destruct (float_ge (float_sub now t) window) eqn:E.
    + exists (t :: dropped); split.
      * simpl; congruence.
      * constructor; [exact E | assumption].
    + exists []; split; [reflexivity | constructor].
Qed.

(** It stops at the first item for which the test of the loop is false. *)
Lemma purge_head t kept :
  purge now window (t :: kept) = t :: kept <-> fresh t.
Proof.
  split; [| apply purge_cons_fresh].
  simpl. destruct (float_ge (float_sub now t) window) eqn:E.
  - intros H. pose proof (purge_prefix kept) as [dropped [Heq _]].
    rewrite H in Heq. apply (f_equal (@length Q)) in Heq.
    rewrite length_app in Heq. simpl in Heq. lia.
  - intros _. exact E.
Qed.

Lemma purge_idem log :
  purge now window (purge now window log) = purge now window log.
Proof.
  induction log as [|t log IH]; [reflexivity |].
  simpl. destruct (float_ge (float_sub now t) window) eqn:E; [assumption |].
  simpl. now rewrite E.
Qed.

Lemma purge_head_fresh log t kept :
  purge now window log = t :: kept -> fresh t.
Proof.
  intros H. apply (purge_head t kept). rewrite <- H. apply purge_idem.
Qed.

Lemma purge_length log : (length (purge now window log) <= length log)%nat.
Proof.
  destruct (purge_prefix log) as [dropped [Heq _]].
  rewrite Heq at 2. rewrite length_app. lia.
Qed.

Lemma purge_all_stale log : Forall stale log -> purge now window log = [].
Proof.
  induction 1 as [|t log Ht _ IH]; [reflexivity |].
  now rewrite purge_cons_stale.
Qed.

Lemma purge_sublist log : sublist (purge now window log) log.
Proof.
  destruct (purge_prefix log) as [dropped [Heq _]].
  rewrite Heq at 2. apply sublist_inserts_l. reflexivity.
Qed.

Lemma chronological_sublist l1 l2 :
  sublist l1 l2 -> chronological l2 -> chronological l1.
Proof.
  unfold chronological. induction 1 as [|x l1 l2 Hs IH|x l1 l2 Hs IH]; intros Hc.
  - constructor.
  - apply StronglySorted_inv in Hc as [Hc Hx]. constructor; [auto |].
    rewrite Forall_forall in Hx |- *. intros y Hy. apply Hx.
    now apply (sublist_subseteq _ _ Hs).
  - apply StronglySorted_inv in Hc as [Hc _]. auto.
Qed.

(** In a chronological deque no item behind one that stops the loop would
    be removed by the loop, so that the loop leaves no such item at all:
    rounding is monotone. *)
Lemma purge_chronological log :
  chronological log -> Forall fresh (purge now window log).
Proof.
  intros Hc.
  assert (Hk : chronological (purge now window log))
    by (eapply chronological_sublist; [apply purge_sublist | exact Hc]).
  destruct (purge now window log) as [|t kept] eqn:E; [constructor |].
  pose proof (purge_head_fresh _ _ _ E) as Ht.
  apply StronglySorted_inv in Hk as [_ Hk].
  constructor; [exact Ht |].
  eapply Forall_impl; [exact Hk |]. simpl. intros y Hy.
  apply fresh_not_stale. intros Hs. apply fresh_not_stale in Ht. apply Ht.
  now apply (stale_older now window t y).
Qed.

End Purge.

(** ** One call of [check_rate_limit] *)

Lemma nonempty_string (identifier : string) :
  identifier <> EmptyString -> exists a s, identifier = String a s.
Proof. destruct identifier as [|a s]; [congruence | eauto]. Qed.

(** What the method does for an accepted identifier, in terms of the deque
    the purge loop leaves. *)
Lemma check_rate_limit_valid self identifier now :
  identifier <> EmptyString ->
  check_rate_limit self (Some identifier) now =
    let kept := kept_log self identifier now in
    let r := <[identifier := kept]> (requests self) in
    if max_requests self <=? Z.of_nat (length kept) then
      match kept with
      | [] => (set_requests self r, inl (IndexError "deque index out of range"))
      | oldest :: _ =>
          (set_requests self r, refusal (time_window self) now oldest)
      end
    else
      (set_requests self (<[identifier := kept ++ [now]]> (requests self)),
       admitted).
Proof.
  intros Hne. destruct (nonempty_string _ Hne) as (a & s & ->).
  unfold check_rate_limit, getitem, kept_log, log_of.
  destruct (requests self !! String a s) as [log|] eqn:E; simpl;
    rewrite ?insert_insert_eq; reflexivity.
Qed.

Lemma check_rate_limit_admits self identifier now :
  identifier <> EmptyString ->
  Z.of_nat (length (kept_log self identifier now)) < max_requests self ->
  check_rate_limit self (Some identifier) now =
    (set_requests self
       (<[identifier := kept_log self identifier now ++ [now]]> (requests self)),
     admitted).
Proof.
  intros Hne Hlen. rewrite check_rate_limit_valid by assumption. simpl.
  destruct (Z.leb_spec (max_requests self)
              (Z.of_nat (length (kept_log self identifier now)))); [lia | reflexivity].
Qed.

(** A refusal: the purge loop has left a deque at least as long as the
    quota, whose item 0 stopped it. *)
Lemma check_rate_limit_denies self identifier now :
  identifier <> EmptyString ->
  0 < max_requests self ->
  max_requests self <= Z.of_nat (length (kept_log self identifier now)) ->
  exists oldest rest,
    kept_log self identifier now = oldest :: rest /\
    fresh now (time_window self) oldest /\
    check_rate_limit self (Some identifier) now =
      (set_requests self
         (<[identifier := kept_log self identifier now]> (requests self)),
       refusal (time_window self) now oldest).
Proof.
  intros Hne Hpos Hlen. rewrite check_rate_limit_valid by assumption. simpl.
  destruct (Z.leb_spec (max_requests self)
              (Z.of_nat (length (kept_log self identifier now)))); [| lia].
  destruct (kept_log self identifier now) as [|oldest rest] eqn:E;
    [simpl in Hlen; lia |].
  exists oldest, rest.
  assert (Hin : fresh now (time_window self) oldest)
    by (eapply purge_head_fresh; exact E).
  auto.
Qed.

(** The two fields set by [__init__] are never assigned again. *)
Lemma check_rate_limit_config self identifier now :
  max_requests (fst (check_rate_limit self identifier now)) = max_requests self /\
  time_window (fst (check_rate_limit self identifier now)) = time_window self.
Proof.
  destruct identifier as [[|a s]|]; try (split; reflexivity).
  rewrite check_rate_limit_valid by discriminate. simpl.
  destruct (_ <=? _); [destruct (kept_log _ _ _) |]; split; reflexivity.
Qed.

Lemma reset_config self identifier :
  max_requests (reset self identifier) = max_requests self /\
  time_window (reset self identifier) = time_window self.
Proof.
  destruct identifier as [s|]; simpl; [| split; reflexivity].
  destruct (decide _); split; reflexivity.
Qed.

Lemma step_config self o :
  max_requests (step self o) = max_requests self /\
  time_window (step self o) = time_window self.
Proof.
  destruct o; [apply check_rate_limit_config | apply reset_config].
Qed.

(** The deque of an identifier after a call of [check_rate_limit] for it. *)
Lemma check_rate_limit_log self identifier now :
  identifier <> EmptyString ->
  let kept := kept_log self identifier now in
  requests (fst (check_rate_limit self (Some identifier) now)) !! identifier =
    Some (if max_requests self <=? Z.of_nat (length kept)
          then kept else kept ++ [now]).
Proof.
  intros Hne. rewrite check_rate_limit_valid by assumption. simpl.
  destruct (_ <=? _); [destruct (kept_log _ _ _) |]; simpl;
    apply lookup_insert_eq.
Qed.

(** The deques of the other identifiers after it. *)
Lemma check_rate_limit_other self identifier now (other : string) :
  identifier <> Some other ->
  requests (fst (check_rate_limit self identifier now)) !! other =
    requests self !! other.
Proof.
  intros Hne. destruct identifier as [[|a s]|]; try reflexivity.
  rewrite check_rate_limit_valid by discriminate. simpl.
  destruct (_ <=? _); [destruct (kept_log _ _ _) |]; simpl;
    apply lookup_insert_ne; congruence.
Qed.

Lemma reset_log self (identifier : string) :
  requests (reset self (Some identifier)) !! identifier = None.
Proof.
  simpl. destruct (decide _) as [H|H]; simpl.
  - apply lookup_delete_eq.
  - destruct (requests self !! identifier) eqn:E; [| reflexivity].
    exfalso; apply H; eauto.
Qed.

Lemma reset_other self identifier (other : string) :
  identifier <> Some other ->
  requests (reset self identifier) !! other = requests self !! other.
Proof.
  intros Hne. destruct identifier as [s|]; simpl; [| reflexivity].
  destruct (decide _); simpl; [| reflexivity].
  apply lookup_delete_ne; congruence.
Qed.

(** ** Limiters that a program can hold *)

Lemma init_inr m w self :
  init m w = inr self ->
  0 < m /\ (0 < w)%Q /\ self = mkRateLimiter m w ∅.
Proof.
  unfold init. destruct (Z.leb_spec m 0); [discriminate |].
  destruct (Qle_bool w 0) eqn:E; [discriminate |].
  apply Qle_bool_false in E. intros [= <-]. auto.
Qed.

Lemma reachable_config self :
  reachable self -> 0 < max_requests self /\ (0 < time_window self)%Q.
Proof.
  induction 1 as [m w self H|self o _ IH].
  - apply init_inr in H as (? & ? & ->). auto.
  - destruct (step_config self o) as [-> ->]. exact IH.
Qed.

(** No deque is ever bound to the empty string. *)
Lemma reachable_keys self (identifier : string) :
  reachable self -> is_Some (requests self !! identifier) ->
  identifier <> EmptyString.
Proof.
  induction 1 as [m w self H|self o _ IH].
  - apply init_inr in H as (_ & _ & ->). simpl. rewrite lookup_empty.
    intros [? ?]; discriminate.
  - intros Hs ->. apply IH; [| reflexivity].
    destruct o as [i now|i]; simpl in Hs.
    + destruct (decide (i = Some EmptyString)) as [->|Hne]; [exact Hs |].
      rewrite check_rate_limit_other in Hs; assumption.
    + destruct (decide (i = Some EmptyString)) as [->|Hne].
      * rewrite reset_log in Hs. destruct Hs; discriminate.
      * rewrite reset_other in Hs; assumption.
Qed.

(** No deque is ever longer than the quota. *)
Lemma reachable_length self (identifier : string) log :
  reachable self -> requests self !! identifier = Some log ->
  Z.of_nat (length log) <= max_requests self.
Proof.
  intros H; revert identifier log.
  induction H as [m w self H|self o Hr IH]; intros identifier log Hlog.
  - apply init_inr in H as (_ & _ & ->). simpl in Hlog.
    rewrite lookup_empty in Hlog. discriminate.
  - destruct (step_config self o) as [-> _].
    destruct o as [i now|i]; simpl in Hlog.
    + destruct (decide (i = Some identifier)) as [->|Hne].
      * destruct (decide (identifier = EmptyString)) as [->|Hid];
          [now apply IH with EmptyString |].
        rewrite check_rate_limit_log in Hlog by assumption.
        injection Hlog as <-.
        destruct (Z.leb_spec (max_requests self)
                    (Z.of_nat (length (kept_log self identifier now)))) as [Hle|Hlt].
        -- unfold kept_log, log_of.
           destruct (requests self !! identifier) as [old|] eqn:E; simpl.
           ++ pose proof (purge_length now (time_window self) old).
              specialize (IH _ _ E). lia.
           ++ apply reachable_config in Hr. lia.
        -- rewrite length_app; simpl. lia.
      * rewrite check_rate_limit_other in Hlog by assumption. eauto.
    + destruct (decide (i = Some identifier)) as [->|Hne].
      * rewrite reset_log in Hlog. discriminate.
      * rewrite reset_other in Hlog by assumption. eauto.
Qed.

(** ** Consecutive calls for one identifier *)

Lemma check_all_app self identifier times1 times2 :
  check_all self identifier (times1 ++ times2) =
    let '(self1, os1) := check_all self identifier times1 in
    let '(self2, os2) := check_all self1 identifier times2 in
    (self2, os1 ++ os2).
Proof.
  revert self. induction times1 as [|t times1 IH]; intros self; simpl.
  - now destruct (check_all self identifier times2).
  - destruct (check_rate_limit self identifier t) as [self1 o].
    rewrite IH. destruct (check_all self1 identifier times1) as [self2 os1].
    now destruct (check_all self2 identifier times2).
Qed.

Lemma check_all_cons self identifier t times :
  check_all self identifier (t :: times) =
    let '(self1, o) := check_rate_limit self identifier t in
    let '(self2, os) := check_all self1 identifier times in
    (self2, o :: os).
Proof. reflexivity. Qed.

(** While the oldest item [t1] stops the loop nothing is purged, and every
    call finds room as long as the quota is not used up. *)
Lemma check_all_fill times :
  forall self identifier t1 rest,
  identifier <> EmptyString ->
  requests self !! identifier = Some (t1 :: rest) ->
  all_fresh (time_window self) t1 times ->
  Z.of_nat (length (t1 :: rest) + length times) <= max_requests self ->
  check_all self (Some identifier) times =
    (set_requests self (<[identifier := (t1 :: rest) ++ times]> (requests self)),
     repeat admitted (length times)).
Proof.
  induction times as [|t times IH]; intros self identifier t1 rest Hne Hlog Hwin Hlen.
  - simpl. rewrite app_nil_r, insert_id by assumption. now destruct self.
  - apply Forall_cons in Hwin as [Ht Hwin].
    assert (Hkept : kept_log self identifier t = t1 :: rest).
    { unfold kept_log, log_of. rewrite Hlog. simpl.
      now apply purge_cons_fresh. }
    rewrite check_all_cons.
    rewrite check_rate_limit_admits, Hkept by (rewrite ?Hkept; simpl in *; lia || assumption).
    rewrite (IH _ identifier t1 (rest ++ [t])); simpl.
    + rewrite insert_insert_eq, <- app_assoc. reflexivity.
    + assumption.
    + now rewrite lookup_insert_eq.
    + assumption.
    + rewrite length_app; simpl in *. lia.
Qed.

(** From a deque with nothing but items that the loop removes: as many
    admissions as the quota allows, for calls at which the first reading
    stops the loop. *)
Lemma check_all_admits self identifier t1 ts :
  identifier <> EmptyString ->
  Forall (stale t1 (time_window self)) (log_of self identifier) ->
  all_fresh (time_window self) t1 ts ->
  Z.of_nat (length (t1 :: ts)) <= max_requests self ->
  check_all self (Some identifier) (t1 :: ts) =
    (set_requests self (<[identifier := t1 :: ts]> (requests self)),
     repeat admitted (length (t1 :: ts))).
Proof.
  intros Hne Hexp Hwin Hlen.
  assert (Hkept : kept_log self identifier t1 = [])
    by now apply purge_all_stale.
  rewrite check_all_cons.
  rewrite check_rate_limit_admits, Hkept by (rewrite ?Hkept; simpl in *; lia || assumption).
  rewrite (check_all_fill ts _ identifier t1 []); simpl.
  - now rewrite insert_insert_eq.
  - assumption.
  - now rewrite lookup_insert_eq.
  - assumption.
  - simpl in Hlen. lia.
Qed.

(** ** Deques and the readings of the clock *)

Lemma clock_reads_cons o ops :
  clock_reads (o :: ops) =
    match clock_read o with
    | Some t => t :: clock_reads ops
    | None => clock_reads ops
    end.
Proof. reflexivity. Qed.

(** A call leaves in every deque a subsequence of what was there, followed
    by the reading of the call if there was one. *)
Lemma step_sublist self o (identifier : string) log :
  requests (step self o) !! identifier = Some log ->
  log `sublist_of` log_of self identifier ++ option_list (clock_read o).
Proof.
  unfold log_of. destruct o as [i now|i]; simpl step.
  - destruct (decide (i = Some identifier)) as [->|Hne].
    + destruct (decide (identifier = EmptyString)) as [->|Hid].
      * simpl. intros ->. simpl. now rewrite app_nil_r.
      * rewrite check_rate_limit_log by assumption. intros [= <-].
        fold (log_of self identifier).
        destruct (nonempty_string _ Hid) as (a & s & ->). simpl clock_read.
        destruct (_ <=? _).
        -- apply sublist_inserts_r, purge_sublist.
        -- apply sublist_app; [apply purge_sublist | reflexivity].
    + rewrite check_rate_limit_other by assumption. intros ->. simpl.
      now apply sublist_inserts_r.
  - destruct (decide (i = Some identifier)) as [->|Hne].
    + rewrite reset_log. discriminate.
    + rewrite reset_other by assumption. intros ->. simpl.
      now rewrite app_nil_r.
Qed.

Lemma run_sublist ops :
  forall self reads,
  (forall (identifier : string), log_of self identifier `sublist_of` reads) ->
  forall (identifier : string),
    log_of (run self ops) identifier `sublist_of` reads ++ clock_reads ops.
Proof.
  induction ops as [|o ops IH]; intros self reads Hinv identifier.
  - simpl. rewrite app_nil_r. apply Hinv.
  - simpl run. rewrite clock_reads_cons.
    replace (reads ++ match clock_read o with
                      | Some t => t :: clock_reads ops
                      | None => clock_reads ops
                      end)
      with ((reads ++ option_list (clock_read o)) ++ clock_reads ops)
      by (rewrite <- app_assoc; now destruct (clock_read o)).
    apply IH. intros k. unfold log_of at 1.
    destruct (requests (step self o) !! k) as [log|] eqn:E; simpl.
    + etransitivity; [exact (step_sublist _ _ _ _ E) |].
      apply sublist_app; [apply Hinv | reflexivity].
    + apply sublist_nil_l.
Qed.

(** When the clock never ran backwards, every deque is chronological. *)
Lemma run_chronological m w self0 ops (identifier : string) :
  init m w = inr self0 ->
  chronological (clock_reads ops) ->
  chronological (log_of (run self0 ops) identifier).
Proof.
  intros Hinit Hc. apply init_inr in Hinit as (_ & _ & ->).
  eapply chronological_sublist; [| exact Hc].
  apply (run_sublist ops _ []). intros k. unfold log_of; simpl.
  rewrite lookup_empty. reflexivity.
Qed.

Lemma run_reachable m w self0 ops :
  init m w = inr self0 -> reachable (run self0 ops).
Proof.
  intros Hinit. apply reachable_init in Hinit. revert self0 Hinit.
  induction ops as [|o ops IH]; intros self0 Hr; simpl; [assumption |].
  apply IH. now constructor.
Qed.

(** ** Several threads: counting, the invariant, progress and termination *)

(** How a count changes when thread [i] goes from [p] to [q]. *)
Lemma count_insert (f : pc -> bool) (l : list pc) i p q :
  l !! i = Some p ->
  (count f (<[i := q]> l) + (if f p then 1 else 0) =
   count f l + (if f q then 1 else 0))%nat.
Proof.
  revert i. induction l as [|x l IH]; intros [|i] H; try discriminate.
  - injection H as ->. simpl. lia.
  - simpl in *. specialize (IH i H). lia.
Qed.

Lemma count_le (f g : pc -> bool) (l : list pc) :
  (forall p, f p = true -> g p = true) -> (count f l <= count g l)%nat.
Proof.
  intros Hfg. induction l as [|x l IH]; simpl; [lia |].
  destruct (f x) eqn:E; [rewrite (Hfg _ E) |]; destruct (g x); lia.
Qed.

Lemma count_repeat (f : pc -> bool) p n :
  count f (repeat p n) = if f p then n else 0%nat.
Proof.
  induction n as [|n IH]; simpl; [now destruct (f p) |].
  rewrite IH. now destruct (f p).
Qed.

Lemma count_pos_true (f : pc -> bool) (l : list pc) :
  (0 < count f l)%nat -> exists i p, l !! i = Some p /\ f p = true.
Proof.
  induction l as [|x l IH]; simpl; [lia |].
  destruct (f x) eqn:E.
  - intros _. exists 0%nat, x. auto.
  - intros H. destruct IH as (i & p & Hi & Hp); [lia |].
    exists (S i), p. auto.
Qed.

Lemma count_pos_false (f : pc -> bool) (l : list pc) :
  forallb f l = false -> exists i p, l !! i = Some p /\ f p = false.
Proof.
  induction l as [|x l IH]; simpl; [discriminate |].
  destruct (f x) eqn:E; simpl.
  - intros H. destruct (IH H) as (i & p & Hi & Hp). exists (S i), p. auto.
  - intros _. exists 0%nat, x. auto.
Qed.

Lemma total_weight_insert (l : list pc) i p q :
  l !! i = Some p ->
  (total_weight (<[i := q]> l) + weight p = total_weight l + weight q)%nat.
Proof.
  revert i. induction l as [|x l IH]; intros [|i] H; try discriminate.
  - injection H as ->. simpl. lia.
  - simpl in *. specialize (IH i H). lia.
Qed.

Lemma total_weight_repeat p n : total_weight (repeat p n) = (weight p * n)%nat.
Proof. induction n as [|n IH]; simpl; lia. Qed.

(** The threads that have all returned without an exception got either an
    admission or a refusal. *)
Lemma count_returned (l : list pc) :
  forallb returned l = true -> count raised l = 0%nat ->
  count holds_admission l = count (returned_with true) l /\
  count holds_refusal l = count (returned_with false) l /\
  (count (returned_with true) l + count (returned_with false) l)%nat = length l.
Proof.
  induction l as [|x l IH]; simpl; [auto |].
  destruct x as [| | | | | |[e|[[] r]]]; simpl; try discriminate;
    intros Hall Hr; destruct (IH Hall ltac:(lia)) as (? & ? & ?);
    repeat split; lia.
Qed.

(** [self.requests[identifier]] evaluates to the deque of the identifier
    and leaves it bound. *)
Lemma getitem_log identifier r :
  (getitem identifier r).2 = default [] (r !! identifier) /\
  (getitem identifier r).1 !! identifier = Some (default [] (r !! identifier)).
Proof.
  unfold getitem. destruct (r !! identifier) as [log|] eqn:E; simpl.
  - auto.
  - split; [reflexivity | apply lookup_insert_eq].
Qed.

Lemma log_of_getitem self identifier r log :
  getitem identifier (requests self) = (r, log) ->
  log = log_of self identifier /\ log_of (set_requests self r) identifier = log.
Proof.
  intros G. destruct (getitem_log identifier (requests self)) as [H1 H2].
  rewrite G in H1, H2. simpl in *. unfold log_of. simpl.
  rewrite H2. simpl. split; congruence.
Qed.

Lemma log_of_insert self identifier r log :
  log_of (set_requests self (<[identifier := log]> r)) identifier = log.
Proof. unfold log_of. simpl. now rewrite lookup_insert_eq. Qed.

Section OneWindow.
Variable identifier : string.
Variable window : Q.
Variable N : Z.
Variable clock : Q -> Prop.
Hypothesis identifier_valid : identifier <> EmptyString.
Hypothesis quota_positive : 0 < N.
Hypothesis clock_close : forall t t', clock t -> clock t' -> fresh t window t'.
Hypothesis window_range : in_range window.

Local Abbreviation inv := (inv identifier window N clock).

Ltac count_all Hi q :=
  pose proof (count_insert critical _ _ _ q Hi);
  pose proof (count_insert appending _ _ _ q Hi);
  pose proof (count_insert holds_admission _ _ _ q Hi);
  pose proof (count_insert holds_refusal _ _ _ q Hi);
  pose proof (count_insert raised _ _ _ q Hi);
  match type of Hi with
  | ?l !! _ = _ =>
      pose proof (count_le appending critical l
                    ltac:(intros []; simpl; congruence))
  end;
  simpl in *.

(** Every step of every thread keeps the invariant.  The lock is what
    makes the step from [Appending] safe: the thread that appends is the
    only one inside the block, so that the deque is still as short as it
    was when the thread compared it with the quota. *)
Lemma world_step_inv w e w' :
  inv w -> (reads_clock identifier w e.2 = true -> clock e.1) ->
  world_step identifier w e = Some w' -> inv w'.
Proof.
  intros [Hmax Hwin Hmutex Hlog Hpc Hadm Happ Href Hraised Hbound] Hclock.
  destruct w as [self lock l], e as [t i]. unfold world_step, reads_clock in *.
  simpl in *.
  destruct (l !! i) as [p|] eqn:Hi; [| discriminate].
  assert (Hp : forall t, reading p = Some t -> clock t).
  { rewrite Forall_forall in Hpc. apply Hpc.
    eapply list_elem_of_lookup_2; eauto. }
  destruct (thread_step identifier self lock p t) as [[[self' lock'] p']|] eqn:T;
    [| discriminate].
  intros [= <-]. simpl.
  destruct p as [|now|now|now|now|out|out]; simpl in T.
  - (* Called *)
    destruct (nonempty_string _ identifier_valid) as (a & s & Hid).
    rewrite Hid in T, Hclock. injection T as <- <- <-. count_all Hi (Waiting t).
    split; cbn [limiter locked pcs]; trivial; try lia.
    apply Forall_insert; [assumption |]. simpl. intros ? [= <-]. now apply Hclock.
  - (* Waiting *)
    destruct lock; [discriminate |].
    injection T as <- <- <-. count_all Hi (Purging now).
    split; cbn [limiter locked pcs]; trivial; try lia.
    apply Forall_insert; [assumption |]. exact Hp.
  - (* Purging *)
    destruct (getitem identifier (requests self)) as [r log] eqn:G.
    destruct (log_of_getitem _ _ _ _ G) as [Hl Hl'].
    assert (Hstay : match log with
                    | [] => True
                    | oldest :: _ =>
                        float_ge (float_sub now oldest) (time_window self) = false
                    end).
    { destruct log as [|oldest rest]; [exact I |].
      rewrite Hwin. apply clock_close.
      - now apply Hp.
      - rewrite <- Hl in Hlog. now apply Forall_cons in Hlog as [? _]. }
    assert (T' : Some (set_requests self r, lock, Deciding now) =
                 Some (self', lock', p')).
    { destruct log as [|oldest rest]; [assumption |]. now rewrite Hstay in T. }
    injection T' as <- <- <-. count_all Hi (Deciding now).
    split; cbn [limiter locked pcs]; rewrite ?Hl', ?Hl; trivial; try lia.
    apply Forall_insert; [assumption |]. exact Hp.
  - (* Deciding *)
    destruct (getitem identifier (requests self)) as [r log] eqn:G.
    destruct (log_of_getitem _ _ _ _ G) as [Hl Hl']. rewrite Hmax in T.
    destruct (Z.leb_spec N (Z.of_nat (length log))) as [Hle|Hlt].
    + destruct log as [|oldest rest]; [simpl in Hle; lia |].
      assert (Hold : clock oldest)
        by (rewrite <- Hl in Hlog; now apply Forall_cons in Hlog as [? _]).
      destruct (refusal_one_window window now oldest) as [k Hk]; auto.
      rewrite Hwin, Hk in T.
      injection T as <- <- <-. rewrite Hl in Hle.
      count_all Hi (Leaving (inr (false, k))).
      split; cbn [limiter locked pcs]; rewrite ?Hl', ?Hl; trivial; try lia.
      apply Forall_insert; [assumption |]. discriminate.
    + injection T as <- <- <-. rewrite Hl in Hlt. count_all Hi (Appending now).
      split; cbn [limiter locked pcs]; rewrite ?Hl', ?Hl; trivial; try lia.
      apply Forall_insert; [assumption |]. exact Hp.
  - (* Appending *)
    destruct (getitem identifier (requests self)) as [r log] eqn:G.
    destruct (log_of_getitem _ _ _ _ G) as [Hl _].
    injection T as <- <- <-. count_all Hi (Leaving (inr (true, 0))).
    assert (Hlock : lock = true) by (destruct lock; [reflexivity | lia]).
    subst lock.
    split; cbn [limiter locked pcs];
      rewrite ?log_of_insert, ?length_app, ?Hl; simpl; trivial; try lia.
    + apply Forall_app; split; [assumption |].
      constructor; [now apply Hp | constructor].
    + apply Forall_insert; [assumption |]. discriminate.
  - (* Leaving *)
    injection T as <- <- <-. count_all Hi (Returned out).
    assert (Hlock : lock = true) by (destruct lock; [reflexivity | lia]).
    subst lock.
    destruct out as [e|[[] r]]; simpl in *;
      (split; cbn [limiter locked pcs]; trivial; try lia;
       apply Forall_insert; [assumption | discriminate]).
  - (* Returned *)
    discriminate.
Qed.

Lemma run_schedule_inv sched :
  forall w w',
  inv w -> Forall clock (clock_readings identifier w sched) ->
  run_schedule identifier w sched = Some w' -> inv w'.
Proof.
  induction sched as [|e sched IH]; intros w w' Hinv Hclock; simpl in *.
  - now intros [= <-].
  - destruct (world_step identifier w e) as [w1|] eqn:E; [| discriminate].
    apply Forall_app in Hclock as [He Hclock].
    apply IH; [| assumption]. apply (world_step_inv w e); trivial.
    intros Hr. rewrite Hr in He. now apply Forall_cons in He as [? _].
Qed.

(** As long as a thread has not returned, some thread can run, whatever
    the clock shows. *)
Lemma inv_progress w :
  inv w -> forallb returned (pcs w) = false ->
  exists i, forall t, is_Some (world_step identifier w (t, i)).
Proof.
  intros Hinv Hnot.
  assert (Hcrit : forall i p, pcs w !! i = Some p -> critical p = true ->
            forall t, is_Some (world_step identifier w (t, i))).
  { intros i p Hi Hc t. unfold world_step. simpl. rewrite Hi.
    destruct p; try discriminate; simpl;
      try destruct (getitem identifier (requests (limiter w))) as [r [|oldest rest]];
      repeat match goal with |- context [if ?b then _ else _] => destruct b end;
      eauto. }
  destruct (count_pos_false _ _ Hnot) as (i & p & Hi & Hp).
  destruct (critical p) eqn:Hc; [exists i; eauto |].
  destruct (locked w) eqn:Hlock.
  - pose proof (inv_mutex _ _ _ _ _ Hinv) as Hm. rewrite Hlock in Hm.
    destruct (count_pos_true critical (pcs w)) as (j & q & Hj & Hq); [lia |].
    exists j. eauto.
  - exists i. intros t. unfold world_step. simpl. rewrite Hi, Hlock.
    destruct p; try discriminate; simpl; eauto.
    destruct identifier; eauto.
Qed.

End OneWindow.

(** Every step uses up some of the weight of the threads or an item of the
    deque, so that no run goes on for ever. *)
Lemma world_step_measure identifier w e w' :
  world_step identifier w e = Some w' ->
  (total_weight (pcs w') + length (log_of (limiter w') identifier) <
   total_weight (pcs w) + length (log_of (limiter w) identifier))%nat.
Proof.
  destruct w as [self lock l], e as [t i]. unfold world_step. simpl.
  destruct (l !! i) as [p|] eqn:Hi; [| discriminate].
  destruct (thread_step identifier self lock p t) as [[[self' lock'] p']|] eqn:T;
    [| discriminate].
  intros [= <-]. simpl.
  pose proof (total_weight_insert l i p p' Hi) as Hw.
  destruct p as [|now|now|now|now|out|out]; simpl in T.
  - destruct identifier; injection T as <- <- <-; simpl in *; lia.
  - destruct lock; [discriminate |]. injection T as <- <- <-. simpl in *. lia.
  - destruct (getitem identifier (requests self)) as [r log] eqn:G.
    destruct (log_of_getitem _ _ _ _ G) as [Hl Hl'].
    destruct log as [|oldest rest].
    + injection T as <- <- <-. rewrite Hl', <- Hl. simpl in *. lia.
    + destruct (float_ge _ _); injection T as <- <- <-.
      * rewrite log_of_insert, <- Hl. simpl in *. lia.
      * rewrite Hl', <- Hl. simpl in *. lia.
  - destruct (getitem identifier (requests self)) as [r log] eqn:G.
    destruct (log_of_getitem _ _ _ _ G) as [Hl Hl'].
    destruct (_ <=? _); [destruct log |]; injection T as <- <- <-;
      rewrite Hl', <- Hl; simpl in *; lia.
  - destruct (getitem identifier (requests self)) as [r log] eqn:G.
    destruct (log_of_getitem _ _ _ _ G) as [Hl Hl'].
    injection T as <- <- <-. rewrite log_of_insert, <- Hl, length_app.
    simpl in *. lia.
  - injection T as <- <- <-. simpl in *. lia.
  - discriminate.
Qed.

Lemma run_schedule_measure identifier sched :
  forall w w',
  run_schedule identifier w sched = Some w' ->
  (length sched + (total_weight (pcs w') + length (log_of (limiter w') identifier)) <=
   total_weight (pcs w) + length (log_of (limiter w) identifier))%nat.
Proof.
  induction sched as [|e sched IH]; intros w w'; simpl.
  - intros [= <-]. lia.
  - destruct (world_step identifier w e) as [w1|] eqn:E; [| discriminate].
    intros H. apply IH in H. apply world_step_measure in E. lia.
Qed.

Lemma run_schedule_length identifier sched :
  forall w w',
  run_schedule identifier w sched = Some w' -> length (pcs w') = length (pcs w).
Proof.
  induction sched as [|e sched IH]; intros w w'; simpl.
  - now intros [= <-].
  - unfold world_step.
    destruct (pcs w !! e.2) as [p|]; [| discriminate].
    destruct (thread_step _ _ _ _ _) as [[[self' lock'] p']|]; [| discriminate].
    intros H. apply IH in H. simpl in H. now rewrite length_insert in H.
Qed.

(** The invariant holds when the threads have just called the method for
    an identifier without recorded requests. *)
Lemma start_inv self identifier callers clock :
  0 < max_requests self ->
  log_of self identifier = [] ->
  inv identifier (time_window self) (max_requests self) clock (start self callers).
Proof.
  intros Hpos Hlog. unfold start.
  split; simpl; rewrite ?Hlog, ?count_repeat; simpl; trivial; try lia.
  apply Forall_forall. intros p Hp%list_elem_of_In%repeat_spec. now subst p.
Qed.

Lemma one_windowb_spec window readings :
  one_windowb window readings = true -> one_window window readings.
Proof.
  unfold one_windowb, one_window. rewrite forallb_forall.
  intros H t t' Ht Ht'. apply list_elem_of_In in Ht, Ht'.
  specialize (H t Ht). rewrite forallb_forall in H. specialize (H t' Ht').
  apply negb_true_iff in H. exact H.
Qed.

(** ** A thread that is not interrupted runs the sequential method *)

Lemma getitem_eq identifier r :
  getitem identifier r =
    (<[identifier := default [] (r !! identifier)]> r,
     default [] (r !! identifier)).
Proof.
  unfold getitem. destruct (r !! identifier) as [log|] eqn:E; simpl.
  - now rewrite insert_id.
  - reflexivity.
Qed.

Lemma run_schedule_app identifier sched1 sched2 :
  forall w,
  run_schedule identifier w (sched1 ++ sched2) =
    match run_schedule identifier w sched1 with
    | Some w' => run_schedule identifier w' sched2
    | None => None
    end.
Proof.
  induction sched1 as [|e sched1 IH]; intros w; simpl; [reflexivity |].
  destruct (world_step identifier w e); [apply IH | reflexivity].
Qed.

(** A step of thread [i] in a world with other threads. *)
Lemma run_schedule_alone identifier self lock l i p c sched :
  (i < length l)%nat ->
  run_schedule identifier
    {| limiter := self; locked := lock; pcs := <[i := p]> l |}
    ((c, i) :: sched) =
  match thread_step identifier self lock p c with
  | Some (self', lock', p') =>
      run_schedule identifier
        {| limiter := self'; locked := lock'; pcs := <[i := p']> l |} sched
  | None => None
  end.
Proof.
  intros Hi. simpl. unfold world_step. simpl.
  rewrite list_lookup_insert_eq by assumption.
  destruct (thread_step identifier self lock p c) as [[[? ?] ?]|]; [| reflexivity].
  now rewrite list_insert_insert_eq.
Qed.

(** The steps of the loop, taken one after the other, compute [purge]. *)
Lemma purging_alone identifier l i t c log :
  (i < length l)%nat ->
  forall self,
  log_of self identifier = log ->
  exists n,
    run_schedule identifier
      {| limiter := self; locked := true; pcs := <[i := Purging t]> l |}
      (repeat (c, i) n) =
    Some {| limiter :=
              set_requests self
                (<[identifier := purge t (time_window self) log]> (requests self));
            locked := true;
            pcs := <[i := Deciding t]> l |}.
Proof.
  intros Hi. induction log as [|oldest rest IH]; intros self Hlog.
  - exists 1%nat. cbn [repeat]. rewrite run_schedule_alone by assumption.
    cbn [thread_step]. rewrite getitem_eq. fold (log_of self identifier).
    rewrite Hlog. reflexivity.
  - destruct (float_ge (float_sub t oldest) (time_window self)) eqn:E.
    + destruct (IH (set_requests self (<[identifier := rest]> (requests self))))
        as [n Hn]; [apply log_of_insert |].
      exists (S n). cbn [repeat]. rewrite run_schedule_alone by assumption.
      cbn [thread_step]. rewrite getitem_eq. fold (log_of self identifier).
      rewrite Hlog, E, insert_insert_eq, Hn. cbn [purge requests set_requests time_window].
      now rewrite E, insert_insert_eq.
    + exists 1%nat. cbn [repeat]. rewrite run_schedule_alone by assumption.
      cbn [thread_step]. rewrite getitem_eq. fold (log_of self identifier).
      rewrite Hlog. cbn [purge]. rewrite E. reflexivity.
Qed.

(** A thread that reads the clock at [t] and then runs to its [return]
    with no step of another thread in between leaves the limiter that
    [check_rate_limit] leaves at the reading [t], and returns its outcome;
    the other threads are where they were. *)
Lemma call_alone self identifier l i t c :
  identifier <> EmptyString ->
  (i < length l)%nat ->
  exists n,
    run_schedule identifier
      {| limiter := self; locked := false; pcs := <[i := Called]> l |}
      ((t, i) :: repeat (c, i) n) =
    Some {| limiter := fst (check_rate_limit self (Some identifier) t);
            locked := false;
            pcs := <[i := Returned (snd (check_rate_limit self (Some identifier) t))]> l |}.
Proof.
  intros Hne Hi.
  destruct (purging_alone identifier l i t c _ Hi self eq_refl) as [n Hn].
  fold (kept_log self identifier t) in Hn.
  set (kept := kept_log self identifier t) in *.
  assert (Henter : forall sched,
            run_schedule identifier
              {| limiter := self; locked := false; pcs := <[i := Called]> l |}
              ((t, i) :: (c, i) :: sched) =
            run_schedule identifier
              {| limiter := self; locked := true; pcs := <[i := Purging t]> l |}
              sched).
  { intros sched. rewrite run_schedule_alone by assumption.
    destruct (nonempty_string _ Hne) as (a & s & Hid).
    rewrite Hid at 1. cbn [thread_step].
    now rewrite run_schedule_alone by assumption. }
  assert (Hk : getitem identifier (<[identifier := kept]> (requests self)) =
               (<[identifier := kept]> (requests self), kept)).
  { rewrite getitem_eq, lookup_insert_eq. simpl. now rewrite insert_insert_eq. }
  rewrite check_rate_limit_valid by assumption.
  cbv zeta. fold kept.
  destruct (max_requests self <=? Z.of_nat (length kept)) eqn:Hfull.
  - exists (1 + (n + 2))%nat.
    change (repeat (c, i) (1 + (n + 2))) with ((c, i) :: repeat (c, i) (n + 2)).
    rewrite Henter, repeat_app, run_schedule_app, Hn.
    change (repeat (c, i) 2) with [(c, i); (c, i)].
    rewrite run_schedule_alone by assumption.
    cbn [thread_step requests set_requests max_requests time_window].
    rewrite Hk, Hfull.
    destruct kept; rewrite run_schedule_alone by assumption; reflexivity.
  - exists (1 + (n + 3))%nat.
    change (repeat (c, i) (1 + (n + 3))) with ((c, i) :: repeat (c, i) (n + 3)).
    rewrite Henter, repeat_app, run_schedule_app, Hn.
    change (repeat (c, i) 3) with [(c, i); (c, i); (c, i)].
    rewrite run_schedule_alone by assumption.
    cbn [thread_step requests set_requests max_requests time_window].
    rewrite Hk, Hfull.
    rewrite run_schedule_alone by assumption.
    cbn [thread_step requests set_requests max_requests time_window].
    rewrite Hk.
    rewrite run_schedule_alone by assumption.
    cbn [thread_step run_schedule fst snd].
    now rewrite insert_insert_eq.
Qed.


(** ** Calls that find room whatever the clock shows *)

Lemma kept_log_length self identifier now :
  (length (kept_log self identifier now) <= length (log_of self identifier))%nat.
Proof. apply purge_length. Qed.

(** As long as the deque with the calls still to come is not longer than
    the quota, every call is admitted: the loop can only shorten the
    deque. *)
Lemma check_all_room times :
  forall self identifier,
  identifier <> EmptyString ->
  Z.of_nat (length (log_of self identifier) + length times) <= max_requests self ->
  snd (check_all self (Some identifier) times) = repeat admitted (length times).
Proof.
  induction times as [|t times IH]; intros self identifier Hne Hlen; [reflexivity |].
  pose proof (kept_log_length self identifier t) as Hk.
  rewrite check_all_cons, check_rate_limit_admits by (simpl in Hlen; trivial; lia).
  set (self1 := set_requests self _).
  specialize (IH self1 identifier Hne).
  destruct (check_all self1 (Some identifier) times) as [self2 os]. simpl in *.
  rewrite IH; [reflexivity |].
  unfold self1. rewrite log_of_insert, length_app. simpl. lia.
Qed.
(** * Part III: the claims *)

Ltac in_range_auto := unfold in_range; split; vm_compute; discriminate.

(** ** C1: the quota is granted, then refused *)

(** The readings [2 ^ -60] and 10.0 are less than ten seconds apart, but
    line 59 rounds their difference to 10.0: on [RateLimiter(1, 10)] the
    second call drops the request of the first and is admitted. *)
Example rounded_up_to_window :
  init 1 10 = inr lim1 /\
  in_window 10 (time_window lim1) tiny /\
  stale 10 (time_window lim1) tiny /\
  snd (check_all lim1 (Some u1) [tiny; 10%Q]) = [admitted; admitted].
Proof. repeat split; vm_compute; reflexivity. Qed.

(** On [RateLimiter(1, 10 ** 400)] the second call raises: line 66 cannot
    convert the window to a float. *)
Example huge_window_raises :
  init 1 (inject_Z (10 ^ 400)) = inr lim_huge /\
  check_all lim_huge (Some u1) [0%Q; 1%Q] =
    (lim_huge_zero,
     [admitted; inl (OverflowError "int too large to convert to float")]).
Proof. split; vm_compute; reflexivity. Qed.

(** C1, as stated, fails: it is not true that whenever the readings of
    [N + 1] calls are less than a window after the first, by their exact
    difference, the last call is refused. *)
Lemma quota_outlived_by_rounding :
  ~ (forall self identifier t1 ts tlast,
       identifier <> EmptyString ->
       Forall (expired t1 (time_window self)) (log_of self identifier) ->
       Z.of_nat (length (t1 :: ts)) = max_requests self ->
       within_window (time_window self) t1 (ts ++ [tlast]) ->
       exists r,
         snd (check_all self (Some identifier) (t1 :: ts ++ [tlast])) =
           repeat admitted (length (t1 :: ts)) ++ [inr (false, r)] /\
         0 < r).
Proof.
  intros H.
  assert (Hne : u1 <> EmptyString) by discriminate.
  assert (Hexp : Forall (expired tiny (time_window lim1)) (log_of lim1 u1))
    by constructor.
  assert (Hwin : within_window (time_window lim1) tiny ([] ++ [10%Q])).
  { repeat constructor. }
  destruct (H lim1 u1 tiny [] 10%Q Hne Hexp eq_refl Hwin) as (r & Hr & _).
  destruct rounded_up_to_window as (_ & _ & _ & Hcode).
  change ([] ++ [10%Q]) with [10%Q] in Hr. rewrite Hcode in Hr.
  cbn [repeat length app] in Hr. injection Hr as Hr. discriminate Hr.
Qed.

(** C1, amended.  For a limiter with quota [N] and window [W], a non-empty
    identifier all of whose recorded requests the loop removes at the first
    reading [t1], and [N + 1] consecutive calls at whose readings [t] the
    test of line 59 is false for [t1] (the double [t - t1] is below [W]):
    the first [N] calls return [(True, 0)] and the last one returns
    [(False, r)] with [r > 0], the window and the first and last readings
    being within range. *)
Theorem quota_then_refusal self identifier t1 ts tlast :
  identifier <> EmptyString ->
  Forall (stale t1 (time_window self)) (log_of self identifier) ->
  Z.of_nat (length (t1 :: ts)) = max_requests self ->
  all_fresh (time_window self) t1 (ts ++ [tlast]) ->
  in_range (time_window self) -> in_range t1 -> in_range tlast ->
  exists r,
    snd (check_all self (Some identifier) (t1 :: ts ++ [tlast])) =
      repeat admitted (length (t1 :: ts)) ++ [inr (false, r)] /\
    0 < r.
Proof.
  intros Hne Hexp Hlen Hwin Hw Hr1 Hrl.
  apply Forall_app in Hwin as [Hwin Hlast].
  apply Forall_cons in Hlast as [Hlast _].
  change (t1 :: ts ++ [tlast]) with ((t1 :: ts) ++ [tlast]).
  rewrite check_all_app, check_all_admits by (trivial; lia).
  set (full := set_requests self (<[identifier := t1 :: ts]> (requests self))).
  assert (Hkept : kept_log full identifier tlast = t1 :: ts).
  { unfold kept_log, log_of, full. simpl. rewrite lookup_insert_eq. simpl.
    now apply purge_cons_fresh. }
  destruct (check_rate_limit_denies full identifier tlast)
    as (oldest & rest & Hk & Hin & Hcheck).
  - assumption.
  - subst full; simpl in *; lia.
  - rewrite Hkept. subst full; simpl in *; lia.
  - rewrite Hkept in Hk. injection Hk as <- <-.
    destruct (refusal_in_range (time_window self) tlast t1 Hw Hrl Hr1 Hlast)
      as (w & d & y & _ & _ & _ & _ & Href & Hpos).
    rewrite check_all_cons, Hcheck. cbn [time_window full set_requests].
    rewrite Href. simpl. eexists; split; [reflexivity | exact Hpos].
Qed.

Lemma quota_then_refusal_witness :
  exists r,
    snd (check_all lim3 (Some u1) [0%Q; 1%Q; 2%Q; 3%Q]) =
      [admitted; admitted; admitted; inr (false, r)] /\ 0 < r.
Proof.
  apply (quota_then_refusal lim3 u1 0%Q [1%Q; 2%Q] 3%Q).
  - discriminate.
  - constructor.
  - reflexivity.
  - repeat constructor.
  - in_range_auto.
  - in_range_auto.
  - in_range_auto.
Defined.

(** The example of the specification: quota 3, window 10 s, calls at 0, 1,
    2, 3 and 11 for ["u1"]. *)
Example spec_example :
  snd (check_all lim3 (Some u1) [0%Q; 1%Q; 2%Q; 3%Q; 11%Q]) =
    [admitted; admitted; admitted; inr (false, 8); admitted].
Proof. vm_compute. reflexivity. Qed.

(** ** C2: a refusal *)

(** On [RateLimiter(1, 10)] with a request at 0.0, the call at [2 ^ -60]
    returns [(False, 11)]: line 66 rounds [10 - 2 ** -60] to 10.0.  The
    floor of the exact difference is 9. *)
Example rounded_retry_after :
  kept_log lim1_zero u1 tiny = [0%Q] /\
  snd (check_rate_limit lim1_zero (Some u1) tiny) = inr (false, 11) /\
  Qfloor (time_window lim1_zero - (tiny - 0)) + 1 = 10.
Proof. repeat split; vm_compute; reflexivity. Qed.

(** C2, as stated, fails: the number returned is not always
    [floor (window - (now - oldest)) + 1]. *)
Lemma retry_after_not_exact :
  ~ (forall self identifier now,
       identifier <> EmptyString ->
       0 < max_requests self ->
       max_requests self <= Z.of_nat (length (kept_log self identifier now)) ->
       exists oldest r,
         head (kept_log self identifier now) = Some oldest /\
         r = Qfloor (time_window self - (now - oldest)) + 1 /\
         snd (check_rate_limit self (Some identifier) now) = inr (false, r) /\
         0 < r /\
         requests (fst (check_rate_limit self (Some identifier) now)) !! identifier =
           Some (kept_log self identifier now)).
Proof.
  intros H.
  assert (Hne : u1 <> EmptyString) by discriminate.
  destruct rounded_retry_after as (Hk & Hcode & Hfloor).
  assert (Hfull : max_requests lim1_zero <=
                  Z.of_nat (length (kept_log lim1_zero u1 tiny)))
    by (rewrite Hk; vm_compute; discriminate).
  destruct (H lim1_zero u1 tiny Hne eq_refl Hfull)
    as (oldest & r & Hhead & Hr & Hout & _).
  rewrite Hk in Hhead. injection Hhead as <-.
  rewrite Hfloor in Hr. rewrite Hcode in Hout. congruence.
Qed.

(** C2, amended.  When a call for a non-empty identifier finds, after the
    purge, a deque at least as long as the quota, the identifier's deque is
    left as the purged one, with nothing appended, and the call returns
    what lines 66 and 67 compute for the oldest item left: nothing but an
    [OverflowError] is raised; a number returned is positive; with the
    window, the reading and the item within range, the call returns
    [(False, r)] where [r] is [floor y + 1] for the double [y] nearest to
    [w - d], [w] being the window as a double and [d] the double nearest to
    [now - oldest]; and where these three are exact, [r] is
    [floor (window - (now - oldest)) + 1]. *)
Theorem refusal_retry_after self identifier now :
  identifier <> EmptyString ->
  0 < max_requests self ->
  max_requests self <= Z.of_nat (length (kept_log self identifier now)) ->
  exists oldest,
    head (kept_log self identifier now) = Some oldest /\
    snd (check_rate_limit self (Some identifier) now) =
      refusal (time_window self) now oldest /\
    requests (fst (check_rate_limit self (Some identifier) now)) !! identifier =
      Some (kept_log self identifier now) /\
    (forall e, refusal (time_window self) now oldest = inl e ->
       exists msg, e = OverflowError msg) /\
    (forall allowed r,
       refusal (time_window self) now oldest = inr (allowed, r) ->
       allowed = false /\ 0 < r) /\
    (in_range (time_window self) -> in_range now -> in_range oldest ->
     exists w d y,
       round (time_window self) = Finite w /\
       round (now - oldest) = Finite d /\
       round (w - d) = Finite y /\
       refusal (time_window self) now oldest = inr (false, Qfloor y + 1) /\
       0 < Qfloor y + 1) /\
    (is_double (time_window self) -> is_double (now - oldest) ->
     is_double (time_window self - (now - oldest)) ->
     refusal (time_window self) now oldest =
       inr (false, Qfloor (time_window self - (now - oldest)) + 1)).
Proof.
  intros Hne Hpos Hlen.
  destruct (check_rate_limit_denies self identifier now Hne Hpos Hlen)
    as (oldest & rest & Hk & Hin & Hcheck).
  exists oldest. rewrite Hcheck, Hk. cbn [fst snd head requests set_requests].
  split; [reflexivity |]. split; [reflexivity |].
  split; [apply lookup_insert_eq |].
  split; [apply refusal_raises |].
  split; [| split].
  - intros allowed r H.
    assert (Ha : allowed = false)
      by (unfold refusal in H; destruct (retry_after _ _ _); congruence).
    subst allowed. split; [reflexivity |]. exact (refusal_positive _ _ _ r Hin H).
  - intros Hw Hn Ho.
    destruct (refusal_in_range _ _ _ Hw Hn Ho Hin)
      as (w & d & y & E1 & E2 & E3 & _ & E4 & E5).
    exists w, d, y. auto.
  - intros (w & Ew & Hw) (d & Ed & Hd) (y & Ey & Hy).
    assert (Hwd : (w - d == time_window self - (now - oldest))%Q)
      by (rewrite Hw, Hd; reflexivity).
    destruct (round_comp _ _ _ (Qeq_sym _ _ Hwd) Ey) as (y' & Ey' & Hy').
    unfold refusal. rewrite (retry_after_finite _ _ _ _ _ _ Ew Ed Ey').
    assert (H0 : (0 <= y')%Q).
    { destruct (fresh_below _ _ _ _ Ew Hin) as [HN|(d' & Ed' & Hlt & _)];
        [congruence |].
      rewrite Ed in Ed'. injection Ed' as <-. lra. }
    rewrite py_int_floor by assumption.
    do 3 f_equal. apply Qfloor_comp. lra.
Qed.

Lemma refusal_retry_after_witness :
  exists oldest,
    head (kept_log lim3_full u1 3) = Some oldest /\
    snd (check_rate_limit lim3_full (Some u1) 3) =
      refusal (time_window lim3_full) 3 oldest /\
    refusal (time_window lim3_full) 3 oldest = inr (false, 8).
Proof.
  assert (Hne : u1 <> EmptyString) by discriminate.
  assert (Hfull : max_requests lim3_full <=
                  Z.of_nat (length (kept_log lim3_full u1 3)))
    by (vm_compute; discriminate).
  destruct (refusal_retry_after lim3_full u1 3 Hne eq_refl Hfull)
    as (oldest & Hhead & Hout & _).
  exists oldest. split; [exact Hhead |]. split; [exact Hout |].
  injection Hhead as <-. vm_compute. reflexivity.
Defined.

(** ** C3: the purge *)

(** The calls of [clock_set_back] on [RateLimiter(3, 10)] are both admitted
    and leave the deque [100, 5]; a call at the reading 20 stops the purge
    at the item 100 and decides on a deque that still holds the item 5,
    which is 15 s old. *)
Example clock_set_back_kept :
  init 3 10 = inr lim3 /\
  kept_log (run lim3 clock_set_back) u1 20 = [100%Q; 5%Q] /\
  expired 20 (time_window (run lim3 clock_set_back)) 5.
Proof. repeat split; vm_compute; reflexivity || discriminate. Qed.

(** The same happens while the clock never runs backwards, when two threads
    call the method: in the run [racing] the second caller appends its
    reading 1 before the first caller appends its reading 0, and a later
    call at 10.5 decides on a deque that holds the item 0. *)
Example racing_out_of_order :
  chronological (racing.*1) /\
  run_schedule u1 (start lim3 2) racing = Some racing_end /\
  kept_log (limiter racing_end) u1 (21 # 2) = [1%Q; 0%Q] /\
  expired (21 # 2) (time_window (limiter racing_end)) 0.
Proof.
  split; [| repeat split; vm_compute; reflexivity || discriminate].
  unfold chronological. vm_compute. repeat constructor; discriminate.
Qed.

(** And line 59 compares a rounded difference: on [RateLimiter(1, 10)] the
    call at 10.0 removes the request made at [2 ^ -60], which is less than
    ten seconds old. *)
Example purge_rounds_up :
  log_of lim1_tiny u1 = [tiny] /\
  kept_log lim1_tiny u1 10 = [] /\
  in_window 10 (time_window lim1_tiny) tiny.
Proof. repeat split; vm_compute; reflexivity. Qed.

(** C3, as stated, fails: it is not true that in every limiter a program
    can hold, the deque on which a call for a non-empty identifier decides
    has only items inside the window. *)
Lemma purge_leaves_stale_item :
  ~ (forall self identifier now,
       reachable self -> identifier <> EmptyString ->
       Forall (in_window now (time_window self)) (kept_log self identifier now)).
Proof.
  intros H.
  specialize (H (run lim3 clock_set_back) u1 20%Q
                (run_reachable 3 10 lim3 clock_set_back eq_refl)).
  assert (Hne : u1 <> EmptyString) by discriminate.
  specialize (H Hne).
  destruct clock_set_back_kept as (_ & Hk & Hexp). rewrite Hk in H.
  apply Forall_cons in H as [_ H]. apply Forall_cons in H as [H _].
  unfold in_window, expired in *. lra.
Qed.

(** C3, amended.  A call for a non-empty identifier removes from the front
    of the identifier's deque the items [t] for which the test of line 59,
    [now - t >= window] with the difference rounded to a double, is true,
    and stops at the first item for which it is false; the deque so
    obtained is the one the decision is taken on and, with [now] appended
    on admission, the one left behind.  When the deque is in chronological
    order, the test is false for every item then left, and, the window
    being a double, every item then left satisfies [now - t < window]; and
    the deque is in chronological order whenever the readings of the clock
    in the calls made since [__init__] never decreased. *)
Theorem purge_trims_expired_prefix self identifier now :
  identifier <> EmptyString ->
  let log := log_of self identifier in
  let kept := kept_log self identifier now in
  (exists dropped,
     log = dropped ++ kept /\
     Forall (stale now (time_window self)) dropped /\
     forall t rest, kept = t :: rest -> fresh now (time_window self) t) /\
  requests (fst (check_rate_limit self (Some identifier) now)) !! identifier =
    Some (if max_requests self <=? Z.of_nat (length kept)
          then kept else kept ++ [now]) /\
  (chronological log -> Forall (fresh now (time_window self)) kept) /\
  (chronological log -> is_double (time_window self) ->
   Forall (in_window now (time_window self)) kept) /\
  (forall m w self0 ops,
     init m w = inr self0 -> self = run self0 ops ->
     chronological (clock_reads ops) -> chronological log).
Proof.
  intros Hne log kept. repeat split.
  - destruct (purge_prefix now (time_window self) log) as (dropped & Heq & Hall).
    exists dropped. repeat split; trivial.
    intros t rest Hk. eapply purge_head_fresh. exact Hk.
  - now apply check_rate_limit_log.
  - apply purge_chronological.
  - intros Hc Hd. eapply Forall_impl; [now apply purge_chronological |].
    intros t. now apply fresh_in_window.
  - intros m w self0 ops Hinit -> Hc. now apply (run_chronological m w).
Qed.

Lemma purge_trims_expired_prefix_witness :
  kept_log lim3_full u1 11 = [2%Q] /\
  Forall (in_window 11 (time_window lim3_full)) (kept_log lim3_full u1 11).
Proof.
  split; [vm_compute; reflexivity |].
  assert (Hne : u1 <> EmptyString) by discriminate.
  destruct (purge_trims_expired_prefix lim3_full u1 11 Hne) as (_ & _ & _ & H & _).
  apply H.
  - unfold chronological. vm_compute. repeat constructor; discriminate.
  - apply (is_double_int 10). lia.
Defined.

(** ** C4: expired requests free the quota *)

(** The calls of [clock_set_back] on [RateLimiter(2, 10)] use up the quota
    and leave the deque [100, 5].  Fifteen seconds after the second one, at
    the reading 20, the request made at 5 still counts: the call is
    refused. *)
Example clock_set_back_refused :
  init 2 10 = inr lim2 /\
  log_of (run lim2 clock_set_back) u1 = [100%Q; 5%Q] /\
  expired 20 (time_window (run lim2 clock_set_back)) 5 /\
  kept_log (run lim2 clock_set_back) u1 20 = [100%Q; 5%Q] /\
  snd (check_rate_limit (run lim2 clock_set_back) (Some u1) 20) = inr (false, 91).
Proof. repeat split; vm_compute; reflexivity || discriminate. Qed.

(** C4, as stated, fails: it is not true that a recorded request that is at
    least a window old is never in the deque the call decides on. *)
Lemma expired_request_still_counts :
  ~ (forall self (identifier : string) now t0,
       reachable self ->
       t0 ∈ log_of self identifier ->
       expired now (time_window self) t0 ->
       t0 ∉ kept_log self identifier now).
Proof.
  intros H.
  destruct clock_set_back_refused as (_ & Hlog & Hexp & Hk & _).
  apply (H (run lim2 clock_set_back) u1 20%Q 5%Q).
  - exact (run_reachable 2 10 lim2 clock_set_back eq_refl).
  - rewrite Hlog. apply elem_of_cons. right. apply elem_of_cons. now left.
  - exact Hexp.
  - rewrite Hk. apply elem_of_cons. right. apply elem_of_cons. now left.
Qed.

(** C4, amended.  In a limiter that a program can hold, with the deque of
    an identifier in chronological order, a recorded request [t0] for
    which the test of line 59 is true at [now] (the double [now - t0] is
    at least the window) is not in the deque the call at [now] decides on.
    When that test is true for every recorded request, as it is, the
    window being a double, when [now - t0 >= window] for every one of
    them, the call at [now] returns [(True, 0)], however many requests are
    recorded, and leaves [now] as the only item of the deque. *)
Theorem admitted_after_window self (identifier : string) log now :
  reachable self ->
  requests self !! identifier = Some log ->
  (chronological log ->
   forall t0, t0 ∈ log -> stale now (time_window self) t0 ->
   t0 ∉ kept_log self identifier now) /\
  (Forall (stale now (time_window self)) log ->
   check_rate_limit self (Some identifier) now =
     (set_requests self (<[identifier := [now]]> (requests self)), inr (true, 0))) /\
  (is_double (time_window self) ->
   Forall (expired now (time_window self)) log ->
   check_rate_limit self (Some identifier) now =
     (set_requests self (<[identifier := [now]]> (requests self)), inr (true, 0))).
Proof.
  intros Hr Hlog.
  assert (Hne : identifier <> EmptyString)
    by (apply (reachable_keys self); [assumption | now rewrite Hlog]).
  assert (Hof : log_of self identifier = log)
    by (unfold log_of; now rewrite Hlog).
  assert (Hadm : Forall (stale now (time_window self)) log ->
            check_rate_limit self (Some identifier) now =
              (set_requests self (<[identifier := [now]]> (requests self)),
               inr (true, 0))).
  { intros Hexp.
    assert (Hkept : kept_log self identifier now = []).
    { unfold kept_log. rewrite Hof. now apply purge_all_stale. }
    rewrite check_rate_limit_admits, Hkept; trivial.
    rewrite Hkept. simpl. apply reachable_config in Hr. lia. }
  split; [| split; [exact Hadm |]].
  - intros Hc t0 _ Hs Hin.
    pose proof (purge_chronological now (time_window self) log Hc) as Hall.
    unfold kept_log in Hin. rewrite Hof in Hin.
    rewrite Forall_forall in Hall. apply Hall in Hin.
    now apply fresh_not_stale in Hin.
  - intros Hd Hexp. apply Hadm. eapply Forall_impl; [exact Hexp |].
    intros t0. now apply expired_stale.
Qed.

Lemma lim3_full_reachable : reachable lim3_full.
Proof.
  change lim3_full
    with (run lim3 [Check (Some u1) 0; Check (Some u1) 1; Check (Some u1) 2]).
  now apply (run_reachable 3 10).
Qed.

(** The quota of ["u1"] is used up at the reading 3; at 12, more than ten
    seconds after the last admission, the next call is admitted. *)
Lemma admitted_after_window_witness :
  snd (check_rate_limit lim3_full (Some u1) 3) = inr (false, 8) /\
  check_rate_limit lim3_full (Some u1) 12 =
    (set_requests lim3_full (<[u1 := [12%Q]]> (requests lim3_full)),
     inr (true, 0)).
Proof.
  split; [vm_compute; reflexivity |].
  assert (Hlog : requests lim3_full !! u1 = Some [0%Q; 1%Q; 2%Q])
    by (vm_compute; reflexivity).
  destruct (admitted_after_window lim3_full u1 [0%Q; 1%Q; 2%Q] 12
              lim3_full_reachable Hlog) as (_ & _ & H).
  apply H.
  - apply (is_double_int 10). lia.
  - repeat constructor; vm_compute; discriminate.
Defined.

(** ** C5: no deque outgrows the quota *)

(** C5.  In every limiter reached from [__init__] by calls of
    [check_rate_limit] and [reset], every deque has at most [max_requests]
    items; and a further call leaves each deque as it was, or purged (a
    refused call for its identifier, the purged deque being full), or purged
    with the reading appended (an admitted call for its identifier, the
    purged deque being shorter than the quota), or unbound (a [reset] of its
    identifier). *)
Theorem log_length_bounded self :
  reachable self ->
  (forall (identifier : string) log,
     requests self !! identifier = Some log ->
     Z.of_nat (length log) <= max_requests self) /\
  (forall o (identifier : string),
     requests (step self o) !! identifier = requests self !! identifier \/
     (exists now,
        o = Check (Some identifier) now /\
        max_requests self <= Z.of_nat (length (kept_log self identifier now)) /\
        requests (step self o) !! identifier =
          Some (kept_log self identifier now)) \/
     (exists now,
        o = Check (Some identifier) now /\
        Z.of_nat (length (kept_log self identifier now)) < max_requests self /\
        requests (step self o) !! identifier =
          Some (kept_log self identifier now ++ [now])) \/
     (o = Reset (Some identifier) /\
      requests (step self o) !! identifier = None)).
Proof.
  intros Hr. split.
  - intros identifier log. now apply reachable_length.
  - intros o identifier.
    destruct (decide (op_identifier o = Some identifier)) as [Ho|Ho].
    + destruct o as [i now|i]; simpl in Ho; subst i.
      * destruct (decide (identifier = EmptyString)) as [->|Hne];
          [left; reflexivity |].
        right.
        pose proof (check_rate_limit_log self identifier now Hne) as Hlog.
        simpl in Hlog.
        destruct (Z.leb_spec (max_requests self)
                    (Z.of_nat (length (kept_log self identifier now)))).
        -- left. exists now. auto.
        -- right; left. exists now. auto.
      * right; right; right. split; [reflexivity | apply reset_log].
    + left. destruct o as [i now|i]; simpl in *.
      * now apply check_rate_limit_other.
      * now apply reset_other.
Qed.

Lemma log_length_bounded_witness :
  requests lim3_full !! u1 = Some [0%Q; 1%Q; 2%Q] /\
  Z.of_nat (length [0%Q; 1%Q; 2%Q]) <= max_requests lim3_full.
Proof.
  split; [reflexivity |].
  apply (proj1 (log_length_bounded lim3_full lim3_full_reachable) u1).
  reflexivity.
Defined.

(** ** C6: construction *)

(** C6.  [RateLimiter(max_requests, time_window)] raises [ValueError] when
    [max_requests <= 0] or [time_window <= 0], and otherwise returns a
    limiter with the two arguments as its configuration and no deque. *)
Theorem init_validates m w :
  (m <= 0 \/ (w <= 0)%Q -> exists msg, init m w = inl (ValueError msg)) /\
  (0 < m /\ (0 < w)%Q ->
   init m w = inr {| max_requests := m; time_window := w; requests := ∅ |}).
Proof.
  unfold init. destruct (Z.leb_spec m 0) as [Hm|Hm].
  - split; [eauto | lia].
  - destruct (Qle_bool w 0) eqn:Hw.
    + apply Qle_bool_true in Hw. split; [eauto | intros [_ ?]; lra].
    + apply Qle_bool_false in Hw. split; [intros [?|?]; [lia | lra] | reflexivity].
Qed.

Lemma init_validates_witness :
  (exists msg, init 0 10 = inl (ValueError msg)) /\
  (exists msg, init 3 0 = inl (ValueError msg)) /\
  init 3 10 = inr lim3.
Proof.
  split; [| split].
  - apply (init_validates 0 10). left. lia.
  - apply (init_validates 3 0). right. discriminate.
  - apply (init_validates 3 10). split; reflexivity.
Defined.

(** ** C7: the identifier is validated *)

(** On [RateLimiter(1, 10 ** 400)], a limiter that [__init__] accepts, the
    call that finds the quota used up raises [OverflowError]. *)
Example quota_exhaustion_raises :
  reachable lim_huge_zero /\
  max_requests lim_huge_zero <= Z.of_nat (length (kept_log lim_huge_zero u1 1)) /\
  snd (check_rate_limit lim_huge_zero (Some u1) 1) =
    inl (OverflowError "int too large to convert to float").
Proof.
  split; [| split; vm_compute; reflexivity || discriminate].
  change lim_huge_zero with (run lim_huge [Check (Some u1) 0]).
  now apply (run_reachable 1 (inject_Z (10 ^ 400))).
Qed.

(** C7, as stated, fails: it is not true that a limiter a program can hold
    never raises for a non-empty identifier. *)
Lemma exhaustion_raised_not_returned :
  ~ (forall self identifier now,
       reachable self -> identifier <> EmptyString ->
       exists allowed retry_after,
         snd (check_rate_limit self (Some identifier) now) =
           inr (allowed, retry_after)).
Proof.
  intros H.
  destruct quota_exhaustion_raises as (Hr & _ & Hcode).
  assert (Hne : u1 <> EmptyString) by discriminate.
  destruct (H lim_huge_zero u1 1%Q Hr Hne) as (allowed & r & Hout).
  rewrite Hcode in Hout. discriminate Hout.
Qed.

(** C7, amended.  A call of [check_rate_limit] with [None] or the empty
    string raises [ValueError] and leaves the limiter as it was.  For a
    non-empty identifier, a limiter that a program can hold raises neither
    [ValueError] nor [IndexError]: the call raises [OverflowError], and
    only when the purged deque is full, or it returns a pair, whose boolean
    is [False] exactly when the purged deque is full; and with the window,
    the reading and the recorded requests within range it returns a
    pair. *)
Theorem empty_identifier_rejected self now :
  (exists msg,
     check_rate_limit self None now = (self, inl (ValueError msg)) /\
     check_rate_limit self (Some EmptyString) now = (self, inl (ValueError msg))) /\
  (forall identifier,
     reachable self -> identifier <> EmptyString ->
     (forall e,
        snd (check_rate_limit self (Some identifier) now) = inl e ->
        (exists msg, e = OverflowError msg) /\
        max_requests self <= Z.of_nat (length (kept_log self identifier now))) /\
     (forall allowed retry_after,
        snd (check_rate_limit self (Some identifier) now) =
          inr (allowed, retry_after) ->
        (allowed = false <->
         max_requests self <= Z.of_nat (length (kept_log self identifier now)))) /\
     (in_range (time_window self) -> in_range now ->
      Forall in_range (log_of self identifier) ->
      exists allowed retry_after,
        snd (check_rate_limit self (Some identifier) now) =
          inr (allowed, retry_after))).
Proof.
  split; [eexists; split; reflexivity |].
  intros identifier Hr Hne.
  destruct (Z.le_gt_cases (max_requests self)
              (Z.of_nat (length (kept_log self identifier now)))) as [Hle|Hlt].
  - apply reachable_config in Hr as [Hpos _].
    destruct (check_rate_limit_denies self identifier now Hne Hpos Hle)
      as (oldest & rest & Hk & Hin & ->).
    cbn [snd]. split; [| split].
    + intros e He. split; [now apply (refusal_raises _ _ _ _ He) | exact Hle].
    + intros allowed r Hout.
      assert (allowed = false)
        by (unfold refusal in Hout; destruct (retry_after _ _ _); congruence).
      tauto.
    + intros Hw Hn Hlog.
      assert (Ho : in_range oldest).
      { rewrite Forall_forall in Hlog. apply Hlog.
        apply (sublist_subseteq _ _ (purge_sublist now (time_window self) _)).
        fold (kept_log self identifier now). rewrite Hk.
        apply elem_of_cons. now left. }
      destruct (refusal_in_range _ _ _ Hw Hn Ho Hin)
        as (w & d & y & _ & _ & _ & _ & Href & _).
      rewrite Href. eauto.
  - rewrite check_rate_limit_admits by assumption. cbn [snd].
    split; [| split].
    + discriminate.
    + intros allowed r [= <- <-]. split; [discriminate | lia].
    + eauto.
Qed.

Lemma empty_identifier_rejected_witness :
  exists allowed retry_after,
    snd (check_rate_limit lim3_full (Some u1) 3) = inr (allowed, retry_after).
Proof.
  assert (Hne : u1 <> EmptyString) by discriminate.
  destruct (proj2 (empty_identifier_rejected lim3_full 3) u1
              lim3_full_reachable Hne) as (_ & _ & H).
  apply H.
  - in_range_auto.
  - in_range_auto.
  - assert (Hlog : log_of lim3_full u1 = [0%Q; 1%Q; 2%Q])
      by (vm_compute; reflexivity).
    rewrite Hlog. repeat constructor; vm_compute; discriminate.
Defined.

(** ** C8: reset *)

(** C8, as stated, fails for the empty string, which [reset] accepts and
    [check_rate_limit] rejects: after [reset("")] on [RateLimiter(3, 10)]
    the three calls for [""], all at the reading 0, raise [ValueError]. *)
Lemma reset_empty_identifier_not_admitted :
  ~ (forall self (identifier : string) t1 ts,
       reachable self ->
       Z.of_nat (length (t1 :: ts)) = max_requests self ->
       within_window (time_window self) t1 ts ->
       snd (check_all (reset self (Some identifier)) (Some identifier) (t1 :: ts)) =
         repeat admitted (length (t1 :: ts))).
Proof.
  intros H.
  assert (Hwin : within_window (time_window lim3) 0 [0%Q; 0%Q])
    by (repeat constructor).
  specialize (H lim3 EmptyString 0%Q [0%Q; 0%Q]
                (reachable_init 3 10 lim3 eq_refl) eq_refl Hwin).
  vm_compute in H. discriminate.
Qed.

(** C8, amended.  [reset] raises nothing.  It unbinds the deque of its
    identifier and leaves the other deques and the configuration as they
    were; when the identifier has no deque the limiter is unchanged.  For a
    non-empty identifier, the calls of [check_rate_limit] that follow a
    [reset] of the identifier, as many as the quota and each less than a
    window after the first, are all admitted, whatever the limiter held
    before. *)
Theorem reset_forgets self (identifier : string) :
  requests (reset self (Some identifier)) !! identifier = None /\
  (forall other : string,
     other <> identifier ->
     requests (reset self (Some identifier)) !! other = requests self !! other) /\
  max_requests (reset self (Some identifier)) = max_requests self /\
  time_window (reset self (Some identifier)) = time_window self /\
  (requests self !! identifier = None -> reset self (Some identifier) = self) /\
  reset self None = self /\
  (forall t1 ts,
     identifier <> EmptyString ->
     Z.of_nat (length (t1 :: ts)) = max_requests self ->
     within_window (time_window self) t1 ts ->
     snd (check_all (reset self (Some identifier)) (Some identifier) (t1 :: ts)) =
       repeat admitted (length (t1 :: ts))).
Proof.
  destruct (reset_config self (Some identifier)) as [Hm Hw].
  repeat split; trivial.
  - apply reset_log.
  - intros other Hne. apply reset_other. congruence.
  - intros Hnone. simpl. destruct (decide _) as [[log Hs]|_]; [congruence | reflexivity].
  - intros t1 ts Hne Hlen _.
    apply (check_all_room (t1 :: ts)); [assumption |].
    unfold log_of. rewrite reset_log, Hm. simpl in *. lia.
Qed.

(** [lim3_full] has used up the quota of ["u1"]; after [reset] three more
    calls are admitted. *)
Lemma reset_forgets_witness :
  snd (check_rate_limit lim3_full (Some u1) 3) = inr (false, 8) /\
  snd (check_all (reset lim3_full (Some u1)) (Some u1) [3%Q; 4%Q; 5%Q]) =
    [admitted; admitted; admitted].
Proof.
  split; [vm_compute; reflexivity |].
  apply (reset_forgets lim3_full u1).
  - discriminate.
  - reflexivity.
  - repeat constructor.
Defined.

(** ** C9: identifiers do not interfere *)

(** What a call of [check_rate_limit] returns, and the deque it leaves for
    its identifier, depend on the configuration and on that deque only. *)
Lemma check_rate_limit_local self1 self2 identifier now :
  max_requests self1 = max_requests self2 ->
  time_window self1 = time_window self2 ->
  (forall s, identifier = Some s -> requests self1 !! s = requests self2 !! s) ->
  snd (check_rate_limit self1 identifier now) =
    snd (check_rate_limit self2 identifier now) /\
  (forall s, identifier = Some s ->
     requests (fst (check_rate_limit self1 identifier now)) !! s =
       requests (fst (check_rate_limit self2 identifier now)) !! s).
Proof.
  intros Hm Hw Hlog. destruct identifier as [[|a s]|].
  - split; [reflexivity |]. intros s [= <-]. now apply Hlog.
  - assert (Hne : String a s <> EmptyString) by discriminate.
    assert (Hk : kept_log self1 (String a s) now = kept_log self2 (String a s) now).
    { unfold kept_log, log_of. now rewrite Hw, (Hlog _ eq_refl). }
    split.
    + rewrite !check_rate_limit_valid by assumption. simpl.
      rewrite Hk, Hm, Hw.
      destruct (_ <=? _); [destruct (kept_log self2 _ _) |]; reflexivity.
    + intros ? [= <-]. rewrite !check_rate_limit_log by assumption. simpl.
      now rewrite Hk, Hm.
  - split; [reflexivity |]. discriminate.
Qed.

(** C9.  A call of [check_rate_limit] or [reset] for an identifier leaves
    the deque of every other identifier as it was, and a later call of
    [check_rate_limit] for the other identifier returns, or raises, what it
    would have without that call, and leaves the same deque for it. *)
Theorem other_identifier_untouched self o (b : option string) :
  op_identifier o <> b ->
  (forall s, b = Some s -> requests (step self o) !! s = requests self !! s) /\
  (forall now,
     snd (check_rate_limit (step self o) b now) =
       snd (check_rate_limit self b now) /\
     forall s, b = Some s ->
       requests (fst (check_rate_limit (step self o) b now)) !! s =
         requests (fst (check_rate_limit self b now)) !! s).
Proof.
  intros Hne.
  assert (Hframe : forall s, b = Some s ->
            requests (step self o) !! s = requests self !! s).
  { intros s ->. destruct o as [i t|i]; simpl in *.
    - now apply check_rate_limit_other.
    - now apply reset_other. }
  split; [exact Hframe |].
  intros now. destruct (step_config self o) as [Hm Hw].
  now apply check_rate_limit_local.
Qed.

Lemma other_identifier_untouched_witness :
  requests (step lim3_full (Reset (Some u1))) !! "u2"%string =
    requests lim3_full !! "u2"%string /\
  snd (check_rate_limit (step lim3_full (Check (Some "u2"%string) 3)) (Some u1) 3) =
    snd (check_rate_limit lim3_full (Some u1) 3).
Proof.
  assert (H1 : op_identifier (Reset (Some u1)) <> Some "u2"%string)
    by discriminate.
  assert (H2 : op_identifier (Check (Some "u2"%string) 3) <> Some u1)
    by discriminate.
  split.
  - exact (proj1 (other_identifier_untouched lim3_full _ _ H1) _ eq_refl).
  - exact (proj1 (proj2 (other_identifier_untouched lim3_full _ _ H2) 3%Q)).
Defined.

(** ** C10: concurrent callers *)

(** The run [rounded_callers] of two callers on [RateLimiter(1, 10)]: the
    readings [2 ^ -60] and 10.0 are less than ten seconds apart, and both
    callers are admitted. *)
Example rounded_callers_admitted :
  clock_readings u1 (start lim1 2) rounded_callers = [tiny; 10%Q] /\
  run_schedule u1 (start lim1 2) rounded_callers = Some rounded_callers_end /\
  forallb returned (pcs rounded_callers_end) = true /\
  count (returned_with true) (pcs rounded_callers_end) = 2%nat.
Proof. repeat split; vm_compute; reflexivity. Qed.

(** C10, as stated, fails: it is not true that of more callers than the
    quota, with readings of the clock less than a window apart, exactly as
    many as the quota are admitted. *)
Lemma callers_admitted_past_quota :
  ~ (forall self identifier callers sched w,
       identifier <> EmptyString ->
       0 < max_requests self ->
       log_of self identifier = [] ->
       max_requests self < Z.of_nat callers ->
       one_exact_window (time_window self)
         (clock_readings identifier (start self callers) sched) ->
       run_schedule identifier (start self callers) sched = Some w ->
       forallb returned (pcs w) = true ->
       Z.of_nat (count (returned_with true) (pcs w)) = max_requests self).
Proof.
  intros H.
  destruct rounded_callers_admitted as (Hread & Hrun & Hall & Hcount).
  assert (Hne : u1 <> EmptyString) by discriminate.
  assert (Hwin : one_exact_window (time_window lim1)
                   (clock_readings u1 (start lim1 2) rounded_callers)).
  { rewrite Hread. intros t t' Ht Ht'.
    rewrite !elem_of_cons, elem_of_nil in Ht, Ht'.
    destruct Ht as [->|[->|[]]], Ht' as [->|[->|[]]]; vm_compute; reflexivity. }
  specialize (H lim1 u1 2%nat rounded_callers rounded_callers_end
                Hne eq_refl eq_refl eq_refl Hwin Hrun Hall).
  rewrite Hcount in H. vm_compute in H. discriminate H.
Qed.

(** C10, amended.  [callers] threads, more than the quota [N], call
    [check_rate_limit] for one non-empty identifier that has no recorded
    request; the scheduler interleaves their steps in any way, and what the
    callers read from the clock lies inside one window as line 59 tests
    it: for no two readings is the rounded difference as large as the
    window, which is within range.  Then at most one thread at a time is
    inside [with self.lock]; the run has at most [7 * callers] steps; at no
    point have more than [N] threads been admitted; as long as a thread has
    not returned some thread can make a step; and when all have returned,
    exactly [N] of them got [True] and the other [callers - N] got
    [False]. *)
Theorem concurrent_callers_admit_quota self identifier callers sched w :
  identifier <> EmptyString ->
  0 < max_requests self ->
  log_of self identifier = [] ->
  max_requests self < Z.of_nat callers ->
  in_range (time_window self) ->
  one_window (time_window self)
    (clock_readings identifier (start self callers) sched) ->
  run_schedule identifier (start self callers) sched = Some w ->
  (count critical (pcs w) <= 1)%nat /\
  (length sched <= 7 * callers)%nat /\
  Z.of_nat (count holds_admission (pcs w)) <= max_requests self /\
  (forallb returned (pcs w) = false ->
   exists i, forall t, is_Some (world_step identifier w (t, i))) /\
  (forallb returned (pcs w) = true ->
   Z.of_nat (count (returned_with true) (pcs w)) = max_requests self /\
   Z.of_nat (count (returned_with false) (pcs w)) =
     Z.of_nat callers - max_requests self).
Proof.
  intros Hne Hpos Hlog Hmore Hrange Hwin Hrun.
  set (clock := fun t : Q =>
                  t ∈ clock_readings identifier (start self callers) sched).
  assert (Hinv : inv identifier (time_window self) (max_requests self) clock w).
  { apply (run_schedule_inv identifier (time_window self) (max_requests self)
             clock Hne Hpos Hwin Hrange sched (start self callers) w).
    - now apply start_inv.
    - now apply Forall_forall.
    - exact Hrun. }
  pose proof (run_schedule_measure _ _ _ _ Hrun) as Hsteps.
  pose proof (run_schedule_length _ _ _ _ Hrun) as Hlen.
  simpl in Hsteps, Hlen. rewrite total_weight_repeat, Hlog in Hsteps.
  rewrite repeat_length in Hlen. simpl in Hsteps.
  pose proof Hinv as [_ _ Hmutex _ _ Hadm _ Href Hraised Hbound].
  split; [rewrite Hmutex; destruct (locked w); lia |].
  split; [lia |].
  split; [rewrite <- Hadm; exact Hbound |].
  split.
  - now apply (inv_progress identifier (time_window self) (max_requests self) clock).
  - intros Hall.
    destruct (count_returned _ Hall Hraised) as (Ha & Hr & Hsum).
    rewrite Ha in Hadm. rewrite Hr in Href. rewrite Hadm in Href, Hbound.
    destruct (count (returned_with false) (pcs w)) as [|k] eqn:Hk; lia.
Qed.

Lemma concurrent_callers_admit_quota_witness :
  run_schedule u1 (start lim1 2) two_callers = Some two_callers_end /\
  Z.of_nat (count (returned_with true) (pcs two_callers_end)) = max_requests lim1 /\
  Z.of_nat (count (returned_with false) (pcs two_callers_end)) =
    2 - max_requests lim1.
Proof.
  assert (Hrun : run_schedule u1 (start lim1 2) two_callers = Some two_callers_end)
    by (vm_compute; reflexivity).
  split; [exact Hrun |].
  assert (Hne : u1 <> EmptyString) by discriminate.
  assert (Hrange : in_range (time_window lim1)) by in_range_auto.
  assert (Hwin : one_window (time_window lim1)
                   (clock_readings u1 (start lim1 2) two_callers))
    by (apply one_windowb_spec; vm_compute; reflexivity).
  destruct (concurrent_callers_admit_quota lim1 u1 2 two_callers two_callers_end
              Hne eq_refl eq_refl eq_refl Hrange Hwin Hrun) as (_ & _ & _ & _ & H).
  apply H. reflexivity.
Defined.
(** * Part IV: further properties of the class *)

(** ** Records are equal when their fields are *)

Lemma limiter_eq (a b : RateLimiter) :
  max_requests a = max_requests b ->
  time_window a = time_window b ->
  (forall k : string, requests a !! k = requests b !! k) ->
  a = b.
Proof.
  destruct a as [ma wa ra], b as [mb wb rb]. simpl. intros -> -> H.
  f_equal. now apply map_eq.
Qed.

Lemma step_other self o (k : string) :
  op_identifier o <> Some k ->
  requests (step self o) !! k = requests self !! k.
Proof.
  intros Hne. destruct o as [i t|i]; simpl in *.
  - now apply check_rate_limit_other.
  - now apply reset_other.
Qed.

(** The deque a call leaves for a key depends on the configuration and on
    the deque of that key only. *)
Lemma step_local self1 self2 o (k : string) :
  max_requests self1 = max_requests self2 ->
  time_window self1 = time_window self2 ->
  requests self1 !! k = requests self2 !! k ->
  requests (step self1 o) !! k = requests (step self2 o) !! k.
Proof.
  intros Hm Hw Hk.
  destruct (decide (op_identifier o = Some k)) as [Ho|Ho].
  - destruct o as [i t|i]; simpl in Ho; subst i; cbn [step].
    + apply (check_rate_limit_local self1 self2 (Some k) t Hm Hw); [| reflexivity].
      now intros s [= <-].
    + now rewrite !reset_log.
  - now rewrite !step_other.
Qed.

(** ** Deques are never empty, and never bound to the empty string *)

(** X1.  In a limiter reached from [__init__] by calls of the two methods,
    a deque is bound to non-empty identifiers only and holds at least one
    item: the [while] loop can empty a deque, but only in a call that then
    appends to it. *)
Theorem bound_deque_nonempty self (identifier : string) log :
  reachable self ->
  requests self !! identifier = Some log ->
  identifier <> EmptyString /\ log <> [].
Proof.
  intros Hr Hlog. split.
  { apply (reachable_keys self); [assumption | now rewrite Hlog]. }
  revert identifier log Hlog.
  induction Hr as [m w self H|self o Hr IH]; intros identifier log Hlog.
  - apply init_inr in H as (_ & _ & ->). simpl in Hlog.
    rewrite lookup_empty in Hlog. discriminate.
  - destruct (decide (op_identifier o = Some identifier)) as [Ho|Ho].
    + destruct o as [i now|i]; simpl in Ho; subst i; cbn [step] in Hlog.
      * destruct (decide (identifier = EmptyString)) as [->|Hne];
          [now apply (IH EmptyString) |].
        rewrite check_rate_limit_log in Hlog by assumption.
        injection Hlog as <-.
        destruct (Z.leb_spec (max_requests self)
                    (Z.of_nat (length (kept_log self identifier now)))) as [Hle|_].
        -- apply reachable_config in Hr as [Hpos _].
           destruct (kept_log self identifier now); [simpl in Hle; lia | discriminate].
        -- destruct (kept_log self identifier now); discriminate.
      * rewrite reset_log in Hlog. discriminate.
    + rewrite step_other in Hlog by assumption. eauto.
Qed.

Lemma bound_deque_nonempty_witness :
  u1 <> EmptyString /\ [0%Q; 1%Q; 2%Q] <> [].
Proof.
  apply (bound_deque_nonempty lim3_full u1 [0%Q; 1%Q; 2%Q]).
  - exact lim3_full_reachable.
  - reflexivity.
Defined.

(** ** Which identifiers have a deque *)

Lemma step_dom self o :
  dom (requests (step self o)) =
    match o with
    | Check _ _ =>
        match checked_identifier o with
        | Some k => {[k]} ∪ dom (requests self)
        | None => dom (requests self)
        end
    | Reset (Some k) => dom (requests self) ∖ {[k]}
    | Reset None => dom (requests self)
    end.
Proof.
  destruct o as [[[|a s]|] t|[k|]]; try reflexivity.
  - cbn [step checked_identifier].
    rewrite check_rate_limit_valid by discriminate. simpl.
    destruct (_ <=? _); [destruct (kept_log _ _ _) |]; simpl; apply dom_insert_L.
  - simpl. destruct (decide _) as [Hs|Hs]; simpl.
    + apply dom_delete_L.
    + symmetry. apply difference_disjoint_L, disjoint_singleton_r.
      now rewrite elem_of_dom.
Qed.

Lemma checked_cons o ops :
  checked (o :: ops) =
    match checked_identifier o with
    | Some k => {[k]} ∪ checked ops
    | None => checked ops
    end.
Proof. unfold checked. simpl. now destruct (checked_identifier o). Qed.

(** X2.  In a run without [reset] the identifiers that have a deque at the
    end are those that had one at the start and those that
    [check_rate_limit] accepted in the run: a deque, once bound, stays
    bound, whether its requests are expired or not. *)
Theorem tracked_identifiers_grow self ops :
  existsb is_reset ops = false ->
  dom (requests (run self ops)) = dom (requests self) ∪ checked ops.
Proof.
  revert self. induction ops as [|o ops IH]; intros self Hno.
  - unfold checked. simpl. now rewrite (right_id_L ∅ (∪)).
  - simpl in Hno. apply orb_false_elim in Hno as [Ho Hno].
    change (run self (o :: ops)) with (run (step self o) ops).
    rewrite (IH _ Hno), step_dom, checked_cons.
    destruct o as [i t|i]; [| discriminate].
    destruct (checked_identifier (Check i t)) as [k|]; [| reflexivity].
    now rewrite (comm_L (∪) {[k]}), (assoc_L (∪)).
Qed.

Lemma tracked_identifiers_grow_witness :
  dom (requests (run lim3_full [Check (Some "u2"%string) 50; Check None 51;
                                Check (Some u1) 52])) =
    dom (requests lim3_full)
      ∪ checked [Check (Some "u2"%string) 50; Check None 51; Check (Some u1) 52].
Proof.
  exact (tracked_identifiers_grow lim3_full
           [Check (Some "u2"%string) 50; Check None 51; Check (Some u1) 52]
           eq_refl).
Defined.

(** ** How calls compose *)

(** X3.  [reset] undoes whatever [check_rate_limit] did for the same
    identifier: a call of [check_rate_limit] followed by [reset] leaves the
    limiter that [reset] alone leaves; and a second [reset] changes
    nothing. *)
Theorem reset_absorbs_check self identifier t :
  reset (fst (check_rate_limit self identifier t)) identifier =
    reset self identifier /\
  reset (reset self identifier) identifier = reset self identifier.
Proof.
  assert (Habs : forall o, op_identifier o = identifier ->
            reset (step self o) identifier = reset self identifier).
  { intros o Ho.
    destruct (step_config self o) as [Hm Hw].
    destruct (reset_config (step self o) identifier) as [Hm1 Hw1].
    destruct (reset_config self identifier) as [Hm2 Hw2].
    apply limiter_eq; [congruence | congruence |].
    intros k. destruct (decide (identifier = Some k)) as [->|Hne].
    - now rewrite !reset_log.
    - rewrite !reset_other by assumption. apply step_other. congruence. }
  split.
  - exact (Habs (Check identifier t) eq_refl).
  - exact (Habs (Reset identifier) eq_refl).
Qed.

(** X4.  Calls for different identifiers commute: made in either order,
    they leave the same limiter. *)
Theorem steps_commute self o1 o2 :
  op_identifier o1 <> op_identifier o2 ->
  step (step self o1) o2 = step (step self o2) o1.
Proof.
  intros Hne.
  destruct (step_config self o1) as [Hm1 Hw1].
  destruct (step_config self o2) as [Hm2 Hw2].
  destruct (step_config (step self o1) o2) as [Hm12 Hw12].
  destruct (step_config (step self o2) o1) as [Hm21 Hw21].
  apply limiter_eq; [congruence | congruence |].
  intros k.
  destruct (decide (op_identifier o1 = Some k)) as [H1|H1].
  - rewrite (step_other _ o2) by congruence.
    apply step_local; [congruence | congruence |].
    symmetry. apply step_other. congruence.
  - rewrite (step_other (step self o2) o1) by assumption.
    apply step_local; [congruence | congruence |].
    now apply step_other.
Qed.

Lemma steps_commute_witness :
  step (step lim3_full (Check (Some "u2"%string) 3)) (Reset (Some u1)) =
    step (step lim3_full (Reset (Some u1))) (Check (Some "u2"%string) 3).
Proof.
  assert (H : op_identifier (Check (Some "u2"%string) 3) <>
              op_identifier (Reset (Some u1))) by discriminate.
  exact (steps_commute lim3_full _ _ H).
Defined.

(** ** Refusals *)

(** What is known of a call that returned [(False, r)]. *)
Lemma refusal_inv self identifier now r :
  snd (check_rate_limit self (Some identifier) now) = inr (false, r) ->
  identifier <> EmptyString /\
  exists oldest rest,
    kept_log self identifier now = oldest :: rest /\
    max_requests self <= Z.of_nat (length (kept_log self identifier now)) /\
    fresh now (time_window self) oldest /\
    refusal (time_window self) now oldest = inr (false, r) /\
    fst (check_rate_limit self (Some identifier) now) =
      set_requests self
        (<[identifier := kept_log self identifier now]> (requests self)).
Proof.
  intros H.
  assert (Hne : identifier <> EmptyString) by (intros ->; discriminate).
  split; [assumption |].
  rewrite check_rate_limit_valid in H |- * by assumption. cbv zeta in *.
  destruct (Z.leb_spec (max_requests self)
              (Z.of_nat (length (kept_log self identifier now)))) as [Hle|Hlt];
    [| discriminate].
  destruct (kept_log self identifier now) as [|oldest rest] eqn:E;
    [discriminate |].
  exists oldest, rest.
  assert (Hin : fresh now (time_window self) oldest)
    by (eapply purge_head_fresh; exact E).
  cbn [fst snd] in *. auto.
Qed.

(** What line 66 computed when a refusal was returned for an item that is
    not ahead of the clock. *)
Lemma refusal_parts window now oldest r :
  fresh now window oldest ->
  (oldest <= now)%Q ->
  refusal window now oldest = inr (false, r) ->
  exists w d y,
    round window = Finite w /\
    round (now - oldest) = Finite d /\
    round (w - d) = Finite y /\
    (0 <= d)%Q /\ (d < window)%Q /\ (d <= w)%Q /\ (0 <= y)%Q /\
    r = Qfloor y + 1.
Proof.
  intros Hf Hle. unfold refusal, retry_after, to_float.
  destruct (round window) as [w| |] eqn:Ew; try discriminate.
  destruct (fresh_below _ _ _ _ Ew Hf) as [H|(d & Ed & Hdw & Hdw')].
  { pose proof (round_nonneg (now - oldest) ltac:(lra)) as H0.
    rewrite H in H0. contradiction. }
  unfold float_sub. rewrite Ed. simpl.
  destruct (round (w - d)) as [y| |] eqn:Ey; try discriminate. simpl.
  intros [= <-].
  assert (Hd0 : (0 <= d)%Q).
  { pose proof (round_nonneg (now - oldest) ltac:(lra)) as H0.
    now rewrite Ed in H0. }
  assert (Hy : (0 <= y)%Q).
  { pose proof (round_nonneg (w - d) ltac:(lra)) as H. now rewrite Ey in H. }
  exists w, d, y. repeat split; trivial. now rewrite py_int_floor.
Qed.

(** Purging at a reading and then at a later one is purging at the later
    one: rounding is monotone. *)
Lemma purge_later t1 t2 window log :
  (t1 <= t2)%Q ->
  purge t2 window (purge t1 window log) = purge t2 window log.
Proof.
  intros Hle. induction log as [|t log IH]; [reflexivity |].
  simpl. destruct (float_ge (float_sub t1 t) window) eqn:E1.
  - assert (E2 : float_ge (float_sub t2 t) window = true)
      by exact (stale_later t1 t2 window t Hle E1).
    now rewrite E2.
  - reflexivity.
Qed.

(** X5.  A refused call costs nothing: when a call is refused and the
    clock does not run backwards, the next call for the identifier returns
    what it would have returned, and leaves the limiter it would have left,
    had the refused call not been made. *)
Theorem refused_call_is_free self identifier t1 t2 r :
  snd (check_rate_limit self (Some identifier) t1) = inr (false, r) ->
  (t1 <= t2)%Q ->
  check_rate_limit (fst (check_rate_limit self (Some identifier) t1))
    (Some identifier) t2 =
  check_rate_limit self (Some identifier) t2.
Proof.
  intros H Hle.
  destruct (refusal_inv _ _ _ _ H) as (Hne & oldest & rest & _ & _ & _ & _ & ->).
  assert (Hk : kept_log
                 (set_requests self
                    (<[identifier := kept_log self identifier t1]> (requests self)))
                 identifier t2 = kept_log self identifier t2).
  { unfold kept_log at 1. rewrite log_of_insert. simpl.
    now apply purge_later. }
  rewrite !(check_rate_limit_valid _ identifier t2) by assumption.
  cbv zeta. rewrite Hk. simpl. rewrite !insert_insert_eq. reflexivity.
Qed.

Lemma refused_call_is_free_witness :
  check_rate_limit (fst (check_rate_limit lim3_full (Some u1) 3)) (Some u1) 11 =
    check_rate_limit lim3_full (Some u1) 11.
Proof.
  assert (H : snd (check_rate_limit lim3_full (Some u1) 3) = inr (false, 8))
    by (vm_compute; reflexivity).
  assert (Hle : (3 <= 11)%Q) by (vm_compute; discriminate).
  exact (refused_call_is_free lim3_full u1 3 11 8 H Hle).
Defined.

(** X6.  The number returned with a refusal is honest, for a window that is
    an [int] up to [2 ^ 53] and a clock that is not behind the oldest
    request left in the deque: a call made at least that many seconds later
    is admitted, if no call for the identifier is made in between. *)
Theorem retry_after_suffices self identifier now r later wz :
  reachable self ->
  time_window self = inject_Z wz ->
  wz <= 2 ^ 53 ->
  snd (check_rate_limit self (Some identifier) now) = inr (false, r) ->
  (forall oldest,
     head (kept_log self identifier now) = Some oldest -> (oldest <= now)%Q) ->
  (inject_Z r <= later - now)%Q ->
  snd (check_rate_limit (fst (check_rate_limit self (Some identifier) now))
         (Some identifier) later) = admitted.
Proof.
  intros Hr Hwz Hbig H Hclock Hwait.
  destruct (refusal_inv _ _ _ _ H)
    as (Hne & oldest & rest & Hk & _ & Hin & Href & Hst).
  rewrite Hk in Hclock. specialize (Hclock oldest eq_refl).
  assert (Hr1 : reachable (fst (check_rate_limit self (Some identifier) now)))
    by exact (reachable_step self (Check (Some identifier) now) Hr).
  rewrite Hst in *.
  set (self1 := set_requests self
                  (<[identifier := kept_log self identifier now]> (requests self)))
    in *.
  assert (Hlen : Z.of_nat (length (oldest :: rest)) <= max_requests self).
  { apply (reachable_length self1 identifier); [assumption |].
    unfold self1. simpl. now rewrite lookup_insert_eq, Hk. }
  assert (Hpos : (0 < time_window self)%Q) by (now apply reachable_config in Hr).
  assert (Hwz0 : 0 < wz).
  { rewrite Hwz in Hpos. change 0%Q with (inject_Z 0) in Hpos.
    now rewrite <- Zlt_Qlt in Hpos. }
  assert (Hdw : is_double (time_window self))
    by (rewrite Hwz; apply is_double_int; lia).
  assert (Hexp : stale later (time_window self) oldest).
  { apply expired_stale; [exact Hdw |]. unfold expired.
    destruct (refusal_parts _ _ _ _ Hin Hclock Href)
      as (w & d & y & Ew & Ed & Ey & Hd0 & Hdlt & Hdw' & Hy0 & ->).
    destruct Hdw as (w' & Ew' & Hww). rewrite Ew in Ew'. injection Ew' as <-.
    rewrite Hwz in *.
    set (f := Qfloor y) in *.
    assert (Hf0 : 0 <= f) by (apply Qfloor_nonneg; assumption).
    pose proof (Qfloor_le y) as Hfy. pose proof (Qlt_floor y) as Hyf.
    fold f in Hfy, Hyf.
    rewrite inject_Z_plus in Hyf, Hwait. change (inject_Z 1) with 1%Q in Hyf, Hwait.
    assert (Hinj : (inject_Z (wz - f - 1) == inject_Z wz - inject_Z f - 1)%Q).
    { unfold Z.sub. rewrite !inject_Z_plus, !inject_Z_opp.
      change (inject_Z 1) with 1%Q. ring. }
    assert (Hinj1 : (inject_Z (f + 1) == inject_Z f + 1)%Q).
    { rewrite inject_Z_plus. reflexivity. }
    (* [y] is at most the window *)
    assert (Hyw : (y <= inject_Z wz)%Q).
    { pose proof (round_below (w - d) (inject_Z wz)
                    ltac:(apply is_double_int; lia) ltac:(lra)) as Hb.
      now rewrite Ey in Hb. }
    assert (Hfw : f <= wz).
    { apply Qfloor_resp_le in Hyw. now rewrite Qfloor_Z in Hyw. }
    destruct (Qlt_le_dec (now - oldest) (inject_Z (wz - f - 1))) as [Hlt|Hge].
    - exfalso.
      assert (Hj : 0 < wz - f - 1).
      { rewrite Zlt_Qlt. change (inject_Z 0) with 0%Q. lra. }
      assert (Hwzq : (inject_Z wz <= inject_Z (2 ^ 53))%Q) by now rewrite <- Zle_Qle.
      assert (Hdj : (d <= inject_Z (wz - f - 1))%Q).
      { pose proof (round_below (now - oldest) (inject_Z (wz - f - 1))
                      ltac:(apply is_double_int; lia) ltac:(lra)) as Hb.
        now rewrite Ed in Hb. }
      assert (Hyr : (inject_Z (f + 1) <= y)%Q).
      { assert (Hwd : (inject_Z (f + 1) <= w - d)%Q).
        { lra. }
        pose proof (round_above (w - d) (inject_Z (f + 1))
                      ltac:(apply is_double_int; lia) Hwd) as Hb.
        now rewrite Ey in Hb. }
      lra.
    - lra. }
  rewrite check_rate_limit_admits; [reflexivity | assumption |].
  unfold kept_log, self1. rewrite log_of_insert, Hk.
  cbn [max_requests time_window set_requests].
  rewrite purge_cons_stale by assumption.
  pose proof (purge_length later (time_window self) rest). simpl in Hlen. lia.
Qed.

Lemma retry_after_suffices_witness :
  snd (check_rate_limit (fst (check_rate_limit lim3_full (Some u1) 3))
         (Some u1) 11) = admitted.
Proof.
  assert (H : snd (check_rate_limit lim3_full (Some u1) 3) = inr (false, 8))
    by (vm_compute; reflexivity).
  assert (Hw : (inject_Z 8 <= 11 - 3)%Q) by (vm_compute; discriminate).
  assert (Hbig : 10 <= 2 ^ 53) by (vm_compute; discriminate).
  assert (Hclock : forall oldest,
            head (kept_log lim3_full u1 3) = Some oldest -> (oldest <= 3)%Q).
  { intros oldest Hhead. vm_compute in Hhead. injection Hhead as <-.
    vm_compute. discriminate. }
  exact (retry_after_suffices lim3_full u1 3 8 11 10 lim3_full_reachable
           eq_refl Hbig H Hclock Hw).
Defined.

(** X7.  The number returned with a refusal is at least 1, and at most the
    whole seconds of the window plus 1 when the window is a double (as an
    [int] up to [2 ^ 53] is) and the clock is not behind the oldest request
    left in the deque. *)
Theorem retry_after_bounded self identifier now r :
  is_double (time_window self) ->
  snd (check_rate_limit self (Some identifier) now) = inr (false, r) ->
  (forall oldest,
     head (kept_log self identifier now) = Some oldest -> (oldest <= now)%Q) ->
  1 <= r <= Qfloor (time_window self) + 1.
Proof.
  intros Hdw H Hclock.
  destruct (refusal_inv _ _ _ _ H) as (_ & oldest & rest & Hk & _ & Hin & Href & _).
  rewrite Hk in Hclock. specialize (Hclock oldest eq_refl).
  destruct (refusal_parts _ _ _ _ Hin Hclock Href)
    as (w & d & y & Ew & Ed & Ey & Hd0 & Hdlt & Hdw' & Hy0 & ->).
  pose proof (Qfloor_nonneg _ Hy0) as Hf0.
  assert (Hyw : (y <= time_window self)%Q).
  { destruct Hdw as (w' & Ew' & Hww). rewrite Ew in Ew'. injection Ew' as <-.
    pose proof (round_below (w - d) (time_window self)
                  ltac:(exists w; auto) ltac:(lra)) as Hb.
    now rewrite Ey in Hb. }
  apply Qfloor_resp_le in Hyw. lia.
Qed.

Lemma retry_after_bounded_witness : 1 <= 8 <= Qfloor (time_window lim3_full) + 1.
Proof.
  assert (H : snd (check_rate_limit lim3_full (Some u1) 3) = inr (false, 8))
    by (vm_compute; reflexivity).
  assert (Hd : is_double (time_window lim3_full))
    by (apply (is_double_int 10); lia).
  apply (retry_after_bounded lim3_full u1 3 8 Hd H).
  intros oldest Hhead. vm_compute in Hhead. injection Hhead as <-.
  vm_compute. discriminate.
Defined.

(** ** The quota is what the limiter enforces *)

Lemma run_snoc self ops o : run self (ops ++ [o]) = step (run self ops) o.
Proof. unfold run. now rewrite fold_left_app. Qed.

Lemma run_config self ops :
  max_requests (run self ops) = max_requests self /\
  time_window (run self ops) = time_window self.
Proof.
  induction ops as [|o ops IH] using rev_ind; [split; reflexivity |].
  rewrite run_snoc. destruct (step_config (run self ops) o) as [-> ->]. exact IH.
Qed.

Lemma record_admission_run identifier ops :
  forall self times,
  fst (fold_left (record_admission identifier) ops (self, times)) = run self ops.
Proof.
  induction ops as [|o ops IH]; intros self times; [reflexivity |].
  simpl. apply IH.
Qed.

Lemma admitted_times_snoc self identifier ops o :
  admitted_times self identifier (ops ++ [o]) =
    snd (record_admission identifier
           (run self ops, admitted_times self identifier ops) o).
Proof.
  unfold admitted_times. rewrite fold_left_app. simpl.
  rewrite <- (record_admission_run identifier ops self []).
  now destruct (fold_left (record_admission identifier) ops (self, [])).
Qed.

Lemma clock_reads_snoc ops o :
  clock_reads (ops ++ [o]) = clock_reads ops ++ option_list (clock_read o).
Proof.
  unfold clock_reads. rewrite omap_app. simpl. now destruct (clock_read o).
Qed.

Lemma recent_false now window t :
  recent now window t = false <-> stale now window t.
Proof. unfold recent, stale. now rewrite negb_false_iff. Qed.

Lemma recent_true now window t :
  recent now window t = true <-> fresh now window t.
Proof. unfold recent, fresh. now rewrite negb_true_iff. Qed.

Lemma filter_recent_stale now window l :
  Forall (stale now window) l -> List.filter (recent now window) l = [].
Proof.
  induction 1 as [|t l Ht _ IH]; [reflexivity |].
  simpl. apply recent_false in Ht. now rewrite Ht.
Qed.

Lemma filter_recent_fresh now window l :
  Forall (fresh now window) l -> List.filter (recent now window) l = l.
Proof.
  induction 1 as [|t l Ht _ IH]; [reflexivity |].
  simpl. apply recent_true in Ht. now rewrite Ht, IH.
Qed.

Lemma refusal_not_admitted window now oldest :
  refusal window now oldest <> admitted.
Proof. unfold refusal. destruct (retry_after _ _ _); discriminate. Qed.

(** The requests admitted since the last [reset] are those of the deque,
    preceded by requests that the loop removed in some call of the run. *)
Lemma admitted_times_log m w self0 identifier ops :
  init m w = inr self0 ->
  exists old,
    admitted_times self0 identifier ops =
      old ++ log_of (run self0 ops) identifier /\
    Forall (fun t => exists r,
              r ∈ clock_reads ops /\ stale r (time_window self0) t) old.
Proof.
  intros Hinit. induction ops as [|o ops (old & Hadm & Hold)] using rev_ind.
  - exists []. split; [| constructor].
    apply init_inr in Hinit as (_ & _ & ->). unfold log_of. simpl.
    now rewrite lookup_empty.
  - rewrite admitted_times_snoc, run_snoc, clock_reads_snoc.
    destruct (run_config self0 ops) as [_ Hw].
    set (self := run self0 ops) in *.
    assert (Hold' : forall extra,
              Forall (fun t => exists r,
                        r ∈ clock_reads ops ++ extra /\
                        stale r (time_window self0) t) old).
    { intros extra. eapply Forall_impl; [exact Hold |].
      intros t (r & Hr & He). exists r. split; [| exact He].
      apply elem_of_app. now left. }
    destruct (decide (op_identifier o = Some identifier)) as [Ho|Ho].
    + destruct o as [i now|i]; simpl in Ho; subst i; cbn [record_admission snd fst step].
      * rewrite decide_True by reflexivity.
        destruct (decide (identifier = EmptyString)) as [->|Hne].
        { simpl. exists old. rewrite app_nil_r. auto. }
        destruct (purge_prefix now (time_window self) (log_of self identifier))
          as (dropped & Hlog & Hdrop).
        fold (kept_log self identifier now) in Hlog.
        assert (Hread : clock_read (Check (Some identifier) now) = Some now)
          by (destruct (nonempty_string _ Hne) as (a & s & ->); reflexivity).
        rewrite Hread. simpl option_list.
        exists (old ++ dropped). split.
        -- pose proof (check_rate_limit_log self identifier now Hne) as Hl.
           cbv zeta in Hl. unfold log_of. rewrite Hl. cbn [default from_option].
           rewrite check_rate_limit_valid by assumption. cbv zeta.
           rewrite Hadm, Hlog, <- !app_assoc.
           destruct (max_requests self <=? _);
             [destruct (kept_log self identifier now) |]; try reflexivity.
           cbn [snd]. unfold refusal. now destruct (retry_after _ _ _).
        -- apply Forall_app. split; [apply Hold' |].
           eapply Forall_impl; [exact Hdrop |].
           intros t Ht. exists now. split; [| now rewrite <- Hw].
           apply elem_of_app. right. now apply list_elem_of_singleton.
      * rewrite decide_True by reflexivity. exists []. split; [| constructor].
        unfold log_of. now rewrite reset_log.
    + exists old. split; [| apply Hold'].
      unfold log_of. rewrite step_other by assumption.
      fold (log_of self identifier). rewrite <- Hadm.
      destruct o as [i now|i]; cbn [record_admission snd fst];
        rewrite decide_False by (simpl in Ho; congruence); reflexivity.
Qed.

Lemma chronological_snoc l (x : Q) :
  chronological (l ++ [x]) ->
  chronological l /\ forall r, r ∈ l -> (r <= x)%Q.
Proof.
  unfold chronological. induction l as [|y l IH]; simpl; intros H.
  - split; [constructor |]. intros r Hr. inversion Hr.
  - apply StronglySorted_inv in H as [Hs Hy].
    destruct (IH Hs) as [Hl Hx]. split.
    + constructor; [assumption |].
      apply Forall_app in Hy as [Hy _]. exact Hy.
    + intros r Hr. apply elem_of_cons in Hr as [->|Hr]; [| now apply Hx].
      apply Forall_app in Hy as [_ Hy]. now apply Forall_cons in Hy as [? _].
Qed.

(** X8.  The limiter enforces the quota exactly, on the test of line 59.
    In calls made one after the other since [__init__], with a clock that
    does not run backwards, a call for a non-empty identifier is admitted
    if and only if fewer than [max_requests] of the requests [t] admitted
    for this identifier since its last [reset] are [recent]: the double
    [now - t] is below the window. *)
Theorem admission_iff_window_quota m w self0 ops identifier now :
  init m w = inr self0 ->
  identifier <> EmptyString ->
  chronological (clock_reads ops ++ [now]) ->
  snd (check_rate_limit (run self0 ops) (Some identifier) now) = admitted <->
  Z.of_nat (length (List.filter (recent now (time_window self0))
                      (admitted_times self0 identifier ops)))
    < max_requests self0.
Proof.
  intros Hinit Hne Hc.
  apply chronological_snoc in Hc as (Hc & Hsep).
  destruct (admitted_times_log m w self0 identifier ops Hinit)
    as (old & -> & Hold).
  destruct (run_config self0 ops) as [Hm Hw].
  pose proof (run_chronological m w self0 ops identifier Hinit Hc) as Hlogc.
  set (self := run self0 ops) in *.
  destruct (purge_prefix now (time_window self) (log_of self identifier))
    as (dropped & Hlog & Hdrop).
  pose proof (purge_chronological now (time_window self) _ Hlogc) as Hkept.
  fold (kept_log self identifier now) in Hlog, Hkept.
  assert (Hcount : List.filter (recent now (time_window self0))
                     (old ++ log_of self identifier) =
                   kept_log self identifier now).
  { rewrite Hlog at 1. rewrite !List.filter_app, <- Hw.
    rewrite (filter_recent_stale _ _ old), (filter_recent_stale _ _ dropped),
      (filter_recent_fresh _ _ _ Hkept); trivial.
    eapply Forall_impl; [exact Hold |].
    intros t (r & Hr & He). rewrite Hw.
    apply (stale_later r now); [now apply Hsep | exact He]. }
  rewrite Hcount, <- Hm.
  rewrite check_rate_limit_valid by assumption. cbv zeta.
  destruct (Z.leb_spec (max_requests self)
              (Z.of_nat (length (kept_log self identifier now)))) as [Hle|Hlt].
  - split; [| lia].
    destruct (kept_log self identifier now); [discriminate |].
    intros Habs. now apply refusal_not_admitted in Habs.
  - split; [intros _; exact Hlt | reflexivity].
Qed.

Lemma admission_iff_window_quota_witness :
  snd (check_rate_limit
         (run lim3 [Check (Some u1) 0; Check (Some u1) 1; Check (Some u1) 2])
         (Some u1) 11) = admitted <->
  Z.of_nat (length (List.filter (recent 11 (time_window lim3))
                      (admitted_times lim3 u1
                         [Check (Some u1) 0; Check (Some u1) 1; Check (Some u1) 2])))
    < max_requests lim3.
Proof.
  assert (Hne : u1 <> EmptyString) by discriminate.
  assert (Hc : chronological
                 (clock_reads [Check (Some u1) 0; Check (Some u1) 1;
                               Check (Some u1) 2] ++ [11%Q]))
    by (unfold chronological; vm_compute; repeat constructor; discriminate).
  exact (admission_iff_window_quota 3 10 lim3 _ u1 11 eq_refl Hne Hc).
Defined.

(** ** Threads: no deadlock and no overfull deque, whatever the clock *)

Lemma world_step_safe identifier N w e w' :
  thread_safe identifier N w ->
  world_step identifier w e = Some w' ->
  thread_safe identifier N w'.
Proof.
  intros (Hmax & Hmutex & Hbound & Happ).
  destruct w as [self lock l], e as [t i]. unfold world_step, thread_safe.
  simpl in *.
  destruct (l !! i) as [p|] eqn:Hi; [| discriminate].
  destruct (thread_step identifier self lock p t) as [[[self' lock'] p']|] eqn:T;
    [| discriminate].
  intros [= <-]. simpl.
  pose proof (count_insert critical l i p p' Hi) as Hc.
  pose proof (count_insert appending l i p p' Hi) as Ha.
  pose proof (count_le appending critical l
                ltac:(intros []; simpl; congruence)) as Hac.
  destruct p as [|now|now|now|now|out|out]; simpl in T.
  - destruct identifier; injection T as <- <- <-; simpl in *;
      (repeat split; trivial; try lia; try (intros; apply Happ; lia)).
  - destruct lock; [discriminate |]. injection T as <- <- <-. simpl in *.
    repeat split; trivial; try lia; try (intros; apply Happ; lia).
  - destruct (getitem identifier (requests self)) as [r log] eqn:G.
    destruct (log_of_getitem _ _ _ _ G) as [Hl Hl'].
    destruct log as [|oldest rest].
    + injection T as <- <- <-. rewrite Hl', Hl. simpl in *.
      repeat split; trivial; try lia; try (intros; apply Happ; lia).
    + rewrite <- Hl in Hbound, Happ. simpl in Hbound, Happ.
      destruct (float_ge _ _); injection T as <- <- <-.
      * rewrite log_of_insert. simpl in *.
        repeat split; trivial; try lia;
          try (intros H; assert (H0 : (0 < count appending l)%nat) by lia;
               specialize (Happ H0); lia).
      * rewrite Hl'. simpl in *.
        repeat split; trivial; try lia; try (intros; apply Happ; lia).
  - destruct (getitem identifier (requests self)) as [r log] eqn:G.
    destruct (log_of_getitem _ _ _ _ G) as [Hl Hl']. rewrite Hmax in T.
    destruct (Z.leb_spec N (Z.of_nat (length log))) as [Hle|Hlt].
    + assert (T' : exists out, (set_requests self r, lock, Leaving out) =
                               (self', lock', p'))
        by (destruct log; injection T as <- <- <-; eauto).
      destruct T' as [out T']. injection T' as <- <- <-.
      rewrite Hl', Hl. simpl in *.
      repeat split; trivial; try lia; try (intros; apply Happ; lia).
    + injection T as <- <- <-. rewrite Hl', Hl in *. simpl in *.
      repeat split; trivial; lia.
  - destruct (getitem identifier (requests self)) as [r log] eqn:G.
    destruct (log_of_getitem _ _ _ _ G) as [Hl _].
    injection T as <- <- <-. rewrite log_of_insert, length_app, Hl. simpl in *.
    assert (Hlock : lock = true) by (destruct lock; [reflexivity | lia]).
    subst lock.
    assert (Hlt : Z.of_nat (length (log_of self identifier)) < N)
      by (apply Happ; lia).
    repeat split; trivial; lia.
  - injection T as <- <- <-. simpl in *.
    assert (Hlock : lock = true) by (destruct lock; [reflexivity | lia]).
    subst lock.
    repeat split; trivial; try lia; try (intros; apply Happ; lia).
  - discriminate.
Qed.

Lemma run_schedule_safe identifier N sched :
  forall w w',
  thread_safe identifier N w ->
  run_schedule identifier w sched = Some w' ->
  thread_safe identifier N w'.
Proof.
  induction sched as [|e sched IH]; intros w w' Hsafe; simpl.
  - now intros [= <-].
  - destruct (world_step identifier w e) as [w1|] eqn:E; [| discriminate].
    apply IH. eapply world_step_safe; eauto.
Qed.

Lemma start_safe self identifier callers :
  Z.of_nat (length (log_of self identifier)) <= max_requests self ->
  thread_safe identifier (max_requests self) (start self callers).
Proof.
  intros Hlen. unfold thread_safe, start. simpl.
  rewrite !count_repeat. simpl. repeat split; trivial. lia.
Qed.

(** With the lock held exactly by the threads inside the block, a thread
    that has not returned can run, or the holder of the lock can. *)
Lemma mutex_progress identifier w :
  count critical (pcs w) = (if locked w then 1%nat else 0%nat) ->
  forallb returned (pcs w) = false ->
  exists i, forall t, is_Some (world_step identifier w (t, i)).
Proof.
  intros Hm Hnot.
  assert (Hcrit : forall i p, pcs w !! i = Some p -> critical p = true ->
            forall t, is_Some (world_step identifier w (t, i))).
  { intros i p Hi Hc t. unfold world_step. simpl. rewrite Hi.
    destruct p; try discriminate; simpl;
      try destruct (getitem identifier (requests (limiter w))) as [r [|oldest rest]];
      repeat match goal with |- context [if ?b then _ else _] => destruct b end;
      eauto. }
  destruct (count_pos_false _ _ Hnot) as (i & p & Hi & Hp).
  destruct (critical p) eqn:Hc; [exists i; eauto |].
  destruct (locked w) eqn:Hlock.
  - destruct (count_pos_true critical (pcs w)) as (j & q & Hj & Hq); [lia |].
    exists j. eauto.
  - exists i. intros t. unfold world_step. simpl. rewrite Hi, Hlock.
    destruct p; try discriminate; simpl; eauto.
    destruct identifier; eauto.
Qed.

Lemma returned_not_critical (l : list pc) :
  forallb returned l = true -> count critical l = 0%nat.
Proof.
  induction l as [|p l IH]; simpl; [reflexivity |].
  destruct p; simpl; try discriminate. exact IH.
Qed.

(** X9.  Threads that call [check_rate_limit] never block each other for
    good, whatever the limiter holds, whatever the identifier and whatever
    the clock shows: in every run at most one thread is inside
    [with self.lock]; a run has at most [7 * callers] steps plus one for
    every item in the deque; as long as a thread has not returned, some
    thread can make a step; and when all have returned the lock is free. *)
Theorem callers_never_deadlock self identifier callers sched w :
  run_schedule identifier (start self callers) sched = Some w ->
  (count critical (pcs w) <= 1)%nat /\
  (length sched <= 7 * callers + length (log_of self identifier))%nat /\
  (forallb returned (pcs w) = false ->
   exists i, forall t, is_Some (world_step identifier w (t, i))) /\
  (forallb returned (pcs w) = true -> locked w = false).
Proof.
  intros Hrun.
  assert (Hm : count critical (pcs w) = (if locked w then 1%nat else 0%nat)).
  { assert (Hstart : count critical (pcs (start self callers)) =
                     (if locked (start self callers) then 1%nat else 0%nat))
      by (simpl; now rewrite count_repeat).
    clear - Hrun Hstart. revert Hrun Hstart.
    generalize (start self callers). induction sched as [|e sched IH]; intros w0; simpl.
    - now intros [= <-].
    - destruct (world_step identifier w0 e) as [w1|] eqn:E; [| discriminate].
      intros Hrun Hm0. apply (IH w1 Hrun).
      clear - E Hm0. destruct w0 as [s0 lock l], e as [t i].
      unfold world_step in E. simpl in *.
      destruct (l !! i) as [p|] eqn:Hi; [| discriminate].
      destruct (thread_step identifier s0 lock p t) as [[[s' lock'] p']|] eqn:T;
        [| discriminate].
      injection E as <-. simpl.
      pose proof (count_insert critical l i p p' Hi) as Hc.
      destruct p as [|now|now|now|now|out|out]; simpl in T.
      + destruct identifier; injection T as <- <- <-; simpl in *; lia.
      + destruct lock; [discriminate |]. injection T as <- <- <-. simpl in *. lia.
      + destruct (getitem identifier (requests s0)) as [r [|oldest rest]];
          [| destruct (float_ge _ _)]; injection T as <- <- <-; simpl in *; lia.
      + destruct (getitem identifier (requests s0)) as [r log].
        destruct (_ <=? _); [destruct log |]; injection T as <- <- <-;
          simpl in *; lia.
      + destruct (getitem identifier (requests s0)) as [r log].
        injection T as <- <- <-. simpl in *. lia.
      + injection T as <- <- <-. simpl in *. destruct lock; lia.
      + discriminate. }
  pose proof (run_schedule_measure _ _ _ _ Hrun) as Hsteps.
  simpl in Hsteps. rewrite total_weight_repeat in Hsteps. simpl in Hsteps.
  split; [rewrite Hm; destruct (locked w); lia |].
  split; [lia |].
  split; [now apply mutex_progress |].
  intros Hall. apply returned_not_critical in Hall. rewrite Hall in Hm.
  now destruct (locked w).
Qed.

Lemma callers_never_deadlock_witness :
  (length racing <= 7 * 2 + length (log_of lim3 u1))%nat /\ locked racing_end = false.
Proof.
  assert (Hrun : run_schedule u1 (start lim3 2) racing = Some racing_end)
    by (vm_compute; reflexivity).
  destruct (callers_never_deadlock lim3 u1 2 racing racing_end Hrun)
    as (_ & Hlen & _ & Hfree).
  split; [exact Hlen |]. apply Hfree. reflexivity.
Defined.

(** X10.  Threads never overfill a deque: when the deque of the identifier
    is not longer than the quota before the threads call
    [check_rate_limit], it is not longer than the quota at any point of any
    run, whatever the clock shows. *)
Theorem callers_keep_quota self identifier callers sched w :
  Z.of_nat (length (log_of self identifier)) <= max_requests self ->
  run_schedule identifier (start self callers) sched = Some w ->
  Z.of_nat (length (log_of (limiter w) identifier)) <= max_requests self.
Proof.
  intros Hlen Hrun.
  apply (run_schedule_safe identifier (max_requests self) sched
           (start self callers) w (start_safe self identifier callers Hlen) Hrun).
Qed.

Lemma callers_keep_quota_witness :
  Z.of_nat (length (log_of (limiter racing_end) u1)) <= max_requests lim3.
Proof.
  assert (Hrun : run_schedule u1 (start lim3 2) racing = Some racing_end)
    by (vm_compute; reflexivity).
  assert (Hlen : Z.of_nat (length (log_of lim3 u1)) <= max_requests lim3)
    by (vm_compute; discriminate).
  exact (callers_keep_quota lim3 u1 2 racing racing_end Hlen Hrun).
Defined.

(** ** Every run of the threads is a run of sequential calls *)

Lemma check_all_snoc self identifier times t :
  check_all self identifier (times ++ [t]) =
    (fst (check_rate_limit (check_all self identifier times).1 identifier t),
     (check_all self identifier times).2
       ++ [snd (check_rate_limit (check_all self identifier times).1 identifier t)]).
Proof.
  rewrite check_all_app. destruct (check_all self identifier times) as [s outs].
  simpl. now destruct (check_rate_limit s identifier t).
Qed.

Lemma check_all_length self identifier times :
  length (check_all self identifier times).2 = length times.
Proof.
  revert self. induction times as [|t times IH]; intros self; [reflexivity |].
  rewrite check_all_cons. destruct (check_rate_limit self identifier t) as [s o].
  specialize (IH s). destruct (check_all s identifier times). simpl in *. lia.
Qed.

Lemma count_lookup_pos (f : pc -> bool) (l : list pc) j q :
  l !! j = Some q -> f q = true -> (0 < count f l)%nat.
Proof.
  revert j. induction l as [|x l IH]; intros [|j] H Hq; try discriminate.
  - injection H as ->. simpl. rewrite Hq. lia.
  - simpl in *. specialize (IH j H Hq). lia.
Qed.

(** Two threads inside the block would show in the count. *)
Lemma two_critical (l : list pc) i j p q :
  l !! i = Some p -> l !! j = Some q -> i <> j ->
  critical p = true -> critical q = true ->
  (2 <= count critical l)%nat.
Proof.
  intros Hi Hj Hne Hp Hq.
  pose proof (count_insert critical l i p Called Hi) as Hc.
  rewrite Hp in Hc. simpl in Hc.
  assert (Hj' : <[i := Called]> l !! j = Some q)
    by now rewrite list_lookup_insert_ne.
  pose proof (count_lookup_pos critical _ _ _ Hj' Hq). lia.
Qed.

(** What a thread at the test of the loop finds. *)
Lemma purging_view identifier s t cur :
  lin_state identifier s (Purging t) cur ->
  purge t (time_window s) (log_of cur identifier) = kept_log s identifier t /\
  (forall X,
     set_requests cur (<[identifier := X]> (requests cur)) =
       set_requests s (<[identifier := X]> (requests s))) /\
  time_window cur = time_window s.
Proof.
  intros [->|(l & -> & Hl)].
  - auto.
  - rewrite log_of_insert. repeat split; trivial.
    intros X. simpl. now rewrite insert_insert_eq.
Qed.

Lemma done_has_outcome identifier self0 clock w done i :
  linearized identifier self0 clock w done ->
  i ∈ done.*1 ->
  exists out,
    pcs w !! i = Some (Leaving out) \/ pcs w !! i = Some (Returned out).
Proof.
  intros Hlin Hin.
  apply list_elem_of_fmap in Hin as (e & -> & He).
  apply list_elem_of_lookup in He as (k & Hk).
  pose proof (lookup_lt_Some _ _ _ Hk) as Hlt.
  rewrite <- (length_fmap snd), <- (check_all_length self0 (Some identifier)) in Hlt.
  fold (seq_outs identifier self0 done) in Hlt.
  apply lookup_lt_is_Some_2 in Hlt as (out & Hout).
  exists out. exact (lin_outs _ _ _ _ _ Hlin k e out Hk Hout).
Qed.

Section Linearize.
Variable identifier : string.
Variable self0 : RateLimiter.
Variable clock : Q -> Prop.
Hypothesis identifier_valid : identifier <> EmptyString.

Local Abbreviation lin := (linearized identifier self0 clock).

(** The deques and the threads other than [i] when thread [i], which has
    no outcome yet, takes a step to [p'] that keeps the list [done]. *)
Lemma lin_frame cur lock (l : list pc) done (i : nat) p cur'
    (lock' : bool) p' :
  lin {| limiter := cur; locked := lock; pcs := l |} done ->
  l !! i = Some p ->
  (forall out, p <> Leaving out /\ p <> Returned out) ->
  (forall out, p' <> Leaving out /\ p' <> Returned out) ->
  (count critical (<[i := p']> l) = if lock' then 1%nat else 0%nat) ->
  lin_state identifier (seq_state identifier self0 done) p' cur' ->
  (critical p = false -> cur' = cur) ->
  (in_block p' = false -> cur' = cur /\ in_block p = false) ->
  (forall t, reading p' = Some t -> clock t) ->
  lin {| limiter := cur'; locked := lock'; pcs := <[i := p']> l |} done.
Proof.
  intros Hlin Hi Hp Hp' Hmutex Hstate Hcur Hidle Hread.
  pose proof (lookup_lt_Some _ _ _ Hi) as Hlt.
  assert (Hnot : i ∉ done.*1).
  { intros Hin. destruct (done_has_outcome _ _ _ _ _ _ Hlin Hin) as (out & Ho).
    simpl in Ho. rewrite Hi in Ho. destruct (Hp out) as [H1 H2].
    destruct Ho as [[= ->]|[= ->]]; congruence. }
  assert (Hother : forall j q, j <> i -> l !! j = Some q ->
            critical p = true -> critical q = false).
  { intros j q Hji Hj Hc. destruct (critical q) eqn:Hq; [| reflexivity].
    pose proof (two_critical l i j p q Hi Hj (not_eq_sym Hji) Hc Hq) as H2.
    pose proof (lin_mutex _ _ _ _ _ Hlin) as Hm. simpl in Hm.
    destruct lock; lia. }
  split; simpl.
  - exact (lin_nodup _ _ _ _ _ Hlin).
  - intros k e out Hk Hout.
    assert (Hne : e.1 <> i).
    { intros <-. apply Hnot. apply list_elem_of_fmap. exists e. split; [reflexivity |].
      apply list_elem_of_lookup. eauto. }
    rewrite list_lookup_insert_ne by congruence.
    exact (lin_outs _ _ _ _ _ Hlin k e out Hk Hout).
  - intros j out Hj. destruct (decide (j = i)) as [->|Hji].
    + rewrite list_lookup_insert_eq in Hj by assumption.
      destruct (Hp' out). destruct Hj as [[= ->]|[= ->]]; congruence.
    + rewrite list_lookup_insert_ne in Hj by congruence.
      exact (lin_done _ _ _ _ _ Hlin j out Hj).
  - intros j q Hj. destruct (decide (j = i)) as [->|Hji].
    + rewrite list_lookup_insert_eq in Hj by assumption.
      injection Hj as <-. exact Hstate.
    + rewrite list_lookup_insert_ne in Hj by congruence.
      pose proof (lin_block _ _ _ _ _ Hlin j q Hj) as Hq. simpl in Hq.
      destruct (critical p) eqn:Hc.
      * specialize (Hother j q Hji Hj eq_refl). destruct q; try discriminate; exact I.
      * now rewrite (Hcur eq_refl).
  - intros H0.
    pose proof (count_insert in_block l i p p' Hi) as Hc.
    destruct (in_block p') eqn:Hb.
    { destruct (in_block p) eqn:Hpb; [| lia].
      pose proof (count_lookup_pos in_block l i p Hi Hpb). lia. }
    destruct (Hidle eq_refl) as [-> Hpb]. rewrite Hpb in Hc.
    apply (lin_idle _ _ _ _ _ Hlin). simpl. lia.
  - exact Hmutex.
  - exact (lin_clock_done _ _ _ _ _ Hlin).
  - apply Forall_insert; [exact (lin_clock_pcs _ _ _ _ _ Hlin) | exact Hread].
Qed.

Lemma seq_snoc done (i : nat) t :
  seq_state identifier self0 (done ++ [(i, t)]) =
    fst (check_rate_limit (seq_state identifier self0 done) (Some identifier) t) /\
  seq_outs identifier self0 (done ++ [(i, t)]) =
    seq_outs identifier self0 done
      ++ [snd (check_rate_limit (seq_state identifier self0 done) (Some identifier) t)].
Proof.
  unfold seq_state, seq_outs. rewrite fmap_app. simpl.
  now rewrite check_all_snoc.
Qed.

(** Thread [i] evaluates its [return]: it joins the list [done]. *)
Lemma lin_finish cur lock (l : list pc) done (i : nat) p t cur' out :
  lin {| limiter := cur; locked := lock; pcs := l |} done ->
  l !! i = Some p ->
  p = Deciding t \/ p = Appending t ->
  cur' = fst (check_rate_limit (seq_state identifier self0 done) (Some identifier) t) ->
  out = snd (check_rate_limit (seq_state identifier self0 done) (Some identifier) t) ->
  lin {| limiter := cur'; locked := lock; pcs := <[i := Leaving out]> l |}
    (done ++ [(i, t)]).
Proof.
  intros Hlin Hi Hp -> ->.
  pose proof (lookup_lt_Some _ _ _ Hi) as Hlt.
  destruct (seq_snoc done i t) as [Hst Hso].
  assert (Hcrit : critical p = true) by (destruct Hp; subst p; reflexivity).
  assert (Hread : reading p = Some t) by (destruct Hp; subst p; reflexivity).
  assert (Hnot : i ∉ done.*1).
  { intros Hin. destruct (done_has_outcome _ _ _ _ _ _ Hlin Hin) as (o & Ho).
    simpl in Ho. rewrite Hi in Ho.
    destruct Hp; subst p; destruct Ho; discriminate. }
  split; simpl.
  - rewrite fmap_app. apply NoDup_app. split; [exact (lin_nodup _ _ _ _ _ Hlin) |].
    split; [| apply NoDup_singleton].
    intros j Hj Hj'. simpl in Hj'. apply list_elem_of_singleton in Hj'. now subst j.
  - rewrite Hso. intros k e o Hk Ho.
    destruct (decide (k < length done)%nat) as [Hkl|Hkl].
    + rewrite lookup_app_l in Hk by assumption.
      rewrite lookup_app_l in Ho
        by (unfold seq_outs; now rewrite check_all_length, length_fmap).
      assert (Hne : e.1 <> i).
      { intros <-. apply Hnot. apply list_elem_of_fmap. exists e.
        split; [reflexivity |]. apply list_elem_of_lookup. eauto. }
      rewrite list_lookup_insert_ne by congruence.
      exact (lin_outs _ _ _ _ _ Hlin k e o Hk Ho).
    + rewrite lookup_app_r in Hk by lia.
      rewrite lookup_app_r in Ho
        by (unfold seq_outs; rewrite check_all_length, length_fmap; lia).
      unfold seq_outs in Ho. rewrite check_all_length, length_fmap in Ho.
      destruct (k - length done)%nat; [| discriminate].
      injection Hk as <-. injection Ho as <-. simpl.
      left. now apply list_lookup_insert_eq.
  - intros j o Hj. rewrite fmap_app. apply elem_of_app.
    destruct (decide (j = i)) as [->|Hji].
    + right. simpl. now apply list_elem_of_singleton.
    + left. rewrite list_lookup_insert_ne in Hj by congruence.
      exact (lin_done _ _ _ _ _ Hlin j o Hj).
  - intros j q Hj. destruct (decide (j = i)) as [->|Hji].
    + rewrite list_lookup_insert_eq in Hj by assumption. now injection Hj as <-.
    + rewrite list_lookup_insert_ne in Hj by congruence.
      destruct (critical q) eqn:Hq.
      * pose proof (two_critical l i j p q Hi Hj (not_eq_sym Hji) Hcrit Hq) as H2.
        pose proof (lin_mutex _ _ _ _ _ Hlin) as Hm. simpl in Hm.
        destruct lock; lia.
      * destruct q; try discriminate; exact I.
  - intros _. now rewrite Hst.
  - pose proof (count_insert critical l i p (Leaving
        (snd (check_rate_limit (seq_state identifier self0 done) (Some identifier) t))) Hi) as Hc.
    rewrite Hcrit in Hc. simpl in Hc.
    pose proof (lin_mutex _ _ _ _ _ Hlin) as Hm. simpl in Hm. lia.
  - apply Forall_app. split; [exact (lin_clock_done _ _ _ _ _ Hlin) |].
    constructor; [| constructor]. simpl.
    pose proof (lin_clock_pcs _ _ _ _ _ Hlin) as Hall. simpl in Hall.
    rewrite Forall_forall in Hall. apply (Hall p); [| assumption].
    eapply list_elem_of_lookup_2; eauto.
  - apply Forall_insert; [exact (lin_clock_pcs _ _ _ _ _ Hlin) | discriminate].
Qed.

(** Thread [i] releases the lock and is back in its caller. *)
Lemma lin_release cur lock (l : list pc) done (i : nat) out :
  lin {| limiter := cur; locked := lock; pcs := l |} done ->
  l !! i = Some (Leaving out) ->
  lin {| limiter := cur; locked := false; pcs := <[i := Returned out]> l |} done.
Proof.
  intros Hlin Hi.
  pose proof (lookup_lt_Some _ _ _ Hi) as Hlt.
  split; simpl.
  - exact (lin_nodup _ _ _ _ _ Hlin).
  - intros k e o Hk Ho.
    pose proof (lin_outs _ _ _ _ _ Hlin k e o Hk Ho) as Hold. simpl in Hold.
    destruct (decide (e.1 = i)) as [He|He].
    + rewrite He in *. rewrite Hi in Hold.
      rewrite list_lookup_insert_eq by assumption.
      destruct Hold as [[= ->]|[=]]. now right.
    + now rewrite list_lookup_insert_ne by congruence.
  - intros j o Hj. destruct (decide (j = i)) as [->|Hji].
    + apply (lin_done _ _ _ _ _ Hlin i out). simpl. now left.
    + rewrite list_lookup_insert_ne in Hj by congruence.
      exact (lin_done _ _ _ _ _ Hlin j o Hj).
  - intros j q Hj. destruct (decide (j = i)) as [->|Hji].
    + rewrite list_lookup_insert_eq in Hj by assumption. now injection Hj as <-.
    + rewrite list_lookup_insert_ne in Hj by congruence.
      exact (lin_block _ _ _ _ _ Hlin j q Hj).
  - intros H0. apply (lin_idle _ _ _ _ _ Hlin). simpl.
    pose proof (count_insert in_block l i _ (Returned out) Hi) as Hc.
    simpl in Hc. lia.
  - pose proof (count_insert critical l i _ (Returned out) Hi) as Hc.
    simpl in Hc.
    pose proof (lin_mutex _ _ _ _ _ Hlin) as Hm. simpl in Hm.
    destruct lock; lia.
  - exact (lin_clock_done _ _ _ _ _ Hlin).
  - apply Forall_insert; [exact (lin_clock_pcs _ _ _ _ _ Hlin) | discriminate].
Qed.

Lemma getitem_insert (X : list Q) (r : gmap string (list Q)) :
  getitem identifier (<[identifier := X]> r) = (<[identifier := X]> r, X).
Proof.
  rewrite getitem_eq, lookup_insert_eq. simpl. now rewrite insert_insert_eq.
Qed.

(** Every step of every thread keeps the world in agreement with a list
    of sequential calls. *)
Lemma world_step_lin w e w' done :
  lin w done ->
  (reads_clock identifier w e.2 = true -> clock e.1) ->
  world_step identifier w e = Some w' ->
  exists done', lin w' done'.
Proof.
  intros Hlin Hclock.
  destruct w as [cur lock l], e as [c i]. unfold world_step, reads_clock in *.
  simpl in *.
  destruct (l !! i) as [p|] eqn:Hi; [| discriminate].
  destruct (thread_step identifier cur lock p c) as [[[cur' lock'] p']|] eqn:T;
    [| discriminate].
  intros [= <-].
  pose proof (lin_mutex _ _ _ _ _ Hlin) as Hm. simpl in Hm.
  pose proof (lin_block _ _ _ _ _ Hlin i p Hi) as Hb. simpl in Hb.
  pose proof (lin_clock_pcs _ _ _ _ _ Hlin) as Hpcs. simpl in Hpcs.
  assert (Hp : forall t, reading p = Some t -> clock t).
  { rewrite Forall_forall in Hpcs. apply Hpcs.
    eapply list_elem_of_lookup_2; eauto. }
  pose proof (count_insert critical l i p p' Hi) as Hc.
  destruct p as [|t|t|t|t|out|out]; simpl in T.
  - (* Called *)
    destruct (nonempty_string _ identifier_valid) as (a & s & Hid).
    rewrite Hid in T, Hclock. injection T as <- <- <-. simpl in Hc.
    exists done.
    apply (lin_frame cur lock l done i Called);
      [exact Hlin | exact Hi | split; discriminate | split; discriminate
      | lia | exact I | reflexivity | intros _; split; reflexivity |].
    simpl. intros t [= <-]. now apply Hclock.
  - (* Waiting *)
    destruct lock; [discriminate |]. injection T as <- <- <-. simpl in Hc.
    exists done.
    apply (lin_frame cur false l done i (Waiting t));
      [exact Hlin | exact Hi | split; discriminate | split; discriminate
      | lia | | reflexivity | discriminate | exact Hp].
    left. apply (lin_idle _ _ _ _ _ Hlin). simpl.
    pose proof (count_le in_block critical l
                  ltac:(intros []; simpl; congruence)). lia.
  - (* Purging *)
    destruct (purging_view _ _ _ _ Hb) as (Hkept & Hset & Hw).
    rewrite getitem_eq in T. fold (log_of cur identifier) in T.
    rewrite Hw in T.
    assert (Hframe : forall cur1 p1,
              (p1 = Purging t \/ p1 = Deciding t) ->
              lin_state identifier (seq_state identifier self0 done) p1 cur1 ->
              lin {| limiter := cur1; locked := lock; pcs := <[i := p1]> l |} done).
    { intros cur1 p1 Hp1 Hst.
      apply (lin_frame cur lock l done i (Purging t));
        [exact Hlin | exact Hi | split; discriminate
        | destruct Hp1; subst p1; split; discriminate
        | | exact Hst | discriminate
        | destruct Hp1; subst p1; discriminate
        | destruct Hp1; subst p1; exact Hp].
      pose proof (count_insert critical l i _ p1 Hi) as Hc1.
      destruct Hp1; subst p1; simpl in Hc1; lia. }
    exists done.
    destruct (log_of cur identifier) as [|oldest rest] eqn:HL.
    + injection T as <- <- <-. apply Hframe; [now right |].
      simpl. rewrite <- Hkept. simpl. apply Hset.
    + simpl in Hkept.
      destruct (float_ge (float_sub t oldest)
                  (time_window (seq_state identifier self0 done))) eqn:E;
        injection T as <- <- <-.
      * apply Hframe; [now left |]. right. exists rest.
        rewrite insert_insert_eq. split; [apply Hset | exact Hkept].
      * apply Hframe; [now right |]. simpl. rewrite <- Hkept. apply Hset.
  - (* Deciding *)
    red in Hb. set (s := seq_state identifier self0 done) in *.
    rewrite Hb in T. simpl in T. rewrite getitem_insert in T.
    pose proof (check_rate_limit_valid s identifier t identifier_valid) as Hv.
    cbv zeta in Hv.
    destruct (max_requests s <=? Z.of_nat (length (kept_log s identifier t)))
      eqn:Hfull.
    + assert (T' : Some (set_requests s
                           (<[identifier := kept_log s identifier t]> (requests s)),
                         lock,
                         Leaving (snd (check_rate_limit s (Some identifier) t))) =
                   Some (cur', lock', p')).
      { rewrite Hv. destruct (kept_log s identifier t); exact T. }
      injection T' as <- <- <-.
      exists (done ++ [(i, t)]).
      apply (lin_finish cur lock l done i (Deciding t) t);
        [exact Hlin | exact Hi | now left | | reflexivity].
      fold s. rewrite Hv. now destruct (kept_log s identifier t).
    + injection T as <- <- <-.
      exists done.
      apply (lin_frame cur lock l done i (Deciding t));
        [exact Hlin | exact Hi | split; discriminate | split; discriminate
        | simpl in Hc; lia | | discriminate | discriminate | exact Hp].
      simpl. fold s. split; [reflexivity |]. now apply Z.leb_gt.
  - (* Appending *)
    destruct Hb as [Hb Hlt]. set (s := seq_state identifier self0 done) in *.
    rewrite Hb in T. simpl in T. rewrite getitem_insert in T.
    injection T as <- <- <-.
    exists (done ++ [(i, t)]).
    pose proof (check_rate_limit_admits s identifier t identifier_valid Hlt) as Hv.
    apply (lin_finish cur lock l done i (Appending t) t);
      [exact Hlin | exact Hi | now right | | fold s; now rewrite Hv].
    fold s. rewrite Hv. simpl. now rewrite insert_insert_eq.
  - (* Leaving *)
    injection T as <- <- <-. exists done.
    exact (lin_release cur lock l done i out Hlin Hi).
  - discriminate.
Qed.

Lemma run_schedule_lin sched :
  forall w w' done,
  lin w done ->
  Forall clock (clock_readings identifier w sched) ->
  run_schedule identifier w sched = Some w' ->
  exists done', lin w' done'.
Proof.
  induction sched as [|e sched IH]; intros w w' done Hlin Hclock; simpl in *.
  - intros [= <-]. eauto.
  - destruct (world_step identifier w e) as [w1|] eqn:E; [| discriminate].
    apply Forall_app in Hclock as [He Hclock].
    destruct (world_step_lin w e w1 done Hlin) as [done1 Hlin1]; trivial.
    + intros Hr. rewrite Hr in He. now apply Forall_cons in He as [? _].
    + eauto.
Qed.

Lemma lookup_repeat (p q : pc) (n i : nat) : repeat p n !! i = Some q -> q = p.
Proof.
  intros H. apply list_elem_of_lookup_2 in H.
  now apply list_elem_of_In, repeat_spec in H.
Qed.

Lemma start_lin callers : lin (start self0 callers) [].
Proof.
  split; simpl.
  - constructor.
  - intros k e out Hk. discriminate.
  - intros i out [H|H]; apply lookup_repeat in H; discriminate.
  - intros i p H. apply lookup_repeat in H. now subst p.
  - reflexivity.
  - now rewrite count_repeat.
  - constructor.
  - apply Forall_forall. intros p Hp%list_elem_of_In%repeat_spec. now subst p.
Qed.

End Linearize.

Lemma returned_not_in_block (l : list pc) :
  forallb returned l = true -> count in_block l = 0%nat.
Proof.
  induction l as [|p l IH]; simpl; [reflexivity |].
  intros [Hp Hl]%andb_true_iff. rewrite (IH Hl). now destruct p.
Qed.

Lemma returned_lookup (l : list pc) (i : nat) p :
  forallb returned l = true -> l !! i = Some p -> exists out, p = Returned out.
Proof.
  intros Hall Hi. rewrite forallb_forall in Hall.
  apply list_elem_of_lookup_2, list_elem_of_In, Hall in Hi.
  destruct p; try discriminate. eauto.
Qed.

(** X11.  Every complete run of the threads is a run of sequential calls.
    When [callers] threads call [check_rate_limit] for one valid identifier
    and all of them have returned, the threads can be put in an order (the
    one in which they evaluated their [return] under the lock), each with
    a reading of the clock taken in the run, such that calling
    [check_rate_limit] one thread after the other in that order, each call
    at its thread's reading, leaves the very limiter the threads left and
    returns to each thread the very outcome it got. *)
Theorem concurrent_run_is_sequential self identifier callers sched w :
  identifier <> EmptyString ->
  run_schedule identifier (start self callers) sched = Some w ->
  forallb returned (pcs w) = true ->
  exists order : list (nat * Q),
    order.*1 ≡ₚ seq 0 callers /\
    Forall (fun e => e.2 ∈ clock_readings identifier (start self callers) sched)
      order /\
    limiter w = (check_all self (Some identifier) order.*2).1 /\
    forall k e out,
      order !! k = Some e ->
      (check_all self (Some identifier) order.*2).2 !! k = Some out ->
      pcs w !! e.1 = Some (Returned out).
Proof.
  intros Hne Hrun Hall.
  set (clock := fun t : Q =>
                  t ∈ clock_readings identifier (start self callers) sched).
  assert (Hclock : Forall clock (clock_readings identifier (start self callers) sched))
    by (apply Forall_forall; intros t Ht; exact Ht).
  destruct (run_schedule_lin identifier self clock Hne sched
              (start self callers) w [] (start_lin identifier self clock callers)
              Hclock Hrun) as [order Hlin].
  pose proof (run_schedule_length identifier sched _ _ Hrun) as Hlen.
  simpl in Hlen. rewrite repeat_length in Hlen.
  exists order. repeat split.
  - apply NoDup_Permutation.
    + exact (lin_nodup _ _ _ _ _ Hlin).
    + apply NoDup_seq.
    + intros i. rewrite elem_of_seq. split.
      * intros Hin.
        destruct (done_has_outcome _ _ _ _ _ _ Hlin Hin) as (out & [Ho|Ho]);
          apply lookup_lt_Some in Ho; lia.
      * intros [_ Hi]. simpl in Hi. rewrite <- Hlen in Hi.
        destruct (lookup_lt_is_Some_2 _ _ Hi) as [p Hp].
        destruct (returned_lookup _ _ _ Hall Hp) as [out ->].
        apply (lin_done _ _ _ _ _ Hlin i out). now right.
  - exact (lin_clock_done _ _ _ _ _ Hlin).
  - apply (lin_idle _ _ _ _ _ Hlin). now apply returned_not_in_block.
  - intros k e out Hk Hout.
    destruct (lin_outs _ _ _ _ _ Hlin k e out Hk Hout) as [Ho|Ho]; [| exact Ho].
    destruct (returned_lookup _ _ _ Hall Ho) as [out' [=]].
Qed.

Lemma concurrent_run_is_sequential_witness :
  exists order : list (nat * Q),
    order.*1 ≡ₚ seq 0 2 /\
    Forall (fun e => e.2 ∈ clock_readings u1 (start lim3 2) racing) order /\
    limiter racing_end = (check_all lim3 (Some u1) order.*2).1 /\
    forall k e out,
      order !! k = Some e ->
      (check_all lim3 (Some u1) order.*2).2 !! k = Some out ->
      pcs racing_end !! e.1 = Some (Returned out).
Proof.
  assert (Hne : u1 <> EmptyString) by discriminate.
  assert (Hrun : run_schedule u1 (start lim3 2) racing = Some racing_end)
    by (vm_compute; reflexivity).
  assert (Hall : forallb returned (pcs racing_end) = true) by reflexivity.
  exact (concurrent_run_is_sequential lim3 u1 2 racing racing_end Hne Hrun Hall).
Defined.

(** ** Every order of the callers is a run of the threads *)

(** A thread that waits for the lock with the reading [t] and then runs to
    its [return] on its own. *)
Lemma waiting_alone self identifier (l : list pc) (i : nat) t c :
  identifier <> EmptyString ->
  l !! i = Some (Waiting t) ->
  exists n,
    run_schedule identifier {| limiter := self; locked := false; pcs := l |}
      (repeat (c, i) n) =
    Some {| limiter := fst (check_rate_limit self (Some identifier) t);
            locked := false;
            pcs := <[i := Returned (snd (check_rate_limit self (Some identifier) t))]> l |}.
Proof.
  intros Hne Hi. pose proof (lookup_lt_Some _ _ _ Hi) as Hlt.
  destruct (call_alone self identifier l i t c Hne Hlt) as [n Hn].
  exists n. rewrite run_schedule_alone in Hn by assumption.
  destruct (nonempty_string _ Hne) as (a & s & Hid).
  rewrite Hid in Hn at 1. cbn [thread_step] in Hn.
  now rewrite (list_insert_id l i (Waiting t) Hi) in Hn.
Qed.

(** The threads read the clock one after the other. *)
Lemma all_read self identifier :
  identifier <> EmptyString ->
  forall ts before,
  run_schedule identifier
    {| limiter := self; locked := false;
       pcs := (Waiting <$> before) ++ repeat Called (length ts) |}
    (zip ts (seq (length before) (length ts))) =
  Some {| limiter := self; locked := false; pcs := Waiting <$> (before ++ ts) |}.
Proof.
  intros Hne. destruct (nonempty_string _ Hne) as (a & s & ->).
  induction ts as [|t ts IH]; intros before.
  - simpl. now rewrite !app_nil_r.
  - cbn [length seq zip zip_with repeat run_schedule].
    unfold world_step. cbn [pcs limiter locked fst snd].
    rewrite lookup_app_r by (rewrite length_fmap; lia).
    rewrite length_fmap, Nat.sub_diag. cbn [lookup list_lookup thread_step].
    rewrite insert_app_r_alt by (rewrite length_fmap; lia).
    rewrite length_fmap, Nat.sub_diag. cbn [insert list_insert].
    specialize (IH (before ++ [t])).
    rewrite fmap_app, <- app_assoc, length_app in IH. cbn [fmap list_fmap app length] in IH.
    replace (length before + 1)%nat with (S (length before)) in IH by lia.
    rewrite IH. now rewrite <- app_assoc.
Qed.

(** The waiting threads of [order] take the lock one after the other. *)
Lemma run_in_order identifier c :
  identifier <> EmptyString ->
  forall (order : list (nat * Q)) self (l : list pc),
  NoDup order.*1 ->
  Forall (fun e => l !! e.1 = Some (Waiting e.2)) order ->
  exists sched w,
    sched.*1 = repeat c (length sched) /\
    run_schedule identifier {| limiter := self; locked := false; pcs := l |} sched =
      Some w /\
    locked w = false /\
    limiter w = (check_all self (Some identifier) order.*2).1 /\
    (forall k e out,
       order !! k = Some e ->
       (check_all self (Some identifier) order.*2).2 !! k = Some out ->
       pcs w !! e.1 = Some (Returned out)) /\
    (forall j, j ∉ order.*1 -> pcs w !! j = l !! j).
Proof.
  intros Hne. induction order as [|[i t] order IH]; intros self l Hnd Hall.
  - exists [], {| limiter := self; locked := false; pcs := l |}.
    repeat split; trivial. intros k e out Hk. discriminate.
  - cbn [fmap list_fmap fst snd] in *.
    apply NoDup_cons in Hnd as [Hi Hnd].
    apply Forall_cons in Hall as [Hit Hall]. cbn [fst snd] in Hit.
    destruct (waiting_alone self identifier l i t c Hne Hit) as [n Hn].
    set (s1 := fst (check_rate_limit self (Some identifier) t)) in *.
    set (o1 := snd (check_rate_limit self (Some identifier) t)) in *.
    destruct (IH s1 (<[i := Returned o1]> l) Hnd) as (sched & w & Hc & Hrun & Hlock & Hlim & Houts & Hrest).
    { apply Forall_forall. intros e He. rewrite Forall_forall in Hall.
      rewrite list_lookup_insert_ne; [now apply Hall |].
      intros ->. apply Hi. apply list_elem_of_fmap. eauto. }
    exists (repeat (c, i) n ++ sched), w.
    rewrite check_all_cons.
    fold s1 o1. rewrite (surjective_pairing (check_rate_limit self (Some identifier) t)).
    fold s1 o1.
    rewrite (surjective_pairing (check_all s1 (Some identifier) order.*2)).
    cbn [fst snd]. repeat split.
    + rewrite fmap_app, length_app, repeat_app, Hc. f_equal.
      rewrite repeat_length. clear. induction n as [|n IHn]; [reflexivity |].
      cbn [repeat]. rewrite fmap_cons. now rewrite IHn.
    + now rewrite run_schedule_app, Hn.
    + exact Hlock.
    + exact Hlim.
    + intros [|k] e out Hk Hout.
      * injection Hk as <-. injection Hout as <-. cbn [fst].
        rewrite (Hrest i Hi). apply list_lookup_insert_eq.
        now apply lookup_lt_Some in Hit.
      * exact (Houts k e out Hk Hout).
    + intros j Hj. apply not_elem_of_cons in Hj as [Hji Hj].
      rewrite (Hrest j Hj). now apply list_lookup_insert_ne.
Qed.

Lemma order_is_a_run self identifier (ts : list Q) (order : list (nat * Q)) c :
  identifier <> EmptyString ->
  order.*1 ≡ₚ seq 0 (length ts) ->
  Forall (fun e => ts !! e.1 = Some e.2) order ->
  exists sched w,
    (exists m, sched.*1 = ts ++ repeat c m) /\
    run_schedule identifier (start self (length ts)) sched = Some w /\
    forallb returned (pcs w) = true /\
    limiter w = (check_all self (Some identifier) order.*2).1 /\
    forall k e out,
      order !! k = Some e ->
      (check_all self (Some identifier) order.*2).2 !! k = Some out ->
      pcs w !! e.1 = Some (Returned out).
Proof.
  intros Hne Hperm Hts.
  pose proof (all_read self identifier Hne ts []) as Hread.
  cbn [fmap list_fmap app length] in Hread.
  assert (Hnd : NoDup order.*1) by (rewrite Hperm; apply NoDup_seq).
  destruct (run_in_order identifier c Hne order self (Waiting <$> ts) Hnd)
    as (sched & w & Hc & Hrun & _ & Hlim & Houts & Hrest).
  { eapply Forall_impl; [exact Hts |]. intros e He. simpl.
    now rewrite list_lookup_fmap, He. }
  exists (zip ts (seq 0 (length ts)) ++ sched), w. repeat split.
  - exists (length sched).
    rewrite fmap_app, Hc, fst_zip; [reflexivity |]. now rewrite length_seq.
  - unfold start. now rewrite run_schedule_app, Hread.
  - apply forallb_forall. intros p Hp.
    apply list_elem_of_In, list_elem_of_lookup in Hp as [j Hj].
    destruct (decide (j ∈ order.*1)) as [Hin|Hout].
    + apply list_elem_of_fmap in Hin as (e & -> & He).
      apply list_elem_of_lookup in He as [k Hk].
      destruct (lookup_lt_is_Some_2 (check_all self (Some identifier) order.*2).2 k)
        as [out Hout].
      { rewrite check_all_length, length_fmap. now apply lookup_lt_Some in Hk. }
      rewrite (Houts k e out Hk Hout) in Hj. now injection Hj as <-.
    + rewrite (Hrest j Hout) in Hj. apply lookup_lt_Some in Hj.
      rewrite length_fmap in Hj. exfalso. apply Hout.
      rewrite Hperm. apply elem_of_seq. lia.
  - exact Hlim.
  - exact Houts.
Qed.

Lemma chronological_repeat (l : list Q) c m :
  chronological (l ++ [c]) -> chronological (l ++ repeat c m).
Proof.
  unfold chronological. induction l as [|y l IH]; simpl; intros H.
  - clear H. induction m as [|m IHm]; simpl; constructor; [exact IHm |].
    apply Forall_forall. intros x Hx%list_elem_of_In%repeat_spec. subst x.
    apply Qle_refl.
  - apply StronglySorted_inv in H as [Hs Hy]. constructor; [now apply IH |].
    apply Forall_app in Hy as [Hl Hc]. apply Forall_app. split; [exact Hl |].
    apply Forall_cons in Hc as [Hc _].
    apply Forall_forall. intros x Hx%list_elem_of_In%repeat_spec. now subst x.
Qed.

(** X12.  Every order of the callers is a run of the threads, under any
    clock.  When the clock shows the readings [ts] one after the other and
    then [c], the threads can read [ts] in turn (thread [i] the reading
    [ts !! i]) and then go through [with self.lock] in any order whatever:
    the run leaves the limiter, and returns to each thread the outcome, of
    sequential calls made in that order, each at its thread's reading.  So
    a deque is filled in the order in which the threads take the lock, not
    in the order of their readings. *)
Theorem lock_order_is_free self identifier (ts : list Q) (order : list (nat * Q)) c :
  identifier <> EmptyString ->
  order.*1 ≡ₚ seq 0 (length ts) ->
  Forall (fun e => ts !! e.1 = Some e.2) order ->
  exists sched w,
    (exists m, sched.*1 = ts ++ repeat c m) /\
    run_schedule identifier (start self (length ts)) sched = Some w /\
    forallb returned (pcs w) = true /\
    limiter w = (check_all self (Some identifier) order.*2).1 /\
    forall k e out,
      order !! k = Some e ->
      (check_all self (Some identifier) order.*2).2 !! k = Some out ->
      pcs w !! e.1 = Some (Returned out).
Proof. exact (order_is_a_run self identifier ts order c). Qed.

Lemma lock_order_is_free_witness :
  exists sched w,
    (exists m, sched.*1 = [0%Q; 1%Q] ++ repeat 1%Q m) /\
    run_schedule u1 (start lim3 (length [0%Q; 1%Q])) sched = Some w /\
    forallb returned (pcs w) = true /\
    limiter w = (check_all lim3 (Some u1) [(1%nat, 1%Q); (0%nat, 0%Q)].*2).1 /\
    forall k e out,
      [(1%nat, 1%Q); (0%nat, 0%Q)] !! k = Some e ->
      (check_all lim3 (Some u1) [(1%nat, 1%Q); (0%nat, 0%Q)].*2).2 !! k = Some out ->
      pcs w !! e.1 = Some (Returned out).
Proof.
  assert (Hne : u1 <> EmptyString) by discriminate.
  assert (Hperm : [(1%nat, 1%Q); (0%nat, 0%Q)].*1 ≡ₚ seq 0 (length [0%Q; 1%Q]))
    by apply perm_swap.
  assert (Hts : Forall (fun e : nat * Q => [0%Q; 1%Q] !! e.1 = Some e.2)
                  [(1%nat, 1%Q); (0%nat, 0%Q)])
    by (repeat constructor).
  exact (lock_order_is_free lim3 u1 [0%Q; 1%Q] [(1%nat, 1%Q); (0%nat, 0%Q)] 1%Q
           Hne Hperm Hts).
Defined.

(** X13.  Under a clock that never runs backwards a deque can end up out of
    order.  Two threads call [check_rate_limit] for an identifier without
    recorded requests, the quota being at least 2: there is a run, with
    readings of the clock that never decrease, in which the first thread
    reads [t0], the second one reads the later [t1] and takes the lock
    first, both are admitted, and the deque is left as [[t1; t0]], the
    older item behind the newer one. *)
Theorem deque_out_of_order self identifier t0 t1 :
  identifier <> EmptyString ->
  log_of self identifier = [] ->
  2 <= max_requests self ->
  (0 < time_window self)%Q ->
  (t0 < t1)%Q ->
  exists sched w,
    chronological sched.*1 /\
    run_schedule identifier (start self 2) sched = Some w /\
    pcs w = [Returned admitted; Returned admitted] /\
    log_of (limiter w) identifier = [t1; t0].
Proof.
  intros Hne Hlog Hmax Hwin Ht.
  destruct (order_is_a_run self identifier [t0; t1] [(1%nat, t1); (0%nat, t0)] t1 Hne)
    as (sched & w & [m Hm] & Hrun & Hall & Hlim & Houts).
  { apply perm_swap. }
  { repeat constructor. }
  cbn [fmap list_fmap snd] in Hlim, Houts.
  assert (H1 : check_rate_limit self (Some identifier) t1 =
               (set_requests self (<[identifier := [t1]]> (requests self)), admitted)).
  { rewrite check_rate_limit_admits; trivial; unfold kept_log; rewrite Hlog; simpl;
      [reflexivity | lia]. }
  set (s1 := set_requests self (<[identifier := [t1]]> (requests self))) in *.
  assert (Hkept : kept_log s1 identifier t0 = [t1]).
  { unfold kept_log, s1. rewrite log_of_insert. cbn [purge time_window set_requests].
    assert (E : fresh t0 (time_window self) t1)
      by (apply fresh_future; [exact Hwin | now apply Qlt_le_weak]).
    unfold fresh in E. now rewrite E. }
  assert (H0 : check_rate_limit s1 (Some identifier) t0 =
               (set_requests s1 (<[identifier := [t1; t0]]> (requests s1)), admitted)).
  { rewrite check_rate_limit_admits; trivial; rewrite Hkept; [reflexivity |].
    unfold s1. simpl. lia. }
  assert (Hseq : check_all self (Some identifier) [t1; t0] =
                 (set_requests s1 (<[identifier := [t1; t0]]> (requests s1)),
                  [admitted; admitted])).
  { cbn [check_all]. rewrite H1. cbn [check_all]. now rewrite H0. }
  rewrite Hseq in Hlim, Houts. cbn [fst snd] in Hlim, Houts.
  exists sched, w. repeat split.
  - rewrite Hm. apply (chronological_repeat [t0; t1] t1 m).
    unfold chronological. repeat constructor; try apply Qle_refl; now apply Qlt_le_weak.
  - exact Hrun.
  - pose proof (run_schedule_length identifier sched _ _ Hrun) as Hlen.
    pose proof (Houts 0%nat (1%nat, t1) admitted eq_refl eq_refl) as Hp1.
    pose proof (Houts 1%nat (0%nat, t0) admitted eq_refl eq_refl) as Hp0.
    simpl in Hlen, Hp1, Hp0.
    destruct (pcs w) as [|p0 [|p1 [|p2 l]]]; try discriminate.
    injection Hp0 as ->. now injection Hp1 as ->.
  - rewrite Hlim. apply log_of_insert.
Qed.

Lemma deque_out_of_order_witness :
  exists sched w,
    chronological sched.*1 /\
    run_schedule u1 (start lim3 2) sched = Some w /\
    pcs w = [Returned admitted; Returned admitted] /\
    log_of (limiter w) u1 = [1%Q; 0%Q].
Proof.
  assert (Hne : u1 <> EmptyString) by discriminate.
  assert (Hlog : log_of lim3 u1 = []) by (vm_compute; reflexivity).
  assert (Hmax : 2 <= max_requests lim3) by (vm_compute; discriminate).
  assert (Hwin : (0 < time_window lim3)%Q) by reflexivity.
  assert (Ht : (0 < 1)%Q) by reflexivity.
  exact (deque_out_of_order lim3 u1 0%Q 1%Q Hne Hlog Hmax Hwin Ht).
Defined.

(** ** The exceptions *)

(** X14.  On a limiter reached from [__init__] by calls of the two methods,
    [check_rate_limit] never raises [IndexError]: the subscript
    [self.requests[identifier][0]] never fails, since a deque that is at
    least as long as a positive quota is not empty.  It raises the
    [ValueError] of its first statement for [None] and the empty string
    and for nothing else; any other exception is the [OverflowError] of
    line 66, raised for a non-empty identifier whose purged deque is
    full. *)
Theorem never_index_error self identifier now e :
  reachable self ->
  snd (check_rate_limit self identifier now) = inl e ->
  ((identifier = None \/ identifier = Some EmptyString) /\
   e = ValueError "identifier cannot be None or empty") \/
  (exists s msg,
     identifier = Some s /\ s <> EmptyString /\
     e = OverflowError msg /\
     max_requests self <= Z.of_nat (length (kept_log self s now))).
Proof.
  intros Hr He. apply reachable_config in Hr as [Hpos _].
  destruct identifier as [identifier|];
    [| simpl in He; left; split; [auto | congruence]].
  destruct (decide (identifier = EmptyString)) as [->|Hne];
    [simpl in He; left; split; [auto | congruence] |].
  right. rewrite check_rate_limit_valid in He by assumption. cbv zeta in He.
  destruct (Z.leb_spec (max_requests self)
              (Z.of_nat (length (kept_log self identifier now)))) as [Hle|_];
    [| discriminate].
  destruct (kept_log self identifier now) as [|oldest rest] eqn:Ek;
    [simpl in Hle; lia |].
  cbn [snd] in He. destruct (refusal_raises _ _ _ _ He) as [msg ->].
  exists identifier, msg. rewrite Ek. repeat split; trivial.
Qed.

Lemma never_index_error_witness :
  ((Some u1 = None \/ Some u1 = Some EmptyString) /\
   OverflowError "int too large to convert to float" =
     ValueError "identifier cannot be None or empty") \/
  (exists s msg,
     Some u1 = Some s /\ s <> EmptyString /\
     OverflowError "int too large to convert to float" = OverflowError msg /\
     max_requests lim_huge_zero <= Z.of_nat (length (kept_log lim_huge_zero s 1))).
Proof.
  assert (Hr : reachable lim_huge_zero) by exact (proj1 quota_exhaustion_raises).
  assert (He : snd (check_rate_limit lim_huge_zero (Some u1) 1) =
               inl (OverflowError "int too large to convert to float"))
    by (vm_compute; reflexivity).
  exact (never_index_error lim_huge_zero (Some u1) 1%Q _ Hr He).
Defined.
